(** * Field-level lineage: the Informatica and Essbase extractors

    A shallow embedding of the lineage core of the repository
    ([informatica_lineage.py] and the Essbase connector's
    [calc_extractor.py] / [lineage_extractor.py]) together with the
    properties its specification states about it.

    Conventions of the embedding:
    - a Python [str] is a [string] of ASCII characters; [str.upper] and the
      character classes of [re] are modelled on ASCII;
    - a Python [dict] whose iteration order is observed is an insertion
      ordered association list ([dict]); a dict that is only ever looked up
      is a [gmap];
    - a Python [set] of strings is a [gset string]; where the code iterates
      over such a set the development is parametric in the iteration order;
    - a Python [int] is a [Z] (a line counter is a [nat]); the confidence
      score, a float that only takes the literal values [1.0] and [0.95] and
      is only compared, is a rational [Q];
    - mutation of an object shared between calls (the [visited] set of the
      tracer) is explicit state passing;
    - recursion and loops that Python does not bound are given a fuel
      argument, and termination is proved by exhibiting enough fuel;
    - the patterns handed to [re] are terms of a small regular-expression
      language with a backtracking matcher;
    - what is computed outside the repository is a parameter: the statement
      sqlglot parses a query into, and the URN builders of the DataHub
      client. *)

From Stdlib Require Import ZArith QArith List Ascii String Permutation Relations.
From stdpp Require Import base option list strings pretty gmap sets.

Local Open Scope string_scope.
Local Open Scope list_scope.
Local Open Scope Z_scope.

(* ===================================================================== *)
(** * Python helpers *)
(* ===================================================================== *)

Module Py.

(** Insertion-ordered dictionary with string keys. *)
Definition dict (V : Type) : Type := list (string * V).

Fixpoint dict_get {V} (k : string) (d : dict V) : option V :=
  match d with
  | [] => None
  | (k', v) :: d' => if String.eqb k k' then Some v else dict_get k d'
  end.

(** [d[k] = v]: an existing key keeps its position. *)
Fixpoint dict_set {V} (k : string) (v : V) (d : dict V) : dict V :=
  match d with
  | [] => [(k, v)]
  | (k', v') :: d' =>
      if String.eqb k k' then (k, v) :: d' else (k', v') :: dict_set k v d'
  end.

(** In-place change of the value stored under an existing key
    ([d[k].add(x)], [d[k].discard(x)]). *)
Fixpoint dict_update {V} (k : string) (f : V -> V) (d : dict V) : dict V :=
  match d with
  | [] => []
  | (k', v) :: d' =>
      if String.eqb k k' then (k', f v) :: d' else (k', v) :: dict_update k f d'
  end.

Definition dict_keys {V} (d : dict V) : list string := map fst d.
Definition dict_values {V} (d : dict V) : list V := map snd d.

Definition dict_mem {V} (k : string) (d : dict V) : bool :=
  match dict_get k d with Some _ => true | None => false end.

(** [x in l] for a list of strings. *)
Fixpoint str_in (x : string) (l : list string) : bool :=
  match l with
  | [] => false
  | y :: l' => if String.eqb x y then true else str_in x l'
  end.

(** [str.upper], on ASCII letters. *)
Definition upper_ascii (c : ascii) : ascii :=
  let n := nat_of_ascii c in
  if (Nat.leb 97 n && Nat.leb n 122)%bool then ascii_of_nat (n - 32) else c.

Definition lower_ascii (c : ascii) : ascii :=
  let n := nat_of_ascii c in
  if (Nat.leb 65 n && Nat.leb n 90)%bool then ascii_of_nat (n + 32) else c.

Fixpoint upper (s : string) : string :=
  match s with
  | EmptyString => EmptyString
  | String c s' => String (upper_ascii c) (upper s')
  end.

(** [s.endswith(suffix)] *)
Fixpoint skip (n : nat) (s : string) : string :=
  match n, s with
  | S n', String _ s' => skip n' s'
  | _, _ => s
  end.

Definition endswith (s suffix : string) : bool :=
  (Nat.leb (String.length suffix) (String.length s)
   && String.eqb (skip (String.length s - String.length suffix) s) suffix)%bool.

(** [s.rsplit(".", 1)]: split at the last dot, if there is one. *)
Fixpoint rsplit_dot (s : string) : option (string * string) :=
  match s with
  | EmptyString => None
  | String c s' =>
      match rsplit_dot s' with
      | Some (a, b) => Some (String c a, b)
      | None => if Ascii.eqb c "." then Some (EmptyString, s') else None
      end
  end.

(** [s.startswith(prefix)] *)
Fixpoint startswith (prefix s : string) : bool :=
  match prefix, s with
  | EmptyString, _ => true
  | String a p', String b s' => (Ascii.eqb a b && startswith p' s')%bool
  | String _ _, EmptyString => false
  end.

(** [content.split(sep)] for a one-character separator. *)
Fixpoint split_on (sep : ascii) (s : string) : list string :=
  match s with
  | EmptyString => [EmptyString]
  | String c s' =>
      if Ascii.eqb c sep then EmptyString :: split_on sep s'
      else match split_on sep s' with
           | [] => [String c EmptyString]
           | part :: parts => String c part :: parts
           end
  end.

(** Truthiness of a string: the empty string is falsy. *)
Definition truthy (s : string) : bool :=
  match s with EmptyString => false | _ => true end.

(** [sep.join(parts)]. *)
Fixpoint join (sep : string) (parts : list string) : string :=
  match parts with
  | [] => ""
  | [p] => p
  | p :: ps => p +:+ sep +:+ join sep ps
  end.

End Py.

(* ===================================================================== *)
(** * Regular expressions *)
(* ===================================================================== *)

(** The fragment of Python's [re] the extractors use: a backtracking
    matcher with greedy repetition, ordered alternation, capturing groups
    and back-references.  Characters are ASCII. *)
Module Regex.

Inductive re : Type :=
| Eps                              (* the empty pattern *)
| Chr (p : ascii -> bool)          (* one character of a class *)
| Seq (r1 r2 : re)                 (* r1 r2 *)
| Alt (r1 r2 : re)                 (* r1|r2, r1 tried first *)
| Star (r : re)                    (* r*, greedy *)
| Group (n : nat) (r : re)         (* capturing group number n *)
| Backref (n : nat).               (* \n *)

(** Captured groups, most recent first. *)
Definition captures : Type := list (nat * string).

Fixpoint group (n : nat) (caps : captures) : option string :=
  match caps with
  | [] => None
  | (m, g) :: caps' => if Nat.eqb n m then Some g else group n caps'
  end.

Fixpoint take (n : nat) (s : string) : string :=
  match n, s with
  | S n', String c s' => String c (take n' s')
  | _, _ => EmptyString
  end.

Fixpoint drop (n : nat) (s : string) : string :=
  match n, s with
  | S n', String _ s' => drop n' s'
  | _, _ => s
  end.

(** [s' ] is what is left of [s] after a match: the matched text. *)
Definition consumed (s s' : string) : string :=
  take (String.length s - String.length s') s.

(** [matches r s caps k]: match [r] at the start of [s], then continue
    with [k] on the rest; [None] makes the matcher backtrack. *)
Fixpoint matches {R : Type} (r : re) (s : string) (caps : captures)
    (k : string -> captures -> option R) {struct r} : option R :=
  match r with
  | Eps => k s caps
  | Chr p =>
      match s with
      | String c s' => if p c then k s' caps else None
      | EmptyString => None
      end
  | Seq r1 r2 => matches r1 s caps (fun s' caps' => matches r2 s' caps' k)
  | Alt r1 r2 =>
      match matches r1 s caps k with
      | Some x => Some x
      | None => matches r2 s caps k
      end
  | Star r' =>
      (fix star (fuel : nat) (s : string) (caps : captures) : option R :=
         match fuel with
         | O => k s caps
         | S fuel' =>
             match matches r' s caps
                     (fun s' caps' =>
                        if Nat.ltb (String.length s') (String.length s)
                        then star fuel' s' caps' else None) with
             | Some x => Some x
             | None => k s caps
             end
         end) (S (String.length s)) s caps
  | Group n r' =>
      matches r' s caps (fun s' caps' => k s' ((n, consumed s s') :: caps'))
  | Backref n =>
      match group n caps with
      | Some g =>
          if String.eqb (take (String.length g) s) g
          then k (drop (String.length g) s) caps else None
      | None => None
      end
  end.

(** [re.match]: a match at the start of the string; the rest of the
    string and the groups. *)
Definition match_at (r : re) (s : string) : option (string * captures) :=
  matches r s [] (fun s' caps => Some (s', caps)).

(** [re.search]: the leftmost match; the text from the start of the
    match, the rest after it, and the groups. *)
Fixpoint search (r : re) (s : string) : option (string * string * captures) :=
  match match_at r s with
  | Some (s', caps) => Some (s, s', caps)
  | None =>
      match s with
      | String _ s' => search r s'
      | EmptyString => None
      end
  end.

(** [re.finditer]: the successive non-overlapping matches; after an empty
    match the scan moves on by one character. *)
Fixpoint finditer_from (fuel : nat) (r : re) (s : string)
  : list (string * captures) :=
  match fuel with
  | O => []
  | S fuel' =>
      match search r s with
      | None => []
      | Some (s0, s', caps) =>
          (consumed s0 s', caps) ::
          (if Nat.ltb (String.length s') (String.length s0)
           then finditer_from fuel' r s'
           else match s' with
                | String _ s'' => finditer_from fuel' r s''
                | EmptyString => []
                end)
      end
  end.

Definition finditer (r : re) (s : string) : list (string * captures) :=
  finditer_from (S (String.length s)) r s.

(** *** Character classes and pattern combinators *)

Definition in_range (lo hi : nat) (c : ascii) : bool :=
  (Nat.leb lo (nat_of_ascii c) && Nat.leb (nat_of_ascii c) hi)%bool.

(** [\s], and the characters [str.strip] removes: tab to carriage return,
    the separators 28 to 31, and the space. *)
Definition is_space (c : ascii) : bool :=
  (in_range 9 13 c || in_range 28 32 c)%bool.

(** [\w] *)
Definition is_word (c : ascii) : bool :=
  (in_range 48 57 c || in_range 65 90 c || in_range 97 122 c
   || Nat.eqb (nat_of_ascii c) 95)%bool.

Definition is_char (x : ascii) (c : ascii) : bool := Ascii.eqb x c.

(** A literal character under [re.IGNORECASE]. *)
Definition is_char_nocase (x : ascii) (c : ascii) : bool :=
  Ascii.eqb (Py.lower_ascii x) (Py.lower_ascii c).

(** [[^...]] *)
Definition none_of (l : list ascii) (c : ascii) : bool :=
  negb (existsb (Ascii.eqb c) l).

Definition plus (r : re) : re := Seq r (Star r).
Definition opt (r : re) : re := Alt r Eps.

Fixpoint lit (s : string) : re :=
  match s with
  | EmptyString => Eps
  | String c s' => Seq (Chr (is_char c)) (lit s')
  end.

Fixpoint lit_nocase (s : string) : re :=
  match s with
  | EmptyString => Eps
  | String c s' => Seq (Chr (is_char_nocase c)) (lit_nocase s')
  end.

Fixpoint seq (rs : list re) : re :=
  match rs with
  | [] => Eps
  | [r] => r
  | r :: rs' => Seq r (seq rs')
  end.

End Regex.

(* ===================================================================== *)
(** * Informatica: data model *)
(* ===================================================================== *)

Module Infa.
Import Py.

Inductive TransformationType : Type :=
| SOURCE_DEFINITION | SOURCE_QUALIFIER | TARGET_DEFINITION | EXPRESSION
| FILTER | AGGREGATOR | JOINER | LOOKUP | ROUTER | SORTER
| SEQUENCE_GENERATOR | NORMALIZER | RANK | UNION | UPDATE_STRATEGY
| STORED_PROCEDURE | CUSTOM_TRANSFORMATION | UNKNOWN.

Definition TransformationType_eqb (a b : TransformationType) : bool :=
  match a, b with
  | SOURCE_DEFINITION, SOURCE_DEFINITION | SOURCE_QUALIFIER, SOURCE_QUALIFIER
  | TARGET_DEFINITION, TARGET_DEFINITION | EXPRESSION, EXPRESSION
  | FILTER, FILTER | AGGREGATOR, AGGREGATOR | JOINER, JOINER
  | LOOKUP, LOOKUP | ROUTER, ROUTER | SORTER, SORTER
  | SEQUENCE_GENERATOR, SEQUENCE_GENERATOR | NORMALIZER, NORMALIZER
  | RANK, RANK | UNION, UNION | UPDATE_STRATEGY, UPDATE_STRATEGY
  | STORED_PROCEDURE, STORED_PROCEDURE
  | CUSTOM_TRANSFORMATION, CUSTOM_TRANSFORMATION | UNKNOWN, UNKNOWN => true
  | _, _ => false
  end.

(** [TransformationType.value] *)
Definition type_value (t : TransformationType) : string :=
  match t with
  | SOURCE_DEFINITION => "Source Definition"
  | SOURCE_QUALIFIER => "Source Qualifier"
  | TARGET_DEFINITION => "Target Definition"
  | EXPRESSION => "Expression"
  | FILTER => "Filter"
  | AGGREGATOR => "Aggregator"
  | JOINER => "Joiner"
  | LOOKUP => "Lookup Procedure"
  | ROUTER => "Router"
  | SORTER => "Sorter"
  | SEQUENCE_GENERATOR => "Sequence Generator"
  | NORMALIZER => "Normalizer"
  | RANK => "Rank"
  | UNION => "Union"
  | UPDATE_STRATEGY => "Update Strategy"
  | STORED_PROCEDURE => "Stored Procedure"
  | CUSTOM_TRANSFORMATION => "Custom Transformation"
  | UNKNOWN => "Unknown"
  end.

Record FieldInfo : Type := {
  fi_name : string;
  fi_datatype : string;
  fi_port_type : option string;
  fi_expression : option string
}.

Record ConnectorInfo : Type := {
  from_instance : string;
  from_instance_type : string;
  from_field : string;
  to_instance : string;
  to_instance_type : string;
  to_field : string
}.

Record TransformationInfo : Type := {
  tr_name : string;
  tr_type : TransformationType;
  tr_fields : dict FieldInfo;
  sql_query : option string;
  stored_proc_name : option string;
  stored_proc_schema : option string
}.

Record SourceDefinition : Type := {
  sd_name : string;
  sd_owner_name : option string;
  sd_fields : dict FieldInfo
}.

Record TargetDefinition : Type := {
  td_name : string;
  td_owner_name : option string;
  td_fields : dict FieldInfo
}.

Record InstanceInfo : Type := {
  in_name : string;
  transformation_name : string;
  transformation_type : TransformationType
}.

Record MappingInfo : Type := {
  mp_name : string;
  instances : dict InstanceInfo;
  connectors : list ConnectorInfo;
  mp_transformations : dict TransformationInfo
}.

Record FolderInfo : Type := {
  fo_name : string;
  sources : dict SourceDefinition;
  targets : dict TargetDefinition;
  fo_transformations : dict TransformationInfo
}.

Record ColumnLineageEdge : Type := {
  source_dataset : string;
  source_column : string;
  target_dataset : string;
  target_column : string;
  cle_transformation_type : TransformationType;
  transformation_expression : option string;
  confidence_score : Q;
  cle_step_order : Z
}.

Record TransformationStep : Type := {
  step_order : Z;
  instance_name : string;
  ts_transformation_type : TransformationType;
  input_fields : list (string * string);
  output_fields : list (string * string);
  ts_expression : option string
}.

(** The instance graph: [graph[to_instance][to_field]] is the list of
    [(from_instance, from_field)] pairs.  It is only ever looked up. *)
Abbreviation InstanceGraph := (gmap string (gmap string (list (string * string)))).

(** [graph.get(inst, {}).get(field, [])] *)
Definition graph_get (graph : InstanceGraph) (inst field : string)
  : list (string * string) :=
  default [] (default ∅ (graph !! inst) !! field).

(** One iteration of the loop of [_build_instance_graph]. *)
Definition add_connector (graph : InstanceGraph) (connector : ConnectorInfo)
  : InstanceGraph :=
  let to_inst := to_instance connector in
  let to_fld := to_field connector in
  let from_inst := from_instance connector in
  let from_fld := from_field connector in
  let graph1 :=
    match graph !! to_inst with
    | None => <[to_inst := ∅]> graph
    | Some _ => graph
    end in
  let row := default ∅ (graph1 !! to_inst) in
  let row1 :=
    match row !! to_fld with
    | None => <[to_fld := []]> row
    | Some _ => row
    end in
  let cell := default [] (row1 !! to_fld) in
  <[to_inst := <[to_fld := cell ++ [(from_inst, from_fld)]]> row1]> graph1.

(** [LineageBuilder._build_instance_graph] *)
Definition _build_instance_graph (mapping : MappingInfo) : InstanceGraph :=
  fold_left add_connector (connectors mapping) ∅.

(** [LineageBuilder._get_transformation] *)
Definition _get_transformation (folder : FolderInfo) (mapping : MappingInfo)
    (instance : InstanceInfo) : option TransformationInfo :=
  match dict_get (transformation_name instance) (mp_transformations mapping) with
  | Some t => Some t
  | None => dict_get (transformation_name instance) (fo_transformations folder)
  end.

(** [f"{target_instance}.{target_field}"] *)
Definition visit_key (inst field : string) : string := inst +:+ "." +:+ field.

(** The loop [for from_inst, from_field in upstream_fields: ...
    steps.extend(upstream_steps)] of [_trace_field_lineage]; [rec] is the
    recursive call, which reads and updates the shared [visited] set. *)
Fixpoint trace_upstream
    (rec : string -> string -> gset string
           -> option (list TransformationStep * gset string))
    (l : list (string * string)) (visited : gset string)
    (steps : list TransformationStep)
  : option (list TransformationStep * gset string) :=
  match l with
  | [] => Some (steps, visited)
  | (from_inst, from_fld) :: l' =>
      match rec from_inst from_fld visited with
      | None => None
      | Some (upstream_steps, visited') =>
          trace_upstream rec l' visited' (steps ++ upstream_steps)
      end
  end.

(** [LineageBuilder._trace_field_lineage].  The [visited] set is one
    object shared by all recursive calls, so it is threaded through and
    returned.  [fuel] bounds the recursion depth; [None] is "out of
    fuel", never a result of the Python function. *)
Fixpoint _trace_field_lineage (fuel : nat) (folder : FolderInfo)
    (mapping : MappingInfo) (target_instance target_field : string)
    (instance_graph : InstanceGraph) (visited : gset string) (order : Z)
  : option (list TransformationStep * gset string) :=
  match fuel with
  | O => None
  | S fuel' =>
    let key := visit_key target_instance target_field in
    if decide (key ∈ visited) then Some ([], visited)
    else
      let visited := {[key]} ∪ visited in
      match dict_get target_instance (instances mapping) with
      | None => Some ([], visited)
      | Some instance_info =>
        let upstream_fields :=
          graph_get instance_graph target_instance target_field in
        let trans := _get_transformation folder mapping instance_info in
        let expression :=
          match trans with
          | Some t =>
              match dict_get target_field (tr_fields t) with
              | Some f => fi_expression f
              | None => None
              end
          | None => None
          end in
        let step := {|
          step_order := order;
          instance_name := target_instance;
          ts_transformation_type := transformation_type instance_info;
          input_fields := upstream_fields;
          output_fields := [(target_instance, target_field)];
          ts_expression := expression |} in
        trace_upstream
          (fun from_inst from_fld visited =>
             _trace_field_lineage fuel' folder mapping from_inst from_fld
               instance_graph visited (order + 1))
          upstream_fields visited [step]
      end
  end.

(** The names a trace from [(target_instance, target_field)] can reach:
    the start pair and the source ends of the connectors. *)
Definition trace_nodes (mapping : MappingInfo) (target_instance : string)
  : list string :=
  remove_dups (target_instance :: map from_instance (connectors mapping)).

Definition trace_fields (mapping : MappingInfo) (target_field : string)
  : list string :=
  remove_dups (target_field :: map from_field (connectors mapping)).

(** The (instance, field) pairs of the steps of a chain, and their keys. *)
Definition step_pairs (steps : list TransformationStep)
  : list (string * string) := flat_map output_fields steps.

Definition step_keys (steps : list TransformationStep) : list string :=
  map (fun p => visit_key (fst p) (snd p)) (step_pairs steps).

(** The pairs a trace can reach, and their keys in the visited set. *)
Definition trace_pairs (mapping : MappingInfo)
    (target_instance target_field : string) : list (string * string) :=
  list_prod (trace_nodes mapping target_instance)
            (trace_fields mapping target_field).

Definition pair_key (p : string * string) : string :=
  visit_key (fst p) (snd p).

Definition keys_of (P : list (string * string)) : gset string :=
  list_to_set (map pair_key P).

(** A recorded step belongs to an instance of the mapping and produces
    exactly one pair, taken from [P]. *)
Definition step_ok (mapping : MappingInfo) (P : list (string * string))
    (s : TransformationStep) : Prop :=
  exists tf, output_fields s = [(instance_name s, tf)] /\
             (instance_name s, tf) ∈ P /\
             is_Some (dict_get (instance_name s) (instances mapping)).

(** What a call of the tracer does to the shared visited set [v], giving
    [v'], and to the chain, recording the steps [st]. *)
Definition trace_post (mapping : MappingInfo) (P : list (string * string))
    (v : gset string) (st : list TransformationStep) (v' : gset string)
  : Prop :=
  v ⊆ v' /\ v' ⊆ v ∪ keys_of P /\ NoDup (step_keys st) /\
  (forall k, k ∈ step_keys st -> k ∈ v' /\ k ∉ v) /\
  Forall (step_ok mapping P) st.

(** The connectors that end in [(inst, field)]. *)
Definition connects_to (inst field : string) (c : ConnectorInfo) : bool :=
  (String.eqb (to_instance c) inst && String.eqb (to_field c) field)%bool.

Definition from_pair (c : ConnectorInfo) : string * string :=
  (from_instance c, from_field c).

(** *** [SQLLineageParser] *)

(** What the parser reads of a statement parsed by sqlglot. *)
Record SqlTable : Type := {
  tbl_name : string;           (* table.name *)
  tbl_alias : string           (* table.alias, empty when there is none *)
}.

Record SqlColumn : Type := {
  col_name : string;           (* col.name *)
  col_table : string           (* col.table, empty when unqualified *)
}.

Inductive SelectKind : Type :=
| IsAlias (alias : string)     (* exp.Alias: select_expr.alias *)
| IsColumn (name : string)     (* exp.Column: select_expr.name *)
| IsStar                       (* exp.Star *)
| IsOther.

Record SelectExpr : Type := {
  sel_kind : SelectKind;
  sel_columns : list SqlColumn; (* inner_expr.find_all(exp.Column) *)
  sel_sql : string              (* select_expr.sql(dialect) *)
}.

Inductive Parsed : Type :=
| PSelect (tables : list SqlTable)           (* parsed.find_all(exp.Table) *)
          (expressions : list SelectExpr)    (* parsed.expressions *)
| PNotSelect.

(** One lineage result: [(upstream_columns, downstream_column, expression)]. *)
Definition SqlResult : Type :=
  (list (string * string) * string * option string)%type.

Abbreviation SourceTables := (dict (dict FieldInfo)).

(** The loop [for known_table in source_tables.keys(): ... break]. *)
Fixpoint match_known_table (known : list string) (table_name : string)
  : option string :=
  match known with
  | [] => None
  | known_table :: rest =>
      if String.eqb (upper known_table) (upper table_name) then Some known_table
      else if endswith (upper known_table) ("." +:+ upper table_name)
           then Some known_table
           else match_known_table rest table_name
  end.

(** One iteration of [for table in parsed.find_all(exp.Table)]. *)
Definition add_source_ref (source_tables : SourceTables)
    (source_refs : dict string) (table : SqlTable) : dict string :=
  let table_name := tbl_name table in
  let alias := if truthy (tbl_alias table) then tbl_alias table else table_name in
  match match_known_table (dict_keys source_tables) table_name with
  | Some matched_table =>
      if truthy matched_table
      then dict_set (upper alias) matched_table source_refs
      else dict_set (upper alias) table_name source_refs
  | None => dict_set (upper alias) table_name source_refs
  end.

(** [SQLLineageParser._resolve_column_table]: the candidates. *)
Definition column_candidates (column_name : string)
    (source_tables : SourceTables) : list string :=
  flat_map
    (fun entry : string * dict FieldInfo =>
       flat_map (fun field_name =>
                   if String.eqb (upper field_name) (upper column_name)
                   then [fst entry] else [])
                (dict_keys (snd entry)))
    source_tables.

Definition _resolve_column_table (column_name : string)
    (source_tables : SourceTables) : option string :=
  match column_candidates column_name source_tables with
  | [table_name] => Some table_name
  | _ => None
  end.

(** Does a table list the column, up to case; and the known tables that
    do, in the order of [source_tables]. *)
Definition table_has_column (fields : dict FieldInfo) (column_name : string)
  : bool :=
  existsb (fun field_name => String.eqb (upper field_name) (upper column_name))
          (dict_keys fields).

Definition holders (column_name : string) (source_tables : SourceTables)
  : list string :=
  map fst (List.filter
             (fun entry : string * dict FieldInfo =>
                table_has_column (snd entry) column_name)
             source_tables).

(** The fields of the known tables whose name is the column name up to
    case, each with its table, in the order of [source_tables]. *)
Definition field_matches (column_name : string) (source_tables : SourceTables)
  : list (string * string) :=
  flat_map
    (fun entry : string * dict FieldInfo =>
       map (fun field_name => (fst entry, field_name))
           (List.filter
              (fun field_name =>
                 String.eqb (upper field_name) (upper column_name))
              (dict_keys (snd entry))))
    source_tables.

(** The body of [for col in inner_expr.find_all(exp.Column)] up to the
    test [if resolved_table]: the table the column is attributed to. *)
Definition resolve_column (source_refs : dict string)
    (source_tables : SourceTables) (col : SqlColumn) : option string :=
  let resolved_table :=
    if truthy (col_table col) then
      let table_ref := upper (col_table col) in
      match dict_get table_ref source_refs with
      | Some t => Some t
      | None => Some table_ref
      end
    else if Nat.eqb (length source_refs) 1 then head (dict_values source_refs)
    else _resolve_column_table (col_name col) source_tables in
  match resolved_table with
  | Some t => if truthy t then Some t else None
  | None => None
  end.

Definition upstream_columns (source_refs : dict string)
    (source_tables : SourceTables) (cols : list SqlColumn)
  : list (string * string) :=
  fold_left
    (fun upstream_cols col =>
       match resolve_column source_refs source_tables col with
       | Some resolved_table => upstream_cols ++ [(resolved_table, col_name col)]
       | None => upstream_cols
       end)
    cols [].

(** [SELECT *]: one pass-through result per known table and field. *)
Definition star_results (source_tables : SourceTables) : list SqlResult :=
  flat_map
    (fun entry : string * dict FieldInfo =>
       map (fun field_name => ([(fst entry, field_name)], field_name, None))
           (dict_keys (snd entry)))
    source_tables.

(** One iteration of [for i, select_expr in enumerate(parsed.expressions)]. *)
Definition select_results (source_refs : dict string)
    (source_tables : SourceTables) (i : nat) (select_expr : SelectExpr)
  : list SqlResult :=
  let output_col :=
    match sel_kind select_expr with
    | IsAlias alias => alias
    | IsColumn name => name
    | _ => "expr_" +:+ pretty i
    end in
  let upstream_cols :=
    upstream_columns source_refs source_tables (sel_columns select_expr) in
  match sel_kind select_expr with
  | IsStar => star_results source_tables
  | _ =>
      match upstream_cols with
      | [] => []
      | _ => [(upstream_cols, output_col, Some (sel_sql select_expr))]
      end
  end.

Fixpoint select_loop (source_refs : dict string) (source_tables : SourceTables)
    (i : nat) (expressions : list SelectExpr) : list SqlResult :=
  match expressions with
  | [] => []
  | select_expr :: rest =>
      select_results source_refs source_tables i select_expr
      ++ select_loop source_refs source_tables (S i) rest
  end.

Section SqlParser.
(** [sqlglot.parse_one(sql, dialect=...)]; [None] when sqlglot raises
    (or is not installed): every such case ends in an empty result. *)
Variable parse_one : string -> option Parsed.

(** [SQLLineageParser.parse_sql] / [_parse_with_sqlglot] *)
Definition parse_sql (sql : string) (source_tables : SourceTables)
  : list SqlResult :=
  match parse_one sql with
  | Some (PSelect tables expressions) =>
      let source_refs :=
        fold_left (add_source_ref source_tables) tables [] in
      select_loop source_refs source_tables 0 expressions
  | _ => []
  end.
End SqlParser.

(** The procedure-call idioms, in the order of [patterns]. *)
Definition qualified_name : Regex.re :=
  Regex.Seq
    (Regex.opt (Regex.Seq (Regex.Group 1 (Regex.plus (Regex.Chr Regex.is_word)))
                          (Regex.Chr (Regex.is_char "."))))
    (Regex.Group 2 (Regex.plus (Regex.Chr Regex.is_word))).

Definition spaces0 : Regex.re := Regex.Star (Regex.Chr Regex.is_space).
Definition spaces1 : Regex.re := Regex.plus (Regex.Chr Regex.is_space).

(** [CALL\s+(?:(\w+)\.)?(\w+)\s*\(] *)
Definition pattern_call : Regex.re :=
  Regex.seq [Regex.lit_nocase "CALL"; spaces1; qualified_name; spaces0;
             Regex.Chr (Regex.is_char "(")].

(** [EXECUTE\s+(?:(\w+)\.)?(\w+)\s*] *)
Definition pattern_execute : Regex.re :=
  Regex.seq [Regex.lit_nocase "EXECUTE"; spaces1; qualified_name; spaces0].

(** [BEGIN\s+(?:(\w+)\.)?(\w+)\s*\(] *)
Definition pattern_begin : Regex.re :=
  Regex.seq [Regex.lit_nocase "BEGIN"; spaces1; qualified_name; spaces0;
             Regex.Chr (Regex.is_char "(")].

(** [{\s*call\s+(?:(\w+)\.)?(\w+)\s*\(] *)
Definition pattern_odbc : Regex.re :=
  Regex.seq [Regex.Chr (Regex.is_char "{"); spaces0; Regex.lit_nocase "call";
             spaces1; qualified_name; spaces0; Regex.Chr (Regex.is_char "(")].

Definition patterns : list Regex.re :=
  [pattern_call; pattern_execute; pattern_begin; pattern_odbc].

(** The loop [for pattern in patterns: match = re.search(...)]. *)
Fixpoint first_call (patterns : list Regex.re) (sql : string)
  : option (string * string) :=
  match patterns with
  | [] => None
  | pattern :: rest =>
      match Regex.search pattern sql with
      | Some (_, _, caps) =>
          let schema := default "" (Regex.group 1 caps) in
          let proc_name := default "" (Regex.group 2 caps) in
          Some (schema, proc_name)
      | None => first_call rest sql
      end
  end.

(** [SQLLineageParser.detect_stored_procedure_call] *)
Definition detect_stored_procedure_call (sql : string)
  : option (string * string) := first_call patterns sql.

(** *** [LineageBuilder]: column lineage edges *)

(** The confidence of an edge built from a parsed query projection. *)
Definition sql_confidence : Q := 95 # 100.

(** [LineageBuilder._build_source_dataset_name] *)
Definition _build_source_dataset_name (source : SourceDefinition) : string :=
  join "."
    ((match sd_owner_name source with
      | Some owner => if truthy owner then [owner] else []
      | None => []
      end) ++ [sd_name source]).

(** [LineageBuilder._build_target_dataset_name] *)
Definition _build_target_dataset_name (target : TargetDefinition) : string :=
  join "."
    ((match td_owner_name target with
      | Some owner => if truthy owner then [owner] else []
      | None => []
      end) ++ [td_name target]).

Section SqlLineage.
Variable parse_one : string -> option Parsed.

(** The edges of one parse result, for the target column at hand. *)
Definition result_edges (folder : FolderInfo) (target_table target_col : string)
    (step : TransformationStep) (result : SqlResult)
  : list ColumnLineageEdge :=
  let '(upstream_cols, output_col, expr) := result in
  if String.eqb (upper output_col) (upper target_col) then
    flat_map
      (fun tc : string * string =>
         match dict_get (fst tc) (sources folder) with
         | Some source_def =>
             [ {| source_dataset := _build_source_dataset_name source_def;
                  source_column := snd tc;
                  target_dataset := target_table;
                  target_column := target_col;
                  cle_transformation_type := SOURCE_QUALIFIER;
                  transformation_expression := expr;
                  confidence_score := sql_confidence;
                  cle_step_order := step_order step |} ]
         | None => []
         end)
      upstream_cols
  else [].

(** [LineageBuilder._parse_sql_lineage] *)
Definition _parse_sql_lineage (folder : FolderInfo) (sql : string)
    (target_table target_col : string) (step : TransformationStep)
  : list ColumnLineageEdge :=
  match detect_stored_procedure_call sql with
  | Some (schema, proc_name) =>
      [ {| source_dataset :=
             if truthy schema then schema +:+ "." +:+ proc_name else proc_name;
           source_column := "*";
           target_dataset := target_table;
           target_column := target_col;
           cle_transformation_type := STORED_PROCEDURE;
           transformation_expression :=
             Some (if truthy schema
                   then "CALL " +:+ schema +:+ "." +:+ proc_name
                   else "CALL " +:+ proc_name);
           confidence_score := 1;
           cle_step_order := step_order step |} ]
  | None =>
      let source_tables :=
        map (fun entry : string * SourceDefinition =>
               (fst entry, sd_fields (snd entry))) (sources folder) in
      flat_map (result_edges folder target_table target_col step)
               (parse_sql parse_one sql source_tables)
  end.
End SqlLineage.

(** [LineageBuilder._build_stored_proc_lineage] *)
Definition _build_stored_proc_lineage (trans : option TransformationInfo)
    (target_table target_col : string) (step : TransformationStep)
  : list ColumnLineageEdge :=
  match trans with
  | Some t =>
      match stored_proc_name t with
      | Some proc_name =>
          if truthy proc_name then
            let schema := default "" (stored_proc_schema t) in
            [ {| source_dataset :=
                   if truthy schema then schema +:+ "." +:+ proc_name
                   else proc_name;
                 source_column := "*";
                 target_dataset := target_table;
                 target_column := target_col;
                 cle_transformation_type := STORED_PROCEDURE;
                 transformation_expression :=
                   Some (if truthy schema
                         then "EXEC " +:+ schema +:+ "." +:+ proc_name
                         else "EXEC " +:+ proc_name);
                 confidence_score := 1;
                 cle_step_order := step_order step |} ]
          else []
      | None => []
      end
  | None => []
  end.

(** [LineageBuilder._find_source_for_instance]: the loop
    [while queue: ... queue.pop(0)]; [fuel] bounds its iterations and the
    outer [None] is "out of fuel". *)
Fixpoint find_source_loop (fuel : nat) (folder : FolderInfo)
    (mapping : MappingInfo) (queue : list (string * string))
    (visited : gset string) : option (option (string * string)) :=
  match fuel with
  | O => None
  | S fuel' =>
      match queue with
      | [] => Some None
      | (current_inst, current_field) :: queue =>
          let key := visit_key current_inst current_field in
          if decide (key ∈ visited)
          then find_source_loop fuel' folder mapping queue visited
          else
            let visited := {[key]} ∪ visited in
            match dict_get current_inst (instances mapping) with
            | None => find_source_loop fuel' folder mapping queue visited
            | Some instance =>
                let found :=
                  match transformation_type instance with
                  | SOURCE_DEFINITION =>
                      match dict_get (transformation_name instance)
                              (sources folder) with
                      | Some source_def =>
                          Some (_build_source_dataset_name source_def,
                                current_field)
                      | None => None
                      end
                  | _ => None
                  end in
                match found with
                | Some r => Some (Some r)
                | None =>
                    find_source_loop fuel' folder mapping
                      (queue ++ map from_pair
                                  (List.filter
                                     (connects_to current_inst current_field)
                                     (connectors mapping)))
                      visited
                end
            end
      end
  end.

Definition _find_source_for_instance (fuel : nat) (folder : FolderInfo)
    (mapping : MappingInfo) (instance_name field_name : string)
  : option (option (string * string)) :=
  find_source_loop fuel folder mapping [(instance_name, field_name)] ∅.

(** An edge built from an explicit connector; [confidence_score] is left
    at the default of the dataclass, [1.0]. *)
Definition connector_edge (source_ds source_col : string)
    (target_def : TargetDefinition) (target_col : string)
    (step : TransformationStep) : ColumnLineageEdge :=
  {| source_dataset := source_ds;
     source_column := source_col;
     target_dataset := _build_target_dataset_name target_def;
     target_column := target_col;
     cle_transformation_type := ts_transformation_type step;
     transformation_expression := ts_expression step;
     confidence_score := 1;
     cle_step_order := step_order step |}.

(** The branch "standard transformations" of the loop over a chain. *)
Fixpoint standard_edges (fuel : nat) (folder : FolderInfo)
    (mapping : MappingInfo) (target_def : TargetDefinition)
    (target_col : string) (step : TransformationStep)
    (inputs : list (string * string)) : option (list ColumnLineageEdge) :=
  match inputs with
  | [] => Some []
  | (from_inst, from_fld) :: rest =>
      match _find_source_for_instance fuel folder mapping from_inst from_fld,
            standard_edges fuel folder mapping target_def target_col step rest with
      | Some (Some (source_ds, source_col)), Some edges =>
          Some (connector_edge source_ds source_col target_def target_col step
                :: edges)
      | Some None, Some edges => Some edges
      | _, _ => None
      end
  end.

(** Does the step go through the SQL parser: a Source Qualifier with a
    non-empty SQL override. *)
Definition sql_override (instance : InstanceInfo)
    (trans : option TransformationInfo) : option string :=
  match transformation_type instance, trans with
  | SOURCE_QUALIFIER, Some t =>
      match sql_query t with
      | Some sql => if truthy sql then Some sql else None
      | None => None
      end
  | _, _ => None
  end.

(** The body of [for step in chain] in
    [LineageBuilder.build_column_lineage_edges]. *)
Definition step_edges (parse_one : string -> option Parsed) (fuel : nat)
    (folder : FolderInfo) (mapping : MappingInfo)
    (target_def : TargetDefinition) (target_table target_col : string)
    (step : TransformationStep) : option (list ColumnLineageEdge) :=
  match dict_get (instance_name step) (instances mapping) with
  | None => Some []
  | Some instance =>
      let trans := _get_transformation folder mapping instance in
      match sql_override instance trans with
      | Some sql =>
          Some (_parse_sql_lineage parse_one folder sql target_table
                  target_col step)
      | None =>
          match transformation_type instance with
          | STORED_PROCEDURE =>
              Some (_build_stored_proc_lineage trans target_table target_col step)
          | SOURCE_DEFINITION =>
              match dict_get (transformation_name instance) (sources folder) with
              | Some source_def =>
                  Some (map (fun p : string * string =>
                               connector_edge
                                 (_build_source_dataset_name source_def)
                                 (snd p) target_def target_col step)
                            (input_fields step))
              | None => Some []
              end
          | _ =>
              standard_edges fuel folder mapping target_def target_col step
                (input_fields step)
          end
      end
  end.

(** *** [DataHubLineageEmitter]: fine-grained lineage *)

Record EmitterConfig : Type := {
  platform : string;
  platform_instance : option string;
  oracle_platform_instance : option string;
  env : string
}.

Record FineGrainedLineage : Type := {
  upstreams : list string;
  downstreams : list string;
  transformOperation : option string;
  confidenceScore : Q
}.

(** [min(...)] over a non-empty sequence: the first smallest element. *)
Definition py_min (first : Q) (rest : list Q) : Q :=
  fold_left (fun m x => if Qlt_le_dec x m then x else m) rest first.

(** [f"{edge.target_dataset}.{edge.target_column}"] *)
Definition target_key (edge : ColumnLineageEdge) : string :=
  target_dataset edge +:+ "." +:+ target_column edge.

(** One iteration of a grouping loop [if key not in d: d[key] = [];
    d[key].append(edge)]. *)
Definition group_edge (key : ColumnLineageEdge -> string)
    (groups : dict (list ColumnLineageEdge)) (edge : ColumnLineageEdge)
  : dict (list ColumnLineageEdge) :=
  let groups :=
    if dict_mem (key edge) groups then groups
    else dict_set (key edge) [] groups in
  dict_update (key edge) (fun l => l ++ [edge]) groups.

Definition same_key (key : ColumnLineageEdge -> string) (k : string)
    (e : ColumnLineageEdge) : bool :=
  String.eqb (key e) k.

Definition group_edges (key : ColumnLineageEdge -> string)
    (edges : list ColumnLineageEdge) : dict (list ColumnLineageEdge) :=
  fold_left (group_edge key) edges [].

Section Emitter.
(** The URN builders of the DataHub client library. *)
Variable make_schema_field_urn : string -> string -> string.
Variable make_dataset_urn : string -> string -> string -> string.
Variable cfg : EmitterConfig.

(** [DataHubLineageEmitter._build_dataset_urn] *)
Definition _build_dataset_urn (dataset_name : string) (is_source : bool)
  : string :=
  let instance :=
    if is_source then oracle_platform_instance cfg
    else platform_instance cfg in
  match instance with
  | Some i =>
      if truthy i
      then "urn:li:dataset:(urn:li:dataPlatform:" +:+ platform cfg +:+ ","
           +:+ i +:+ "." +:+ dataset_name +:+ "," +:+ env cfg +:+ ")"
      else make_dataset_urn (platform cfg) dataset_name (env cfg)
  | None => make_dataset_urn (platform cfg) dataset_name (env cfg)
  end.

(** The loop [for edge in edges] that collects the source datasets and
    the upstream field URNs of one group. *)
Definition collect_upstream (st : gset string * list string)
    (edge : ColumnLineageEdge) : gset string * list string :=
  let '(datasets, upstream_field_urns) := st in
  let source_urn := _build_dataset_urn (source_dataset edge) true in
  let datasets := {[source_urn]} ∪ datasets in
  if String.eqb (source_column edge) "*" then (datasets, upstream_field_urns)
  else
    let field_urn := make_schema_field_urn source_urn (source_column edge) in
    if str_in field_urn upstream_field_urns
    then (datasets, upstream_field_urns)
    else (datasets, upstream_field_urns ++ [field_urn]).

(** The upstream field URNs after one more edge, and after a list of
    edges: the second component of [collect_upstream]. *)
Definition next_field_urns (upstream_field_urns : list string)
    (edge : ColumnLineageEdge) : list string :=
  snd (collect_upstream (∅, upstream_field_urns) edge).

Definition upstream_urns (edges : list ColumnLineageEdge) : list string :=
  fold_left next_field_urns edges [].

(** The non-empty transformation expressions of a group. *)
Definition expressions_of (edges : list ColumnLineageEdge) : list string :=
  flat_map (fun e => match transformation_expression e with
                     | Some x => if truthy x then [x] else []
                     | None => []
                     end) edges.

(** [min(e.confidence_score for e in edges) if edges else 1.0] *)
Definition group_confidence (edges : list ColumnLineageEdge) : Q :=
  match edges with
  | [] => 1
  | e :: rest => py_min (confidence_score e) (map confidence_score rest)
  end.

(** What the fine-grained lineage [fgl] owes to the group [g] it was
    built for. *)
Definition built_from (fgl : FineGrainedLineage)
    (g : list ColumnLineageEdge) : Prop :=
  upstreams fgl = upstream_urns g /\ upstreams fgl <> [] /\
  confidenceScore fgl = group_confidence g.

(** One iteration of [for target_key, edges in edges_by_target.items()]
    in [_build_job_io]. *)
Definition job_io_group
    (st : gset string * gset string * list FineGrainedLineage)
    (entry : string * list ColumnLineageEdge)
  : gset string * gset string * list FineGrainedLineage :=
  let '(input_datasets, output_datasets, fine_grained) := st in
  let '(key, edges) := entry in
  let '(input_datasets, upstream_field_urns) :=
    fold_left collect_upstream edges (input_datasets, []) in
  let '(target_ds, target_column) :=
    match rsplit_dot key with
    | Some (a, b) => (a, b)
    | None => (key, key)
    end in
  let target_urn := _build_dataset_urn target_ds false in
  let output_datasets := {[target_urn]} ∪ output_datasets in
  let target_field_urn := make_schema_field_urn target_urn target_column in
  let expressions := expressions_of edges in
  let combined_expr :=
    match expressions with
    | [] => None
    | _ => Some (join " -> " expressions)
    end in
  let confidence := group_confidence edges in
  match upstream_field_urns with
  | [] => (input_datasets, output_datasets, fine_grained)
  | _ =>
      (input_datasets, output_datasets,
       fine_grained ++
       [ {| upstreams := upstream_field_urns;
            downstreams := [target_field_urn];
            transformOperation := combined_expr;
            confidenceScore := confidence |} ])
  end.

(** [DataHubLineageEmitter._build_job_io] *)
Definition _build_job_io (lineage_edges : list ColumnLineageEdge)
  : gset string * gset string * list FineGrainedLineage :=
  fold_left job_io_group (group_edges target_key lineage_edges) (∅, ∅, []).

(** [sorted(col_edges, key=lambda e: e.step_order, reverse=True)]: a
    stable sort, larger step orders first. *)
Fixpoint insert_by_step (e : ColumnLineageEdge)
    (sorted : list ColumnLineageEdge) : list ColumnLineageEdge :=
  match sorted with
  | [] => [e]
  | x :: rest =>
      if Z.ltb (cle_step_order x) (cle_step_order e)
      then e :: x :: rest
      else x :: insert_by_step e rest
  end.

Definition sorted_by_step (edges : list ColumnLineageEdge)
  : list ColumnLineageEdge :=
  fold_left (fun sorted e => insert_by_step e sorted) edges [].

(** [f"[{e.transformation_type.value}] {e.transformation_expression}"]
    for the edges that carry an expression. *)
Definition expr_parts (edges : list ColumnLineageEdge) : list string :=
  flat_map (fun e => match transformation_expression e with
                     | Some x =>
                         if truthy x
                         then ["[" +:+ type_value (cle_transformation_type e)
                               +:+ "] " +:+ x]
                         else []
                     | None => []
                     end) edges.

(** One iteration of [for target_col, col_edges in edges_by_col.items()]
    in [emit_dataset_lineage]. *)
Definition column_lineage (target_urn : string)
    (st : gset string * list FineGrainedLineage)
    (entry : string * list ColumnLineageEdge)
  : gset string * list FineGrainedLineage :=
  let '(upstream_datasets, fine_grained) := st in
  let '(target_col, col_edges) := entry in
  let '(upstream_datasets, upstream_fields) :=
    fold_left collect_upstream col_edges (upstream_datasets, []) in
  match upstream_fields with
  | [] => (upstream_datasets, fine_grained)
  | _ =>
      let parts := expr_parts (sorted_by_step col_edges) in
      let combined_expr :=
        match parts with
        | [] => None
        | _ => Some (join " → " parts)
        end in
      (upstream_datasets,
       fine_grained ++
       [ {| upstreams := upstream_fields;
            downstreams := [make_schema_field_urn target_urn target_col];
            transformOperation := combined_expr;
            confidenceScore := group_confidence col_edges |} ])
  end.

(** The [UpstreamLineage] aspect emitted for a target dataset:
    [entityUrn], the upstream datasets, [fineGrainedLineages]. *)
Definition LineageAspect : Type :=
  (string * gset string * list FineGrainedLineage)%type.

(** One iteration of [for target_dataset, edges in
    edges_by_target.items()] in [emit_dataset_lineage]. *)
Definition dataset_lineage (mcps : list LineageAspect)
    (entry : string * list ColumnLineageEdge) : list LineageAspect :=
  let target_urn := _build_dataset_urn (fst entry) false in
  let '(upstream_datasets, fine_grained) :=
    fold_left (column_lineage target_urn)
              (group_edges target_column (snd entry)) (∅, []) in
  if decide (upstream_datasets = ∅) then mcps
  else mcps ++ [(target_urn, upstream_datasets, fine_grained)].

(** [DataHubLineageEmitter.emit_dataset_lineage]: the aspects it
    appends to [self.mcps]. *)
Definition emit_dataset_lineage (lineage_edges : list ColumnLineageEdge)
  : list LineageAspect :=
  fold_left dataset_lineage (group_edges target_dataset lineage_edges) [].
End Emitter.

(** *** [DataHubLineageEmitter._get_transformation_order] *)

(** [d[k]] for a dict of sets; the keys read by the sequencer are always
    instance names, which are keys of [incoming] and [outgoing]. *)
Definition set_at (d : dict (gset string)) (k : string) : gset string :=
  default ∅ (dict_get k d).

(** [{name: set() for name in mapping.instances}] *)
Definition empty_sets (mapping : MappingInfo) : dict (gset string) :=
  map (fun name => (name, ∅)) (dict_keys (instances mapping)).

(** One iteration of the loop over [mapping.connectors]. *)
Definition add_dependency (mapping : MappingInfo)
    (st : dict (gset string) * dict (gset string)) (connector : ConnectorInfo)
  : dict (gset string) * dict (gset string) :=
  let '(incoming, outgoing) := st in
  if (dict_mem (from_instance connector) (instances mapping)
      && dict_mem (to_instance connector) (instances mapping))%bool
  then (dict_update (to_instance connector)
          (fun deps => {[from_instance connector]} ∪ deps) incoming,
        dict_update (from_instance connector)
          (fun deps => {[to_instance connector]} ∪ deps) outgoing)
  else (incoming, outgoing).

Definition dependency_sets (mapping : MappingInfo)
  : dict (gset string) * dict (gset string) :=
  fold_left (add_dependency mapping) (connectors mapping)
            (empty_sets mapping, empty_sets mapping).

(** [[name for name, deps in incoming.items() if not deps]] *)
Definition initial_no_incoming (incoming : dict (gset string)) : list string :=
  map fst (List.filter (fun kv => bool_decide (snd kv = ∅)) incoming).

(** The loop [for next_node in outgoing.get(node, []): ...] over the
    successors of [node], in the order in which the set is iterated. *)
Fixpoint release (node : string) (nexts : list string)
    (incoming : dict (gset string)) (no_incoming : list string)
  : dict (gset string) * list string :=
  match nexts with
  | [] => (incoming, no_incoming)
  | next_node :: rest =>
      let incoming := dict_update next_node (fun deps => deps ∖ {[node]}) incoming in
      let no_incoming :=
        if bool_decide (set_at incoming next_node = ∅)
        then no_incoming ++ [next_node] else no_incoming in
      release node rest incoming no_incoming
  end.

(** The loop [for name in mapping.instances: if name not in result:
    result.append(name)]. *)
Definition append_remaining (names : list string) (result : list string)
  : list string :=
  fold_left (fun result name =>
               if str_in name result then result else result ++ [name])
            names result.

Section TransformationOrder.
(** The order in which Python iterates over a set of strings is not
    specified (it depends on the hash seed); the sequencer is modelled
    for an arbitrary enumeration [set_iter]. *)
Variable set_iter : gset string -> list string.

(** [while no_incoming: node = no_incoming.pop(0); ...]; [fuel] bounds
    the number of iterations. *)
Fixpoint kahn_loop (fuel : nat) (outgoing incoming : dict (gset string))
    (no_incoming result : list string) : option (list string) :=
  match fuel with
  | O => None
  | S fuel' =>
      match no_incoming with
      | [] => Some result
      | node :: no_incoming =>
          let result := result ++ [node] in
          let '(incoming, no_incoming) :=
            release node (set_iter (set_at outgoing node))
                    incoming no_incoming in
          kahn_loop fuel' outgoing incoming no_incoming result
      end
  end.

Definition _get_transformation_order (fuel : nat) (mapping : MappingInfo)
  : option (list string) :=
  let '(incoming, outgoing) := dependency_sets mapping in
  let no_incoming := initial_no_incoming incoming in
  match kahn_loop fuel outgoing incoming no_incoming [] with
  | None => None
  | Some result =>
      Some (append_remaining (dict_keys (instances mapping)) result)
  end.
End TransformationOrder.

(** The connectors of [cs] that join two instances of the mapping. *)
Definition links (mapping : MappingInfo) (cs : list ConnectorInfo)
    (a b : string) : Prop :=
  a ∈ dict_keys (instances mapping) /\
  b ∈ dict_keys (instances mapping) /\
  exists c, c ∈ cs /\ from_instance c = a /\ to_instance c = b.

(** The dependency graph of the sequencer: a connector between two
    instances of the mapping. *)
Definition depends (mapping : MappingInfo) (a b : string) : Prop :=
  links mapping (connectors mapping) a b.

Definition acyclic (mapping : MappingInfo) : Prop :=
  forall x, ~ tc (depends mapping) x x.

(** [a] occurs in [l] at an earlier position than [b]. *)
Definition before (a b : string) (l : list string) : Prop :=
  exists l1 l2 l3, l = l1 ++ a :: l2 ++ b :: l3.

(** The invariant of the main loop of the sequencer: [inc0] is the
    dependency map before the loop, [inc] the current one, [queue] the
    list [no_incoming] and [result] the nodes emitted so far. *)
Definition kahn_inv (mapping : MappingInfo) (inc0 inc : dict (gset string))
    (queue result : list string) : Prop :=
  dict_keys inc = dict_keys (instances mapping) /\
  (forall x, set_at inc x = set_at inc0 x ∖ list_to_set result) /\
  NoDup (result ++ queue) /\
  (forall x, x ∈ result ++ queue <->
             x ∈ dict_keys (instances mapping) /\ set_at inc x = ∅) /\
  (forall a x, x ∈ result -> depends mapping a x -> before a x result).

(** The names of [names] that are not in [result], in the order of
    [names]. *)
Definition residual (names result : list string) : list string :=
  List.filter (fun name => negb (str_in name result)) names.

End Infa.

(* ===================================================================== *)
(** * Informatica: scenarios *)
(* ===================================================================== *)

Module InfaScenarios.
Import Py Infa.

Definition mk_connector (fi ff ti tf : string) : ConnectorInfo :=
  {| from_instance := fi; from_instance_type := ""; from_field := ff;
     to_instance := ti; to_instance_type := ""; to_field := tf |}.

Definition mk_instance (n : string) (t : TransformationType)
  : string * InstanceInfo :=
  (n, {| in_name := n; transformation_name := n; transformation_type := t |}).

Definition empty_folder : FolderInfo :=
  {| fo_name := "F"; sources := []; targets := []; fo_transformations := [] |}.

(** A Source Definition instance that is itself the end of a connector. *)
Definition fed_source : MappingInfo :=
  {| mp_name := "m_fed_source";
     instances := [mk_instance "SRC" SOURCE_DEFINITION;
                   mk_instance "X" EXPRESSION];
     connectors := [mk_connector "X" "f" "SRC" "g"];
     mp_transformations := [] |}.

(** Source -> Expression -> Target, one field each. *)
Definition straight : MappingInfo :=
  {| mp_name := "m_straight";
     instances := [mk_instance "SRC" SOURCE_DEFINITION;
                   mk_instance "EXP" EXPRESSION;
                   mk_instance "TGT" TARGET_DEFINITION];
     connectors := [mk_connector "SRC" "a" "EXP" "b";
                    mk_connector "EXP" "b" "TGT" "c"];
     mp_transformations := [] |}.

(** The three-node cycle A -> B -> C -> A. *)
Definition cycle3 : MappingInfo :=
  {| mp_name := "m_cycle";
     instances := [mk_instance "A" EXPRESSION; mk_instance "B" EXPRESSION;
                   mk_instance "C" EXPRESSION];
     connectors := [mk_connector "A" "x" "B" "x";
                    mk_connector "B" "x" "C" "x";
                    mk_connector "C" "x" "A" "x"];
     mp_transformations := [] |}.

(** A rank that increases along the connectors of [straight]. *)
Definition straight_rank (name : string) : nat :=
  if String.eqb name "SRC" then 0
  else if String.eqb name "EXP" then 1 else 2.

(** A step of a Source Qualifier instance. *)
Definition some_step : TransformationStep :=
  {| step_order := 2; instance_name := "SQ"; ts_transformation_type := SOURCE_QUALIFIER;
     input_fields := []; output_fields := [("SQ", "KEY")]; ts_expression := None |}.

Definition mk_field (n : string) : string * FieldInfo :=
  (n, {| fi_name := n; fi_datatype := "string"; fi_port_type := None;
         fi_expression := None |}).

Definition mk_source (n : string) (fields : list string)
  : string * SourceDefinition :=
  (n, {| sd_name := n; sd_owner_name := None;
         sd_fields := map mk_field fields |}).

(** Two known tables that both have a column [ID]. *)
Definition two_sources : FolderInfo :=
  {| fo_name := "F";
     sources := [mk_source "A" ["ID"; "NAME"]; mk_source "B" ["ID"]];
     targets := []; fo_transformations := [] |}.

Definition two_tables : SourceTables :=
  map (fun entry : string * SourceDefinition =>
         (fst entry, sd_fields (snd entry))) (sources two_sources).

(** What sqlglot makes of [SELECT ID FROM A]. *)
Definition select_id_from_a : Parsed :=
  PSelect [ {| tbl_name := "A"; tbl_alias := "" |} ]
          [ {| sel_kind := IsColumn "ID";
               sel_columns := [ {| col_name := "ID"; col_table := "" |} ];
               sel_sql := "ID" |} ].

(** Scenario 1 of the specification: customers and their order count. *)
Definition orders_sql : string :=
  "SELECT c.CUSTOMER_ID, COUNT(o.ORDER_ID) AS ORDER_COUNT FROM CUSTOMERS c LEFT JOIN ORDERS o ON c.CUSTOMER_ID = o.CUSTOMER_ID GROUP BY c.CUSTOMER_ID".

(** What sqlglot makes of [orders_sql]. *)
Definition orders_parsed : Parsed :=
  PSelect [ {| tbl_name := "CUSTOMERS"; tbl_alias := "c" |};
            {| tbl_name := "ORDERS"; tbl_alias := "o" |} ]
          [ {| sel_kind := IsColumn "CUSTOMER_ID";
               sel_columns := [ {| col_name := "CUSTOMER_ID"; col_table := "c" |} ];
               sel_sql := "c.CUSTOMER_ID" |};
            {| sel_kind := IsAlias "ORDER_COUNT";
               sel_columns := [ {| col_name := "ORDER_ID"; col_table := "o" |} ];
               sel_sql := "COUNT(o.ORDER_ID) AS ORDER_COUNT" |} ].

Definition parse_orders (sql : string) : option Parsed :=
  if String.eqb sql orders_sql then Some orders_parsed else None.

Definition orders_folder : FolderInfo :=
  {| fo_name := "SALES";
     sources := [mk_source "CUSTOMERS" ["CUSTOMER_ID"];
                 mk_source "ORDERS" ["ORDER_ID"; "CUSTOMER_ID"]];
     targets := [("TGT", {| td_name := "TGT"; td_owner_name := None;
                            td_fields := [mk_field "ORDER_COUNT"] |})];
     fo_transformations :=
       [("SQ", {| tr_name := "SQ"; tr_type := SOURCE_QUALIFIER;
                  tr_fields := [mk_field "CUSTOMER_ID"; mk_field "ORDER_COUNT"];
                  sql_query := Some orders_sql;
                  stored_proc_name := None; stored_proc_schema := None |})] |}.

Definition orders_mapping : MappingInfo :=
  {| mp_name := "m_orders";
     instances := [("SRC_C", {| in_name := "SRC_C";
                                transformation_name := "CUSTOMERS";
                                transformation_type := SOURCE_DEFINITION |});
                   mk_instance "SQ" SOURCE_QUALIFIER;
                   mk_instance "TGT" TARGET_DEFINITION];
     connectors := [mk_connector "SRC_C" "CUSTOMER_ID" "SQ" "CUSTOMER_ID";
                    mk_connector "SQ" "ORDER_COUNT" "TGT" "ORDER_COUNT"];
     mp_transformations := [] |}.

Definition orders_target : TargetDefinition :=
  {| td_name := "TGT"; td_owner_name := None;
     td_fields := [mk_field "ORDER_COUNT"] |}.

Definition orders_step : TransformationStep :=
  {| step_order := 1; instance_name := "SQ";
     ts_transformation_type := SOURCE_QUALIFIER;
     input_fields := []; output_fields := [("SQ", "ORDER_COUNT")];
     ts_expression := None |}.

(** URN builders in the format of the DataHub client, an emitter without
    platform instances, and a group of two edges into the same target
    column: a wildcard edge of a procedure call and a projection edge. *)
Definition urn_field (parent field : string) : string :=
  "urn:li:schemaField:(" +:+ parent +:+ "," +:+ field +:+ ")".

Definition urn_dataset (platform name env : string) : string :=
  "urn:li:dataset:(urn:li:dataPlatform:" +:+ platform +:+ "," +:+ name
  +:+ "," +:+ env +:+ ")".

Definition plain_config : EmitterConfig :=
  {| platform := "oracle"; platform_instance := None;
     oracle_platform_instance := None; env := "PROD" |}.

Definition mixed_edges : list ColumnLineageEdge :=
  [ {| source_dataset := "PKG.GET_KEY"; source_column := "*";
       target_dataset := "TGT"; target_column := "ORDER_COUNT";
       cle_transformation_type := STORED_PROCEDURE;
       transformation_expression := Some "CALL PKG.GET_KEY";
       confidence_score := 1; cle_step_order := 2 |};
    {| source_dataset := "ORDERS"; source_column := "ORDER_ID";
       target_dataset := "TGT"; target_column := "ORDER_COUNT";
       cle_transformation_type := SOURCE_QUALIFIER;
       transformation_expression := Some "COUNT(o.ORDER_ID) AS ORDER_COUNT";
       confidence_score := sql_confidence; cle_step_order := 1 |} ].

(** The output column of the [i]-th projection: its alias, its column
    name, or [f"expr_{i}"]. *)
Definition output_column (i : nat) (select_expr : SelectExpr) : string :=
  match sel_kind select_expr with
  | IsAlias alias => alias
  | IsColumn name => name
  | _ => "expr_" +:+ pretty i
  end.

(** One known table that lists the same column twice, up to case. *)
Definition case_twins : SourceTables :=
  [("T", [mk_field "id"; mk_field "ID"])].

(** What sqlglot makes of [SELECT ID FROM A, B]. *)
Definition select_id_from_a_b : Parsed :=
  PSelect [ {| tbl_name := "A"; tbl_alias := "" |};
            {| tbl_name := "B"; tbl_alias := "" |} ]
          [ {| sel_kind := IsColumn "ID";
               sel_columns := [ {| col_name := "ID"; col_table := "" |} ];
               sel_sql := "ID" |} ].

(** The projection edge of [mixed_edges]. *)
Definition count_edge : ColumnLineageEdge :=
  {| source_dataset := "ORDERS"; source_column := "ORDER_ID";
     target_dataset := "TGT"; target_column := "ORDER_COUNT";
     cle_transformation_type := SOURCE_QUALIFIER;
     transformation_expression := Some "COUNT(o.ORDER_ID) AS ORDER_COUNT";
     confidence_score := sql_confidence; cle_step_order := 1 |}.

(** The reading of "an unqualified column resolves to the single known
    table containing it, and is excluded otherwise". *)
Definition resolves_by_field_sets : Prop :=
  forall source_refs source_tables col,
    col_table col = "" ->
    resolve_column source_refs source_tables col =
    match holders (col_name col) source_tables with
    | [table_name] => Some table_name
    | _ => None
    end.

(** The same instance under another kind, the same mapping with the kind
    [kinds] gives to each instance name, and a step with the kind of its
    instance replaced: what a tracer that does not look at the kind
    cannot tell apart. *)
Definition with_kind (kind : TransformationType) (instance : InstanceInfo)
  : InstanceInfo :=
  {| in_name := in_name instance;
     transformation_name := transformation_name instance;
     transformation_type := kind |}.

Definition with_kinds (kinds : string -> TransformationType)
    (mapping : MappingInfo) : MappingInfo :=
  {| mp_name := mp_name mapping;
     instances :=
       map (fun entry => (fst entry, with_kind (kinds (fst entry)) (snd entry)))
           (instances mapping);
     connectors := connectors mapping;
     mp_transformations := mp_transformations mapping |}.

Definition step_with_kinds (kinds : string -> TransformationType)
    (s : TransformationStep) : TransformationStep :=
  {| step_order := step_order s;
     instance_name := instance_name s;
     ts_transformation_type := kinds (instance_name s);
     input_fields := input_fields s;
     output_fields := output_fields s;
     ts_expression := ts_expression s |}.

(** The reading of "a Source node is a root of the trace": a trace that
    starts at a Source Definition instance records steps of that instance
    only. *)
Definition source_is_root : Prop :=
  forall folder mapping fuel ti tf info steps visited,
    dict_get ti (instances mapping) = Some info ->
    transformation_type info = SOURCE_DEFINITION ->
    _trace_field_lineage fuel folder mapping ti tf
      (_build_instance_graph mapping) ∅ 0 = Some (steps, visited) ->
    forall s, s ∈ steps -> instance_name s = ti.

(** The reading of "inserting the same edge twice has no effect". *)
Definition insertion_idempotent : Prop :=
  forall (g : InstanceGraph) c ti tf,
    graph_get (add_connector (add_connector g c) c) ti tf =
    graph_get (add_connector g c) ti tf.

End InfaScenarios.

(* ===================================================================== *)
(** * Essbase: calculation scripts and consolidation lineage *)
(* ===================================================================== *)

Module Essbase.
Import Py Regex.

(** The quote characters, which a string literal cannot hold. *)
Definition dquote : ascii := ascii_of_nat 34.
Definition squote : ascii := ascii_of_nat 39.
Definition newline : ascii := ascii_of_nat 10.

(** A FIX context: dimension name to member names. *)
Abbreviation FixContext := (dict (list string)).

(** *** [CalcScriptParser.PATTERNS] *)

(** [FIX\s*\(([^)]+)\)], ignoring case. *)
Definition fix_start : re :=
  seq [lit_nocase "FIX"; Star (Chr is_space); Chr (is_char "(");
       Group 1 (plus (Chr (none_of [")"%char]))); Chr (is_char ")")].

(** [ENDFIX\s*;?], ignoring case. *)
Definition fix_end : re :=
  seq [lit_nocase "ENDFIX"; Star (Chr is_space); opt (Chr (is_char ";"))].

Definition is_quote (c : ascii) : bool :=
  (Ascii.eqb c dquote || Ascii.eqb c squote)%bool.

(** The class of [dim_member]'s third group: any character but a quote,
    white space, a comma or a semicolon. *)
Definition member_char (c : ascii) : bool :=
  negb (is_quote c || is_space c || Ascii.eqb c "," || Ascii.eqb c ";")%bool.

(** [(\w+)->(Q?)(M+)\2], where [Q] is a quote character and [M] a member
    character: a dimension, an arrow and a member, the member optionally
    between two quotes of the same kind. *)
Definition dim_member : re :=
  seq [Group 1 (plus (Chr is_word)); lit "->"; Group 2 (opt (Chr is_quote));
       Group 3 (plus (Chr member_char)); Backref 2].

(** [->\s*\(([^)]+)\)] *)
Definition cross_dim : re :=
  seq [lit "->"; Star (Chr is_space); Chr (is_char "(");
       Group 1 (plus (Chr (none_of [")"%char]))); Chr (is_char ")")].

(** A member name between double quotes (group 1), between single quotes
    (group 2) or between square brackets (group 3). *)
Definition member_ref : re :=
  Alt (seq [Chr (is_char dquote); Group 1 (plus (Chr (none_of [dquote])));
            Chr (is_char dquote)])
      (Alt (seq [Chr (is_char squote); Group 2 (plus (Chr (none_of [squote])));
                 Chr (is_char squote)])
           (seq [Chr (is_char "["); Group 3 (plus (Chr (none_of ["]"%char])));
                 Chr (is_char "]")])).

(** [match.group(n)], with [None] read as the empty string. *)
Definition group_text (n : nat) (caps : captures) : string :=
  default "" (group n caps).

(** [match.group(1) or match.group(2) or match.group(3)] *)
Definition quoted_member (caps : captures) : string :=
  if truthy (group_text 1 caps) then group_text 1 caps
  else if truthy (group_text 2 caps) then group_text 2 caps
  else group_text 3 caps.

(** [s.strip()] *)
Fixpoint lstrip (s : string) : string :=
  match s with
  | String c s' => if is_space c then lstrip s' else s
  | EmptyString => EmptyString
  end.

Fixpoint rstrip (s : string) : string :=
  match s with
  | String c s' =>
      match rstrip s' with
      | EmptyString => if is_space c then EmptyString else String c EmptyString
      | rest => String c rest
      end
  | EmptyString => EmptyString
  end.

Definition strip (s : string) : string := rstrip (lstrip s).

(** [if k not in d: d[k] = []; d[k].append(x)] *)
Definition dict_append (k x : string) (d : FixContext) : FixContext :=
  let d := if dict_mem k d then d else dict_set k [] d in
  dict_update k (fun l => l ++ [x]) d.

(** The loop over [PATTERNS["dim_member"].finditer(text)] that files each
    member under its dimension. *)
Definition add_dim_members (members_by_dim : FixContext) (text : string)
  : FixContext :=
  fold_left
    (fun d m => dict_append (group_text 1 (snd m)) (group_text 3 (snd m)) d)
    (finditer dim_member text) members_by_dim.

(** [CalcScriptParser._parse_fix_members] *)
Definition _parse_fix_members (fix_content : string) : FixContext :=
  let members_by_dim := add_dim_members [] fix_content in
  let members_by_dim :=
    fold_left (fun d m => add_dim_members d (group_text 1 (snd m)))
              (finditer cross_dim fix_content) members_by_dim in
  let bare_members :=
    fold_left
      (fun bare m =>
         let member := quoted_member (snd m) in
         if (truthy member
             && negb (existsb (str_in member) (dict_values members_by_dim)))%bool
         then bare ++ [member] else bare)
      (finditer member_ref fix_content) [] in
  match bare_members with
  | [] => members_by_dim
  | _ => dict_set "_unresolved_" bare_members members_by_dim
  end.

(** [merged[dim].extend(m for m in members if m not in merged[dim])]: the
    generator is consumed while the list grows, so a member repeated in
    [members] is added once. *)
Definition extend_new (acc members : list string) : list string :=
  fold_left (fun acc m => if str_in m acc then acc else acc ++ [m]) members acc.

(** The body of [for fix_ctx in fix_stack]. *)
Definition merge_context (merged fix_ctx : FixContext) : FixContext :=
  fold_left
    (fun merged entry =>
       let merged :=
         if dict_mem (fst entry) merged then merged
         else dict_set (fst entry) [] merged in
       dict_update (fst entry) (fun l => extend_new l (snd entry)) merged)
    fix_ctx merged.

(** [CalcScriptParser._merge_fix_contexts] *)
Definition _merge_fix_contexts (fix_stack : list FixContext) : FixContext :=
  fold_left merge_context fix_stack [].

(** [d.get(dim, [])] *)
Definition members_at (d : FixContext) (dim : string) : list string :=
  default [] (dict_get dim d).

Section ScriptBody.
(** The recognisers of the individual operations, [_parse_operation] and
    [_extract_member_references], are parameters of the loop: what the loop
    does with the FIX stack does not depend on them. *)
Variable CalcTransform : Type.
Variable References : Type.
Variable _parse_operation :
  string -> nat -> option FixContext -> option CalcTransform.
Variable _extract_member_references : string -> References -> References.

(** The local variables of [_parse_script_body]; the top of [fix_stack] is
    its last element. *)
Record BodyState : Type := {
  fix_stack : list FixContext;
  transforms : list CalcTransform;
  referenced_members : References;
  line_num : nat
}.

(** One iteration of [for line in lines]. *)
Definition parse_line (st : BodyState) (line : string) : BodyState :=
  let line_num := S (line_num st) in
  let stripped := strip line in
  if (negb (truthy stripped) || startswith "/*" stripped
      || startswith "//" stripped)%bool
  then {| fix_stack := fix_stack st; transforms := transforms st;
          referenced_members := referenced_members st; line_num := line_num |}
  else
    match search fix_start stripped with
    | Some (_, _, caps) =>
        {| fix_stack := fix_stack st ++ [_parse_fix_members (group_text 1 caps)];
           transforms := transforms st;
           referenced_members := referenced_members st;
           line_num := line_num |}
    | None =>
        match match_at fix_end stripped with
        | Some _ =>
            {| fix_stack :=
                 match fix_stack st with
                 | [] => []
                 | _ => removelast (fix_stack st)
                 end;
               transforms := transforms st;
               referenced_members := referenced_members st;
               line_num := line_num |}
        | None =>
            let current_fix :=
              match fix_stack st with
              | [] => None
              | _ => Some (_merge_fix_contexts (fix_stack st))
              end in
            {| fix_stack := fix_stack st;
               transforms :=
                 match _parse_operation stripped line_num current_fix with
                 | Some transform => transforms st ++ [transform]
                 | None => transforms st
                 end;
               referenced_members :=
                 _extract_member_references stripped (referenced_members st);
               line_num := line_num |}
        end
    end.

Definition parse_lines (st : BodyState) (lines : list string) : BodyState :=
  fold_left parse_line lines st.

(** [CalcScriptParser._parse_script_body] *)
Definition _parse_script_body (content : string) (no_references : References)
  : list CalcTransform * References :=
  let st :=
    parse_lines {| fix_stack := []; transforms := [];
                   referenced_members := no_references; line_num := 0 |}
                (split_on newline content) in
  (transforms st, referenced_members st).
End ScriptBody.

Arguments fix_stack {CalcTransform References} _.
Arguments transforms {CalcTransform References} _.
Arguments referenced_members {CalcTransform References} _.
Arguments line_num {CalcTransform References} _.

(** *** [LineageExtractor]: consolidation lineage *)

Inductive MemberConsolidation : Type :=
| ADDITION | SUBTRACTION | MULTIPLICATION | DIVISION | PERCENT | IGNORE | NEVER.

(** [MemberConsolidation.value] *)
Definition consolidation_value (c : MemberConsolidation) : string :=
  match c with
  | ADDITION => "+"
  | SUBTRACTION => "-"
  | MULTIPLICATION => "*"
  | DIVISION => "/"
  | PERCENT => "%"
  | IGNORE => "~"
  | NEVER => "^"
  end.

Record EssbaseMember : Type := {
  name : string;
  parent : option string;
  children : list string;
  consolidation : MemberConsolidation;
  formula : option string
}.

Record EssbaseDimension : Type := {
  dim_name : string;
  members : list EssbaseMember
}.

Record EssbaseCube : Type := {
  cube_name : string;
  application : string;
  dimensions : list EssbaseDimension
}.

Record ColumnLineageMapping : Type := {
  source_dataset : string;
  source_field : string;
  target_dataset : string;
  target_field : string;
  transformation_type : option string;
  transformation_expression : option string;
  confidence : Q;
  aggregation_function : option string;
  filter_expression : option string
}.

(** [LineageExtractor._consolidation_to_transform] *)
Definition _consolidation_to_transform (operator : string) : string :=
  if String.eqb operator "+" then "SUM"
  else if String.eqb operator "-" then "SUBTRACT"
  else if String.eqb operator "*" then "MULTIPLY"
  else if String.eqb operator "/" then "DIVIDE"
  else if String.eqb operator "%" then "PERCENT"
  else if String.eqb operator "~" then "IGNORE"
  else if String.eqb operator "^" then "NEVER_CONSOLIDATE"
  else "SUM".

(** [{m.name: m for m in dimension.members}] *)
Definition member_map (dimension : EssbaseDimension) : dict EssbaseMember :=
  fold_left (fun d m => dict_set (name m) m d) (members dimension) [].

(** The [ColumnLineageMapping] built for a child of a member. *)
Definition consolidation_mapping (dataset_name : string)
    (dimension : EssbaseDimension) (member : EssbaseMember)
    (child_name : string) (child : EssbaseMember) : ColumnLineageMapping :=
  {| source_dataset := dataset_name;
     source_field := dim_name dimension +:+ "." +:+ child_name;
     target_dataset := dataset_name;
     target_field := dim_name dimension +:+ "." +:+ name member;
     transformation_type := Some "consolidation";
     transformation_expression :=
       Some (consolidation_value (consolidation child) +:+ child_name);
     confidence := 1;
     aggregation_function :=
       Some (_consolidation_to_transform
               (consolidation_value (consolidation child)));
     filter_expression := None |}.

(** The loop [for child_name in member.children]. *)
Definition children_loop (dataset_name : string) (dimension : EssbaseDimension)
    (map_of_members : dict EssbaseMember) (member : EssbaseMember)
    (lineage_mappings : list ColumnLineageMapping)
  : list ColumnLineageMapping :=
  fold_left
    (fun mappings child_name =>
       match dict_get child_name map_of_members with
       | Some child =>
           mappings ++ [consolidation_mapping dataset_name dimension member
                          child_name child]
       | None => mappings
       end)
    (children member) lineage_mappings.

(** The loop [for member in dimension.members]. *)
Definition members_loop (dataset_name : string) (dimension : EssbaseDimension)
    (lineage_mappings : list ColumnLineageMapping)
  : list ColumnLineageMapping :=
  fold_left
    (fun mappings member =>
       match children member with
       | [] => mappings
       | _ => children_loop dataset_name dimension (member_map dimension)
                member mappings
       end)
    (members dimension) lineage_mappings.

(** [LineageExtractor.extract_consolidation_lineage] *)
Definition extract_consolidation_lineage (cube : EssbaseCube)
    (namespace : string) : list ColumnLineageMapping :=
  let dataset_name := application cube +:+ "." +:+ cube_name cube in
  fold_left (fun mappings dimension => members_loop dataset_name dimension mappings)
            (dimensions cube) [].

(** The member that [{m.name: m for m in dimension.members}] keeps under a
    name: of the members of that name, the last one listed. *)
Definition last_named (child_name : string) (dimension : EssbaseDimension)
  : option EssbaseMember :=
  List.find (fun m => String.eqb (name m) child_name)
            (rev (members dimension)).

(** The edge, if any, that a recorded child of a member gives rise to. *)
Definition child_edges (dataset_name : string) (dimension : EssbaseDimension)
    (member : EssbaseMember) (child_name : string)
  : list ColumnLineageMapping :=
  match dict_get child_name (member_map dimension) with
  | Some child =>
      [consolidation_mapping dataset_name dimension member child_name child]
  | None => []
  end.

End Essbase.

Module EssbaseScenarios.
Import Py Essbase.

(** The statements that fix Year to Jan and Market to East, and the lines of
    a script that opens the two scopes, closes them and closes once more. *)
Definition quoted (s : string) : string :=
  String dquote s +:+ String dquote EmptyString.

Definition fix_year : string := "FIX(Year->" +:+ quoted "Jan" +:+ ")".
Definition fix_market : string := "  FIX (Market->" +:+ quoted "East" +:+ ")".

Definition year_jan : FixContext := [("Year", ["Jan"])].
Definition market_east : FixContext := [("Market", ["East"])].

Definition nested_script : list string :=
  [fix_year; fix_market; "    CALC ALL;"; "  ENDFIX"; "  CALC ALL;"; "ENDFIX;";
   "ENDFIX"; "CALC ALL;"].

(** A recogniser that records the line, its number and the active context. *)
Definition Recorded : Type := (string * nat * option FixContext)%type.

Definition record_operation (line : string) (line_num : nat)
    (fix_context : option FixContext) : option Recorded :=
  Some (line, line_num, fix_context).

Definition no_references (line : string) (refs : unit) : unit := refs.

Definition initial_state : BodyState Recorded unit :=
  {| fix_stack := []; transforms := []; referenced_members := tt; line_num := 0 |}.

Definition mk_member (n : string) (kids : list string)
    (c : MemberConsolidation) : EssbaseMember :=
  {| name := n; parent := None; children := kids; consolidation := c;
     formula := None |}.

(** The parent [Total] with the child [Q1], consolidated with [+]. *)
Definition quarters : EssbaseCube :=
  {| cube_name := "Basic"; application := "Sample";
     dimensions :=
       [ {| dim_name := "Period";
            members := [mk_member "Total" ["Q1"] ADDITION;
                        mk_member "Q1" [] ADDITION] |} ] |}.

(** The parent [Total] records a child [Q1] that is not a member of the
    dimension. *)
Definition orphan_child : EssbaseCube :=
  {| cube_name := "Basic"; application := "Sample";
     dimensions :=
       [ {| dim_name := "Period";
            members := [mk_member "Total" ["Q1"] ADDITION] |} ] |}.

(** The dimension lists two members of the name [Q1], the first
    consolidated with [+], the second with [-]. *)
Definition shared_name : EssbaseCube :=
  {| cube_name := "Basic"; application := "Sample";
     dimensions :=
       [ {| dim_name := "Period";
            members := [mk_member "Total" ["Q1"] ADDITION;
                        mk_member "Q1" [] ADDITION;
                        mk_member "Q1" [] SUBTRACTION] |} ] |}.

(** The reading of "for each recorded child exactly one edge is emitted". *)
Definition every_child_yields_edge : Prop :=
  forall cube namespace dimension member child_name,
    dimension ∈ dimensions cube ->
    member ∈ members dimension ->
    child_name ∈ children member ->
    exists e,
      e ∈ extract_consolidation_lineage cube namespace /\
      source_field e = dim_name dimension +:+ "." +:+ child_name /\
      target_field e = dim_name dimension +:+ "." +:+ name member.

End EssbaseScenarios.

(* ===================================================================== *)
(** * Informatica: the search for the source of a field *)
(* ===================================================================== *)

(** What [LineageBuilder._find_source_for_instance] meets on its way: the
    vocabulary of the statements about the search. *)
Module InfaSearch.
Import Py Infa.

(** The dataset of the pair [p] when its instance is a Source Definition
    whose definition the folder holds: the test under "Found a source
    definition" in [_find_source_for_instance]. *)
Definition source_hit (folder : FolderInfo) (mapping : MappingInfo)
    (p : string * string) : option string :=
  match dict_get (fst p) (instances mapping) with
  | Some instance =>
      match transformation_type instance with
      | SOURCE_DEFINITION =>
          match dict_get (transformation_name instance) (sources folder) with
          | Some source_def => Some (_build_source_dataset_name source_def)
          | None => None
          end
      | _ => None
      end
  | None => None
  end.

(** [p'] is the source end of a connector that ends in [p], and the
    instance of [p] is one of the mapping: the pairs the search appends
    to its queue when it has taken [p] from it. *)
Definition explores (mapping : MappingInfo) (p p' : string * string) : Prop :=
  is_Some (dict_get (fst p) (instances mapping)) /\
  exists c, c ∈ connectors mapping /\
            connects_to (fst p) (snd p) c = true /\ from_pair c = p'.

(** The pairs the search can meet: the start and the source ends of the
    connectors. *)
Definition search_pairs (mapping : MappingInfo) (start : string * string)
  : list (string * string) :=
  start :: map from_pair (connectors mapping).

(** The invariant of the search: the visited pairs are no Source
    Definition of the folder, and what they lead to is queued or visited. *)
Definition search_inv (folder : FolderInfo) (mapping : MappingInfo)
    (start : string * string)
    (queue : list (string * string)) (visited : gset string) : Prop :=
  (start ∈ queue \/ pair_key start ∈ visited) /\
  (forall p, p ∈ queue -> p ∈ search_pairs mapping start) /\
  (forall p, p ∈ search_pairs mapping start -> pair_key p ∈ visited ->
             source_hit folder mapping p = None /\
             forall p', explores mapping p p' ->
                        p' ∈ queue \/ pair_key p' ∈ visited).

End InfaSearch.

(* ===================================================================== *)
(** * Informatica: type names, procedure references and the summary *)
(* ===================================================================== *)

Module InfaTypes.
Import Py Infa.

(** A string stands for a Python [str] of ASCII characters; on any other
    [str] the case mapping of [str.lower] is that of Unicode (the Kelvin
    sign lowers to [k]), which is not modelled. *)
Definition is_ascii_char (c : ascii) : bool :=
  Nat.ltb (nat_of_ascii c) 128.

Fixpoint is_ascii (s : string) : bool :=
  match s with
  | EmptyString => true
  | String c s' => (is_ascii_char c && is_ascii s')%bool
  end.

(** [str.lower], on a [str] of ASCII characters. *)
Fixpoint lower (s : string) : string :=
  match s with
  | EmptyString => EmptyString
  | String c s' => String (lower_ascii c) (lower s')
  end.

(** The members of the enumeration in the order of their definition: what
    [for member in cls] iterates over. *)
Definition members : list TransformationType :=
  [SOURCE_DEFINITION; SOURCE_QUALIFIER; TARGET_DEFINITION; EXPRESSION;
   FILTER; AGGREGATOR; JOINER; LOOKUP; ROUTER; SORTER; SEQUENCE_GENERATOR;
   NORMALIZER; RANK; UNION; UPDATE_STRATEGY; STORED_PROCEDURE;
   CUSTOM_TRANSFORMATION; UNKNOWN].

(** The loop of [from_string], with its fallback. *)
Fixpoint first_member (ms : list TransformationType) (value : string)
  : TransformationType :=
  match ms with
  | [] => UNKNOWN
  | member :: rest =>
      if String.eqb (lower (type_value member)) (lower value) then member
      else first_member rest value
  end.

(** [TransformationType.from_string], for a [value] of ASCII characters;
    [None] stands for a [value] outside of them, on which nothing is
    said. *)
Definition from_string (value : string) : option TransformationType :=
  if is_ascii value then Some (first_member members value) else None.

End InfaTypes.

Module InfaRefs.
Import Py Infa.

Section ProcedureRefs.
(** The URN builders of the DataHub client library. *)
Variable make_data_flow_urn : string -> string -> string -> string.
Variable make_data_job_urn_with_flow : string -> string -> string.
Variable make_dataset_urn : string -> string -> string -> string.
Variable cfg : EmitterConfig.

(** [DataHubLineageEmitter.build_stored_procedure_refs]; the result is
    [list(proc_refs)], a set in an unspecified order. *)
Definition build_stored_procedure_refs
    (lineage_edges : list ColumnLineageEdge) : gset string :=
  fold_left
    (fun proc_refs edge =>
       if TransformationType_eqb (cle_transformation_type edge) STORED_PROCEDURE
       then
         let proc_name := source_dataset edge in
         let flow_urn :=
           make_data_flow_urn "oracle" "stored_procedures" (env cfg) in
         let job_urn := make_data_job_urn_with_flow flow_urn proc_name in
         {[job_urn]} ∪ proc_refs
       else proc_refs)
    lineage_edges ∅.

(** [DataHubLineageEmitter.build_stored_procedure_dataset_refs] *)
Definition build_stored_procedure_dataset_refs
    (lineage_edges : list ColumnLineageEdge) : gset string :=
  fold_left
    (fun proc_refs edge =>
       if TransformationType_eqb (cle_transformation_type edge) STORED_PROCEDURE
       then
         let proc_name := source_dataset edge in
         let proc_urn := make_dataset_urn "oracle" proc_name (env cfg) in
         {[proc_urn]} ∪ proc_refs
       else proc_refs)
    lineage_edges ∅.
End ProcedureRefs.

End InfaRefs.

Module InfaSummary.
Import Py Infa.

(** The accumulators of [get_lineage_summary]. *)
Record Counters : Type := {
  edges_by_type : dict Z;
  source_set : gset string;
  target_set : gset string;
  proc_calls : gset string
}.

(** One iteration of [for edge in self.all_lineage_edges]. *)
Definition count_edge (st : Counters) (edge : ColumnLineageEdge) : Counters :=
  let type_name := type_value (cle_transformation_type edge) in
  {| edges_by_type :=
       dict_set type_name
         (default 0 (dict_get type_name (edges_by_type st)) + 1)
         (edges_by_type st);
     source_set := {[source_dataset edge]} ∪ source_set st;
     target_set := {[target_dataset edge]} ∪ target_set st;
     proc_calls :=
       if TransformationType_eqb (cle_transformation_type edge) STORED_PROCEDURE
       then {[source_dataset edge]} ∪ proc_calls st
       else proc_calls st |}.

(** The entries of the summary that are computed from the edges; the
    three counters of folders, workflows and mappings, which are lengths of
    [self.folders], are left out. *)
Record LineageSummary : Type := {
  total_edges : Z;
  edges_by_transformation_type : dict Z;
  source_datasets : Z;
  target_datasets : Z;
  stored_procedure_calls : gset string
}.

(** [InformaticaLineageExtractor.get_lineage_summary] *)
Definition get_lineage_summary (all_lineage_edges : list ColumnLineageEdge)
  : LineageSummary :=
  let st :=
    fold_left count_edge all_lineage_edges
      {| edges_by_type := []; source_set := ∅; target_set := ∅;
         proc_calls := ∅ |} in
  {| total_edges := Z.of_nat (length all_lineage_edges);
     edges_by_transformation_type := edges_by_type st;
     source_datasets := Z.of_nat (size (source_set st));
     target_datasets := Z.of_nat (size (target_set st));
     stored_procedure_calls := proc_calls st |}.

(** [sum(d.values())] *)
Definition sum_values (d : dict Z) : Z := fold_right Z.add 0 (dict_values d).

(** The edges of a given transformation type name. *)
Definition of_type (type_name : string) (edges : list ColumnLineageEdge)
  : list ColumnLineageEdge :=
  List.filter
    (fun e => String.eqb (type_value (cle_transformation_type e)) type_name)
    edges.

End InfaSummary.

(* ===================================================================== *)
(** * Informatica: target keys *)
(* ===================================================================== *)

Module InfaKeys.
Import Py Infa.

(** ["." in s] *)
Fixpoint has_dot (s : string) : bool :=
  match s with
  | EmptyString => false
  | String c s' => (Ascii.eqb c "." || has_dot s')%bool
  end.

(** [target_parts[0]] and [target_parts[1] if len(target_parts) > 1 else
    target_parts[0]], for [target_parts = target_key.rsplit(".", 1)]: the
    dataset and the column that [_build_job_io] reads back from the key of
    a group. *)
Definition target_parts (target_key : string) : string * string :=
  match rsplit_dot target_key with
  | Some (a, b) => (a, b)
  | None => (target_key, target_key)
  end.

End InfaKeys.

(* ===================================================================== *)
(** * Informatica: from a mapping to its lineage edges *)
(* ===================================================================== *)

Module InfaBuilder.
Import Py Infa.

(** What a call comes to: a value, an exception, or, in the model only,
    the end of the fuel. *)
Inductive Outcome (A : Type) : Type :=
| Returns (a : A)
| Raises (exception : string)
| OutOfFuel.

Arguments Returns {A} a.
Arguments Raises {A} exception.
Arguments OutOfFuel {A}.

(** [s.split(".", 1)] when it yields two parts: the split at the first
    dot; [None] when there is no dot and the result has one part. *)
Fixpoint split_dot (s : string) : option (string * string) :=
  match s with
  | EmptyString => None
  | String c s' =>
      if Ascii.eqb c "." then Some (EmptyString, s')
      else match split_dot s' with
           | Some (a, b) => Some (String c a, b)
           | None => None
           end
  end.

(** [[inst for inst in mapping.instances.values() if inst.transformation_type
    == TransformationType.TARGET_DEFINITION]] *)
Definition target_instances (mapping : MappingInfo) : list InstanceInfo :=
  List.filter
    (fun inst => TransformationType_eqb (transformation_type inst) TARGET_DEFINITION)
    (dict_values (instances mapping)).

(** The loop [for field_name in target_def.fields.keys()] of
    [build_mapping_lineage]; every trace starts with a fresh visited set
    and at step order 0.  The tracer is a recursive function, and the
    interpreter raises [RecursionError] when calls nest too deep (1000
    frames unless the limit was changed).  [limit] stands for that bound
    as the tracer meets it: the number of its calls that may nest, a
    deeper call being refused on entry.  How many frames that is depends
    on the frames in use at the call and on the interpreter's count of
    the helper calls made at each level, which the model leaves to the
    choice of [limit].  Nothing catches the exception. *)
Fixpoint fields_loop (limit : nat) (folder : FolderInfo) (mapping : MappingInfo)
    (instance_graph : InstanceGraph) (target_inst : InstanceInfo)
    (target_name : string) (field_names : list string)
    (lineage_chains : dict (list TransformationStep))
  : Outcome (dict (list TransformationStep)) :=
  match field_names with
  | [] => Returns lineage_chains
  | field_name :: rest =>
      let field_key := target_name +:+ "." +:+ field_name in
      match _trace_field_lineage limit folder mapping (in_name target_inst)
              field_name instance_graph ∅ 0 with
      | None => Raises "RecursionError"
      | Some (chain, _) =>
          fields_loop limit folder mapping instance_graph target_inst
            target_name rest
            (match chain with
             | [] => lineage_chains
             | _ => dict_set field_key chain lineage_chains
             end)
      end
  end.

(** The loop [for target_inst in target_instances]. *)
Fixpoint targets_loop (limit : nat) (folder : FolderInfo) (mapping : MappingInfo)
    (instance_graph : InstanceGraph) (target_insts : list InstanceInfo)
    (lineage_chains : dict (list TransformationStep))
  : Outcome (dict (list TransformationStep)) :=
  match target_insts with
  | [] => Returns lineage_chains
  | target_inst :: rest =>
      let target_name := transformation_name target_inst in
      match dict_get target_name (targets folder) with
      | None =>
          targets_loop limit folder mapping instance_graph rest lineage_chains
      | Some target_def =>
          match fields_loop limit folder mapping instance_graph target_inst
                  target_name (dict_keys (td_fields target_def))
                  lineage_chains with
          | Returns lineage_chains =>
              targets_loop limit folder mapping instance_graph rest
                lineage_chains
          | Raises exception => Raises exception
          | OutOfFuel => OutOfFuel
          end
      end
  end.

(** [LineageBuilder.build_mapping_lineage] *)
Definition build_mapping_lineage (limit : nat) (folder : FolderInfo)
    (mapping : MappingInfo) : Outcome (dict (list TransformationStep)) :=
  let instance_graph := _build_instance_graph mapping in
  targets_loop limit folder mapping instance_graph (target_instances mapping) [].

(** The loop [for step in chain] of [build_column_lineage_edges]. *)
Fixpoint chain_edges (parse_one : string -> option Parsed) (fuel : nat)
    (folder : FolderInfo) (mapping : MappingInfo)
    (target_def : TargetDefinition) (target_table target_col : string)
    (chain : list TransformationStep) : option (list ColumnLineageEdge) :=
  match chain with
  | [] => Some []
  | step :: rest =>
      match step_edges parse_one fuel folder mapping target_def target_table
              target_col step,
            chain_edges parse_one fuel folder mapping target_def target_table
              target_col rest with
      | Some step_es, Some rest_es => Some (step_es ++ rest_es)
      | _, _ => None
      end
  end.

(** The loop [for target_field_key, chain in lineage_chains.items()];
    unpacking the split of a key without a dot raises [ValueError]. *)
Fixpoint chains_loop (parse_one : string -> option Parsed) (fuel : nat)
    (folder : FolderInfo) (mapping : MappingInfo)
    (items : list (string * list TransformationStep))
    (edges : list ColumnLineageEdge) : Outcome (list ColumnLineageEdge) :=
  match items with
  | [] => Returns edges
  | (target_field_key, chain) :: rest =>
      match split_dot target_field_key with
      | None => Raises "ValueError"
      | Some (target_table, target_col) =>
          match dict_get target_table (targets folder) with
          | None => chains_loop parse_one fuel folder mapping rest edges
          | Some target_def =>
              match chain_edges parse_one fuel folder mapping target_def
                      target_table target_col chain with
              | None => OutOfFuel
              | Some chain_es =>
                  chains_loop parse_one fuel folder mapping rest
                    (edges ++ chain_es)
              end
          end
      end
  end.

(** [LineageBuilder.build_column_lineage_edges]: [limit] bounds the
    nesting of the tracer, a [RecursionError] of which is passed on;
    [fuel] bounds the iterations of the searches' loops, in the model
    only. *)
Definition build_column_lineage_edges (parse_one : string -> option Parsed)
    (limit fuel : nat) (folder : FolderInfo) (mapping : MappingInfo)
  : Outcome (list ColumnLineageEdge) :=
  match build_mapping_lineage limit folder mapping with
  | Returns lineage_chains =>
      chains_loop parse_one fuel folder mapping lineage_chains []
  | Raises exception => Raises exception
  | OutOfFuel => OutOfFuel
  end.

(** The fuel that is enough for every search in a mapping with [n]
    connectors, and the depth of nesting that is enough for every trace:
    the pairs on the way are the start and source ends of connectors, all
    different, and the last call returns at once. *)
Definition enough_fuel (mapping : MappingInfo) : nat :=
  let n := length (connectors mapping) in 2 + S n * S n.

Definition enough_depth (mapping : MappingInfo) : nat :=
  2 + length (connectors mapping).

(** The pairs a trace can meet: the start and the source ends of the
    connectors. *)
Definition met_pairs (mapping : MappingInfo) (start : string * string)
  : list (string * string) :=
  start :: map from_pair (connectors mapping).

(** A key of the chains of a mapping: [target_name.field_name] for a
    Target Definition instance and a field of its definition. *)
Definition chain_key (folder : FolderInfo) (mapping : MappingInfo)
    (key : string) : Prop :=
  exists inst target_def field_name,
    inst ∈ target_instances mapping /\
    dict_get (transformation_name inst) (targets folder) = Some target_def /\
    field_name ∈ dict_keys (td_fields target_def) /\
    key = transformation_name inst +:+ "." +:+ field_name.

End InfaBuilder.

(* ===================================================================== *)
(** * Essbase: member references of calculation scripts *)
(* ===================================================================== *)

Module EssbaseReferences.
Import Py Regex Essbase.

(** [CalcScriptParser._extract_members_from_formula] *)
Definition _extract_members_from_formula (formula : string) : list string :=
  let members :=
    fold_left
      (fun members m =>
         let member := quoted_member (snd m) in
         if (truthy member && negb (str_in member members))%bool
         then members ++ [member] else members)
      (finditer member_ref formula) [] in
  fold_left
    (fun members m =>
       let member := group_text 1 (snd m) +:+ "->" +:+ group_text 3 (snd m) in
       if negb (str_in member members) then members ++ [member] else members)
    (finditer dim_member formula) members.

(** [if dim not in refs: refs[dim] = []] and then
    [if member not in refs[dim]: refs[dim].append(member)]. *)
Definition add_reference (dim member : string) (refs : FixContext)
  : FixContext :=
  let refs := if dict_mem dim refs then refs else dict_set dim [] refs in
  if str_in member (members_at refs dim) then refs
  else dict_update dim (fun l => l ++ [member]) refs.

(** [CalcScriptParser._extract_member_references]; the dict [refs] is
    updated in place, the model returns the updated dict. *)
Definition _extract_member_references (line : string) (refs : FixContext)
  : FixContext :=
  let refs :=
    fold_left
      (fun refs m =>
         add_reference (group_text 1 (snd m)) (group_text 3 (snd m)) refs)
      (finditer dim_member line) refs in
  fold_left
    (fun refs m =>
       let member := quoted_member (snd m) in
       if truthy member then add_reference "_uncategorized_" member refs
       else refs)
    (finditer member_ref line) refs.

(** The (dimension, member) pairs that a line refers to, in the order in
    which [_extract_member_references] files them. *)
Definition line_references (line : string) : list (string * string) :=
  map (fun m => (group_text 1 (snd m), group_text 3 (snd m)))
      (finditer dim_member line)
  ++ flat_map (fun m => let member := quoted_member (snd m) in
                        if truthy member then [("_uncategorized_", member)]
                        else [])
              (finditer member_ref line).

End EssbaseReferences.

(* ===================================================================== *)
(** * Essbase: lineage of member formulas *)
(* ===================================================================== *)

Module EssbaseFormulas.
Import Py Regex Essbase.

(** [LineageExtractor._member_dimension_cache]: cache key to dimension
    name. *)
Abbreviation Cache := (gmap string string).

(** [f"{cube.application}.{cube.name}.{member_name}"] *)
Definition cache_key (cube : EssbaseCube) (member_name : string) : string :=
  application cube +:+ "." +:+ cube_name cube +:+ "." +:+ member_name.

(** Does the inner loop [for member in dimension.members] find the
    member. *)
Definition has_member (member_name : string) (dimension : EssbaseDimension)
  : bool :=
  existsb (fun member => String.eqb (name member) member_name)
          (members dimension).

(** [LineageExtractor._resolve_member_dimension]; the cache is a field of
    the extractor that the method reads and updates, so it is passed in
    and returned. *)
Definition _resolve_member_dimension (member_name : string)
    (cube : EssbaseCube) (cache : Cache) : option EssbaseDimension * Cache :=
  let key := cache_key cube member_name in
  match cache !! key with
  | Some cached_name =>
      (List.find (fun d => String.eqb (dim_name d) cached_name)
                 (dimensions cube),
       cache)
  | None =>
      match List.find (has_member member_name) (dimensions cube) with
      | Some dimension => (Some dimension, <[key := dim_name dimension]> cache)
      | None => (None, cache)
      end
  end.

(** [EssbaseMember.has_formula] *)
Definition has_formula (member : EssbaseMember) : bool :=
  match formula member with
  | Some f => Nat.ltb 0 (String.length (strip f))
  | None => false
  end.

(** The four patterns of [_parse_formula_references]: a name between
    double quotes, between single quotes, between square brackets, and
    the dimension, arrow and member notation, whose member stops at a
    quote, white space, a comma, a semicolon or a parenthesis. *)
Definition double_quoted : re :=
  seq [Chr (is_char dquote); Group 1 (plus (Chr (none_of [dquote])));
       Chr (is_char dquote)].

Definition single_quoted : re :=
  seq [Chr (is_char squote); Group 1 (plus (Chr (none_of [squote])));
       Chr (is_char squote)].

Definition bracketed : re :=
  seq [Chr (is_char "["); Group 1 (plus (Chr (none_of ["]"%char])));
       Chr (is_char "]")].

Definition formula_char (c : ascii) : bool :=
  negb (is_quote c || is_space c || Ascii.eqb c "," || Ascii.eqb c ";"
        || Ascii.eqb c "(" || Ascii.eqb c ")")%bool.

Definition formula_dim_member : re :=
  seq [Group 1 (plus (Chr is_word)); lit "->"; Group 2 (opt (Chr is_quote));
       Group 3 (plus (Chr formula_char)); Backref 2].

(** One entry of [references]: a dict with the keys [field_path],
    [dimension], [member] and, once set, [aggregation]. *)
Record Reference : Type := {
  field_path : string;
  dimension : string;
  member : string;
  aggregation : option string
}.

(** The body of the loop over the matches of one of the first three
    patterns. *)
Definition quoted_reference (context_dimension : EssbaseDimension)
    (cube : EssbaseCube) (st : list Reference * Cache)
    (m : string * captures) : list Reference * Cache :=
  let member_name := group_text 1 (snd m) in
  let '(dim, cache) := _resolve_member_dimension member_name cube (snd st) in
  let name_of_dim :=
    match dim with
    | Some d => dim_name d
    | None => dim_name context_dimension
    end in
  (fst st ++ [ {| field_path := name_of_dim +:+ "." +:+ member_name;
                  dimension := name_of_dim;
                  member := member_name;
                  aggregation := None |} ],
   cache).

(** The body of the loop over the matches of the fourth pattern. *)
Definition dim_member_reference (references : list Reference)
    (m : string * captures) : list Reference :=
  let name_of_dim := group_text 1 (snd m) in
  let member_name := group_text 3 (snd m) in
  references ++ [ {| field_path := name_of_dim +:+ "." +:+ member_name;
                     dimension := name_of_dim;
                     member := member_name;
                     aggregation := None |} ].

(** [@NAME\s*\(], ignoring case. *)
Definition at_function (function_name : string) : re :=
  seq [lit_nocase function_name; Star (Chr is_space); Chr (is_char "(")].

(** [agg_patterns], in the order of the dict. *)
Definition agg_patterns : list (re * string) :=
  [(at_function "@SUM", "SUM"); (at_function "@AVG", "AVG");
   (at_function "@COUNT", "COUNT"); (at_function "@MAX", "MAX");
   (at_function "@MIN", "MIN"); (at_function "@PRIOR", "PRIOR");
   (at_function "@PARENTVAL", "PARENT_VALUE")].

(** [ref["aggregation"] = agg_func] *)
Definition set_aggregation (agg_func : string) (ref : Reference) : Reference :=
  {| field_path := field_path ref; dimension := dimension ref;
     member := member ref; aggregation := Some agg_func |}.

(** The loop [for pattern, agg_func in agg_patterns.items()]. *)
Definition apply_aggregations (patterns : list (re * string))
    (formula : string) (references : list Reference) : list Reference :=
  fold_left
    (fun references p =>
       match search (fst p) formula with
       | Some _ => map (set_aggregation (snd p)) references
       | None => references
       end)
    patterns references.

(** [LineageExtractor._parse_formula_references] *)
Definition _parse_formula_references (formula : string)
    (context_dimension : EssbaseDimension) (cube : EssbaseCube)
    (cache : Cache) : list Reference * Cache :=
  let st :=
    fold_left (quoted_reference context_dimension cube)
              (finditer double_quoted formula) ([], cache) in
  let st :=
    fold_left (quoted_reference context_dimension cube)
              (finditer single_quoted formula) st in
  let st :=
    fold_left (quoted_reference context_dimension cube)
              (finditer bracketed formula) st in
  let references :=
    fold_left dim_member_reference (finditer formula_dim_member formula)
              (fst st) in
  (apply_aggregations agg_patterns formula references, snd st).

(** The mappings built from the references of the formula of a member. *)
Definition formula_mappings (dataset_name : string)
    (dimension : EssbaseDimension) (member : EssbaseMember)
    (member_formula : string) (source_refs : list Reference)
  : list ColumnLineageMapping :=
  map (fun source_ref =>
         {| source_dataset := dataset_name;
            source_field := field_path source_ref;
            target_dataset := dataset_name;
            target_field := dim_name dimension +:+ "." +:+ name member;
            transformation_type := Some "member_formula";
            transformation_expression := Some member_formula;
            confidence := 1;
            aggregation_function := aggregation source_ref;
            filter_expression := None |})
      source_refs.

(** The body of [for member in dimension.members]. *)
Definition member_formula_lineage (dataset_name : string) (cube : EssbaseCube)
    (dimension : EssbaseDimension)
    (st : list ColumnLineageMapping * Cache) (member : EssbaseMember)
  : list ColumnLineageMapping * Cache :=
  if has_formula member then
    match formula member with
    | Some member_formula =>
        let '(source_refs, cache) :=
          _parse_formula_references member_formula dimension cube (snd st) in
        (fst st ++ formula_mappings dataset_name dimension member
                     member_formula source_refs,
         cache)
    | None => st
    end
  else st.

(** [LineageExtractor.extract_member_formula_lineage] *)
Definition extract_member_formula_lineage (cube : EssbaseCube)
    (namespace : string) (cache : Cache)
  : list ColumnLineageMapping * Cache :=
  let dataset_name := application cube +:+ "." +:+ cube_name cube in
  fold_left
    (fun st dimension =>
       fold_left (member_formula_lineage dataset_name cube dimension)
                 (members dimension) st)
    (dimensions cube) ([], cache).

(** The dimension that the search of [_resolve_member_dimension] finds
    when the cache does not answer: the first one that has the member. *)
Definition first_dimension_of (member_name : string) (cube : EssbaseCube)
  : option EssbaseDimension :=
  List.find (has_member member_name) (dimensions cube).

(** Every entry of the cache for the cube names the dimension that the
    search would find. *)
Definition cache_sound (cube : EssbaseCube) (cache : Cache) : Prop :=
  forall member_name cached_name,
    cache !! cache_key cube member_name = Some cached_name ->
    exists d, first_dimension_of member_name cube = Some d /\
              dim_name d = cached_name.

(** The function of the last pattern of [patterns] that occurs in the
    formula, [start] when none does. *)
Definition last_aggregation (patterns : list (re * string)) (formula : string)
    (start : option string) : option string :=
  fold_left
    (fun found p =>
       match search (fst p) formula with
       | Some _ => Some (snd p)
       | None => found
       end)
    patterns start.

(** A reference whose path is its dimension and its member. *)
Definition well_formed (r : Reference) : Prop :=
  field_path r = dimension r +:+ "." +:+ member r.

End EssbaseFormulas.

Module EssbaseFormulaScenarios.
Import Py Essbase EssbaseScenarios EssbaseFormulas.

(** A member [Margin] of the dimension [Measures] with the formula
    [Sales - COGS], the two names between double quotes. *)
Definition margin_formula : string :=
  quoted "Sales" +:+ " - " +:+ quoted "COGS".

Definition measures : EssbaseDimension :=
  {| dim_name := "Measures";
     members :=
       [mk_member "Sales" [] ADDITION; mk_member "COGS" [] ADDITION;
        {| name := "Margin"; parent := None; children := [];
           consolidation := ADDITION; formula := Some margin_formula |}] |}.

Definition sample : EssbaseCube :=
  {| cube_name := "Basic"; application := "Sample";
     dimensions := [measures] |}.

(** The mapping from [COGS] to [Margin]. *)
Definition margin_from_cogs : ColumnLineageMapping :=
  {| source_dataset := "Sample.Basic";
     source_field := "Measures.COGS";
     target_dataset := "Sample.Basic";
     target_field := "Measures.Margin";
     transformation_type := Some "member_formula";
     transformation_expression := Some margin_formula;
     confidence := 1;
     aggregation_function := None;
     filter_expression := None |}.

End EssbaseFormulaScenarios.

(* ===================================================================== *)
(** * Essbase: lineage of calculation scripts *)
(* ===================================================================== *)

Module EssbaseScripts.
Import Py Regex Essbase.

Inductive CalcOperation : Type :=
| AGGREGATION | ALLOCATION | FORMULA | COPY | CLEAR | DATACOPY | FIX
| CALC_DIM | MEMBER_FORMULA | CUSTOM.

(** [CalcOperation.value] *)
Definition operation_value (op : CalcOperation) : string :=
  match op with
  | AGGREGATION => "aggregation"
  | ALLOCATION => "allocation"
  | FORMULA => "formula"
  | COPY => "copy"
  | CLEAR => "clear"
  | DATACOPY => "datacopy"
  | FIX => "fix"
  | CALC_DIM => "calc_dim"
  | MEMBER_FORMULA => "member_formula"
  | CUSTOM => "custom"
  end.

Record CalcTransform : Type := {
  operation_type : CalcOperation;
  target_members : list string;
  source_members : list string;
  ct_formula : option string;
  fix_context : option FixContext;
  line_number : option Z;
  raw_statement : option string;
  source_region : option string;
  target_region : option string
}.

(** [f'"{m}"'] *)
Definition in_quotes (m : string) : string :=
  String dquote m +:+ String dquote EmptyString.

(** [LineageExtractor._fix_context_to_filter]; an empty dict is falsy. *)
Definition _fix_context_to_filter (context : option FixContext)
  : option string :=
  match context with
  | None => None
  | Some [] => None
  | Some ctx =>
      let parts :=
        flat_map
          (fun entry : string * list string =>
             if String.eqb (fst entry) "_unresolved_" then []
             else
               let member_list := join ", " (map in_quotes (snd entry)) in
               [fst entry +:+ " IN (" +:+ member_list +:+ ")"])
          ctx in
      match parts with
      | [] => None
      | _ => Some (join " AND " parts)
      end
  end.

(** [x or ""] for an optional string. *)
Definition or_empty (x : option string) : string :=
  match x with
  | Some s => s
  | None => ""
  end.

(** What the body of [for transform in script.transforms] appends to
    [lineage_mappings]. *)
Definition transform_lineage (dataset_name : string)
    (transform : CalcTransform) : list ColumnLineageMapping :=
  match operation_type transform with
  | FORMULA =>
      flat_map
        (fun source =>
           map (fun target =>
                  {| source_dataset := dataset_name;
                     source_field := source;
                     target_dataset := dataset_name;
                     target_field := target;
                     transformation_type := Some "calc_script_formula";
                     transformation_expression := ct_formula transform;
                     confidence := 1;
                     aggregation_function := None;
                     filter_expression :=
                       _fix_context_to_filter (fix_context transform) |})
               (target_members transform))
        (source_members transform)
  | DATACOPY =>
      [ {| source_dataset := dataset_name;
           source_field := or_empty (source_region transform);
           target_dataset := dataset_name;
           target_field := or_empty (target_region transform);
           transformation_type := Some "datacopy";
           transformation_expression := raw_statement transform;
           confidence := 1;
           aggregation_function := None;
           filter_expression :=
             _fix_context_to_filter (fix_context transform) |} ]
  | AGGREGATION | CALC_DIM =>
      map (fun dim =>
             {| source_dataset := dataset_name;
                source_field := dim +:+ ".*";
                target_dataset := dataset_name;
                target_field := dim +:+ ".*";
                transformation_type :=
                  Some (operation_value (operation_type transform));
                transformation_expression := None;
                confidence := 1;
                aggregation_function := Some "CONSOLIDATE";
                filter_expression :=
                  _fix_context_to_filter (fix_context transform) |})
          (target_members transform)
  | _ => []
  end.

(** The list [lineage_mappings] that
    [LineageExtractor._calc_script_to_job] builds from the transforms of a
    script: the second component of its result and the [column_lineage]
    of the job it returns. *)
Definition calc_script_lineage (transforms : list CalcTransform)
    (dataset_name : string) : list ColumnLineageMapping :=
  fold_left
    (fun lineage_mappings transform =>
       lineage_mappings ++ transform_lineage dataset_name transform)
    transforms [].

(** The number of mappings a transform gives rise to. *)
Definition mapping_count (transform : CalcTransform) : nat :=
  match operation_type transform with
  | FORMULA =>
      (length (source_members transform) * length (target_members transform))%nat
  | DATACOPY => 1%nat
  | AGGREGATION | CALC_DIM => length (target_members transform)
  | _ => 0%nat
  end.

(** The dimensions of a FIX context that are resolved. *)
Definition resolved_dimensions (context : option FixContext) : list string :=
  List.filter (fun dim => negb (String.eqb dim "_unresolved_"))
              (dict_keys (default [] context)).

End EssbaseScripts.

(* ===================================================================== *)
(** * Properties *)
(* ===================================================================== *)

#[local] Set Warnings "-clear-no-such-hyp".
Local Close Scope Z_scope.

(** ** The instance graph *)

Section GraphFacts.
Import Py Infa.

Lemma graph_get_add_connector g c ti tf :
  graph_get (add_connector g c) ti tf =
  graph_get g ti tf ++ (if connects_to ti tf c then [from_pair c] else []).
Proof.
  unfold graph_get, add_connector, connects_to, from_pair.
  destruct (String.eqb_spec (to_instance c) ti) as [->|Hi]; simpl.
  - destruct (String.eqb_spec (to_field c) tf) as [->|Hf]; simpl.
    + destruct (g !! ti) as [row|] eqn:Hg; simpl.
      * rewrite lookup_insert_eq. simpl. rewrite Hg. simpl.
        destruct (row !! tf) as [cell|] eqn:Hr; simpl;
          rewrite ?lookup_insert_eq; simpl; rewrite ?Hr; reflexivity.
      * rewrite !lookup_insert_eq. simpl. rewrite lookup_empty. simpl.
        rewrite !lookup_insert_eq. reflexivity.
    + rewrite app_nil_r.
      destruct (g !! ti) as [row|] eqn:Hg; simpl.
      * rewrite lookup_insert_eq. simpl. rewrite Hg. simpl.
        destruct (row !! to_field c) as [cell|] eqn:Hr; simpl;
          rewrite lookup_insert_ne by done; try reflexivity.
        rewrite lookup_insert_ne by done. reflexivity.
      * rewrite !lookup_insert_eq. simpl. rewrite lookup_empty. simpl.
        rewrite lookup_insert_ne by done. rewrite lookup_insert_ne by done.
        reflexivity.
  - rewrite app_nil_r.
    rewrite lookup_insert_ne by done.
    destruct (g !! to_instance c); [reflexivity|].
    rewrite lookup_insert_ne by done. reflexivity.
Qed.

Lemma graph_get_fold cs : forall g ti tf,
  graph_get (fold_left add_connector cs g) ti tf =
  graph_get g ti tf ++ map from_pair (List.filter (connects_to ti tf) cs).
Proof.
  induction cs as [|c cs IH]; intros g ti tf; cbn [fold_left List.filter].
  - by rewrite app_nil_r.
  - rewrite IH, graph_get_add_connector.
    destruct (connects_to ti tf c); cbn [map]; by rewrite <- app_assoc.
Qed.

(** The upstream list of a field is the list of the sources of the
    connectors that end in it, in connector order and with repetitions. *)
Lemma graph_get_build mapping ti tf :
  graph_get (_build_instance_graph mapping) ti tf =
  map from_pair (List.filter (connects_to ti tf) (connectors mapping)).
Proof.
  unfold _build_instance_graph. rewrite graph_get_fold.
  unfold graph_get. by rewrite lookup_empty.
Qed.

End GraphFacts.

(** ** The upstream tracer *)

Section TraceFacts.
Import Py Infa.
Variable folder : FolderInfo.
Variable mapping : MappingInfo.
Variable graph : InstanceGraph.
Variable P : list (string * string).
Hypothesis P_closed : forall ti tf p, p ∈ graph_get graph ti tf -> p ∈ P.

Local Abbreviation post := (trace_post mapping P).

Lemma key_in_keys_of p : p ∈ P -> pair_key p ∈ keys_of P.
Proof.
  intros H. unfold keys_of. apply elem_of_list_to_set.
  apply list_elem_of_In, in_map, list_elem_of_In, H.
Qed.

Lemma trace_post_refl v : post v [] v.
Proof.
  split; [done|]. split; [set_solver|]. split; [constructor|].
  split; [|constructor].
  intros k Hk. cbn in Hk. by apply elem_of_nil in Hk.
Qed.

Lemma step_keys_app a b : step_keys (a ++ b) = step_keys a ++ step_keys b.
Proof. unfold step_keys, step_pairs. by rewrite flat_map_app, map_app. Qed.

Lemma trace_post_trans v1 s1 v2 s2 v3 :
  post v1 s1 v2 -> post v2 s2 v3 -> post v1 (s1 ++ s2) v3.
Proof.
  intros (A1 & A2 & A3 & A4 & A5) (B1 & B2 & B3 & B4 & B5).
  split; [set_solver|]. split; [set_solver|]. split; [|split].
  - rewrite step_keys_app. apply NoDup_app. split; [done|]. split; [|done].
    intros k Hk Hk'. destruct (A4 _ Hk), (B4 _ Hk'). set_solver.
  - intros k Hk. rewrite step_keys_app in Hk. apply elem_of_app in Hk as [Hk|Hk].
    + destruct (A4 _ Hk). set_solver.
    + destruct (B4 _ Hk). set_solver.
  - by apply Forall_app.
Qed.

Lemma trace_post_step v (s : TransformationStep) ti tf :
  instance_name s = ti ->
  output_fields s = [(ti, tf)] ->
  (ti, tf) ∈ P ->
  is_Some (dict_get ti (instances mapping)) ->
  visit_key ti tf ∉ v ->
  post v [s] ({[visit_key ti tf]} ∪ v).
Proof.
  intros Hn Ho HP Hi Hv.
  pose proof (key_in_keys_of _ HP) as HU. unfold pair_key in HU; cbn in HU.
  unfold trace_post, step_keys, step_pairs. cbn. rewrite Ho. cbn.
  split; [set_solver|]. split; [set_solver|]. split; [apply NoDup_singleton|].
  split.
  - intros k Hk. apply list_elem_of_singleton in Hk as ->. set_solver.
  - constructor; [|constructor]. exists tf. rewrite Hn. done.
Qed.

Lemma trace_post_unknown v p :
  p ∈ P -> post v [] ({[pair_key p]} ∪ v).
Proof.
  intros HP. pose proof (key_in_keys_of _ HP) as HU.
  split; [set_solver|]. split; [set_solver|]. split; [constructor|].
  split; [|constructor].
  intros k' Hk. cbn in Hk. by apply elem_of_nil in Hk.
Qed.

Lemma trace_upstream_ok (n : nat) rec :
  (forall fi ff v, (fi, ff) ∈ P -> size (keys_of P ∖ v) < n ->
     exists st v', rec fi ff v = Some (st, v') /\ post v st v') ->
  forall l v0 v steps,
    (forall p, p ∈ l -> p ∈ P) ->
    size (keys_of P ∖ v) < n ->
    post v0 steps v ->
    exists steps' v', trace_upstream rec l v steps = Some (steps', v') /\
                      post v0 steps' v'.
Proof.
  intros Hrec l. induction l as [|[fi ff] l IH]; intros v0 v steps Hl Hn Hpost.
  - cbn. eauto.
  - cbn. destruct (Hrec fi ff v) as (st & v' & -> & Hst); [apply Hl; left|done|].
    apply IH.
    + intros. apply Hl. by right.
    + destruct Hst as (Hsub & _).
      eapply Nat.le_lt_trans; [|exact Hn]. apply subseteq_size. set_solver.
    + eapply trace_post_trans; eauto.
Qed.

Lemma trace_terminates fuel : forall ti tf v order,
  (ti, tf) ∈ P -> size (keys_of P ∖ v) < fuel ->
  exists st v',
    _trace_field_lineage fuel folder mapping ti tf graph v order = Some (st, v')
    /\ post v st v'.
Proof.
  induction fuel as [|fuel IH]; intros ti tf v order HP Hn; [lia|].
  cbn [_trace_field_lineage].
  destruct (decide (visit_key ti tf ∈ v)) as [Hin|Hnin].
  { eexists _, _. split; [reflexivity|]. apply trace_post_refl. }
  pose proof (key_in_keys_of _ HP) as HU. unfold pair_key in HU; cbn in HU.
  assert (Hlt : size (keys_of P ∖ ({[visit_key ti tf]} ∪ v)) < fuel).
  { assert (size (keys_of P ∖ ({[visit_key ti tf]} ∪ v)) < size (keys_of P ∖ v));
      [|lia].
    apply subset_size. set_solver. }
  destruct (dict_get ti (instances mapping)) as [info|] eqn:Hinfo.
  2:{ eexists _, _. split; [reflexivity|].
      exact (trace_post_unknown v _ HP). }
  eapply trace_upstream_ok with (n := fuel).
  - intros fi ff v1 H1 H2. apply IH; auto.
  - intros p Hm. eapply P_closed; eauto.
  - exact Hlt.
  - apply trace_post_step; cbn; try done.
Qed.

Lemma trace_upstream_mono
    (rec1 rec2 : string -> string -> gset string ->
                 option (list TransformationStep * gset string)) :
  (forall fi ff v r, rec1 fi ff v = Some r -> rec2 fi ff v = Some r) ->
  forall l v steps r,
    trace_upstream rec1 l v steps = Some r ->
    trace_upstream rec2 l v steps = Some r.
Proof.
  intros Hrec l. induction l as [|[fi ff] l IH]; intros v steps r; cbn; [done|].
  destruct (rec1 fi ff v) as [[st v']|] eqn:E; [|done].
  rewrite (Hrec _ _ _ _ E). apply IH.
Qed.

Lemma trace_fuel_mono n : forall m ti tf v order r,
  (n <= m)%nat ->
  _trace_field_lineage n folder mapping ti tf graph v order = Some r ->
  _trace_field_lineage m folder mapping ti tf graph v order = Some r.
Proof.
  induction n as [|n IH]; intros m ti tf v order r Hle; [done|].
  destruct m as [|m]; [lia|]. cbn [_trace_field_lineage].
  destruct (decide _); [done|].
  destruct (dict_get _ _); [|done].
  apply trace_upstream_mono. intros. apply IH; [lia|done].
Qed.

End TraceFacts.

Section TraceBound.
Import Py Infa.

Lemma size_list_to_set_le (l : list string) :
  (size (list_to_set l : gset string) <= length l)%nat.
Proof.
  unfold size, set_size. cbn. apply submseteq_length, NoDup_submseteq.
  - apply NoDup_elements.
  - intros x Hx. apply elem_of_elements in Hx. by apply elem_of_list_to_set in Hx.
Qed.

Lemma NoDup_length_le_size (l : list string) (X : gset string) :
  NoDup l -> (forall x, x ∈ l -> x ∈ X) -> (length l <= size X)%nat.
Proof.
  intros Hnd Hin. unfold size, set_size. cbn.
  apply submseteq_length, NoDup_submseteq; [done|].
  intros x Hx. apply elem_of_elements. auto.
Qed.

Lemma dict_get_Some_key {V} (d : dict V) k :
  is_Some (dict_get k d) -> k ∈ dict_keys d.
Proof.
  induction d as [|[k' v] d IH]; cbn; intros [x Hx]; [done|].
  destruct (String.eqb_spec k k') as [->|Hne].
  - left.
  - right. apply IH. eauto.
Qed.

Lemma length_remove_dups_le (l : list string) :
  (length (remove_dups l) <= length l)%nat.
Proof.
  apply submseteq_length, NoDup_submseteq; [apply NoDup_remove_dups|].
  intros x. by rewrite elem_of_remove_dups.
Qed.

Lemma elem_of_trace_pairs mapping ti tf a b :
  (a, b) ∈ trace_pairs mapping ti tf <->
  a ∈ ti :: map from_instance (connectors mapping) /\
  b ∈ tf :: map from_field (connectors mapping).
Proof.
  unfold trace_pairs, trace_nodes, trace_fields.
  rewrite list_elem_of_In, in_prod_iff, <- !list_elem_of_In.
  by rewrite !elem_of_remove_dups.
Qed.

Lemma trace_pairs_closed mapping ti0 tf0 ti tf p :
  p ∈ graph_get (_build_instance_graph mapping) ti tf ->
  p ∈ trace_pairs mapping ti0 tf0.
Proof.
  rewrite graph_get_build. intros Hp.
  apply list_elem_of_In, in_map_iff in Hp as (c & <- & Hc).
  apply filter_In in Hc as [Hc _]. unfold from_pair.
  apply elem_of_trace_pairs. split; right; apply list_elem_of_In;
    by apply in_map.
Qed.

Lemma step_pairs_length mapping P st :
  Forall (step_ok mapping P) st -> length (step_pairs st) = length st.
Proof.
  induction 1 as [|s st (tf & Ho & _) _ IH]; [done|].
  unfold step_pairs in *. cbn. rewrite Ho. cbn. by rewrite IH.
Qed.

Lemma step_pairs_known mapping P st :
  Forall (step_ok mapping P) st ->
  forall p, p ∈ step_pairs st ->
    p ∈ P /\ fst p ∈ dict_keys (instances mapping).
Proof.
  induction 1 as [|s st (tf & Ho & HP & Hi) _ IH]; intros p Hp.
  - by apply elem_of_nil in Hp.
  - unfold step_pairs in Hp. cbn in Hp. rewrite Ho in Hp. cbn in Hp.
    apply elem_of_cons in Hp as [->|Hp]; [|by apply IH].
    split; [done|]. by apply dict_get_Some_key.
Qed.

(** C1: for every mapping, cyclic or not, the trace of a target field
    terminates once the fuel exceeds [N * F], where [N] counts the
    instance names and [F] the field names the trace can meet, and its
    result does not depend on the fuel.  No (instance, field) pair is
    recorded twice; the chain is no longer than the visited set, which has
    at most [N * F] keys; the chain has at most [|instances| * F] steps;
    and a call on a pair whose key is already in the visited set returns
    at once with no step and the set unchanged. *)
Theorem trace_terminates_bounded (folder : FolderInfo) (mapping : MappingInfo)
    (target_instance target_field : string) :
  let N := length (trace_nodes mapping target_instance) in
  let F := length (trace_fields mapping target_field) in
  exists steps visited,
    (forall k : nat,
        _trace_field_lineage (S (N * F) + k) folder mapping
          target_instance target_field (_build_instance_graph mapping) ∅ 0%Z
        = Some (steps, visited)) /\
    NoDup (step_pairs steps) /\
    (length steps <= size visited)%nat /\
    (size visited <= N * F)%nat /\
    (length steps <= length (instances mapping) * F)%nat /\
    (forall fuel ti tf v order,
        visit_key ti tf ∈ v ->
        _trace_field_lineage (S fuel) folder mapping ti tf
          (_build_instance_graph mapping) v order = Some ([], v)).
Proof.
  intros N F.
  set (P := trace_pairs mapping target_instance target_field).
  assert (HlenP : length P = (N * F)%nat).
  { unfold P, trace_pairs. by rewrite length_prod. }
  assert (HsizeP : (size (keys_of P) <= N * F)%nat).
  { rewrite <- HlenP. unfold keys_of.
    etrans; [apply size_list_to_set_le|]. by rewrite length_map. }
  destruct (trace_terminates folder mapping (_build_instance_graph mapping) P
              (fun ti tf p => trace_pairs_closed mapping _ _ ti tf p)
              (S (N * F)) target_instance target_field ∅ 0%Z)
    as (st & v' & Hrun & Hsub & Hsup & Hnd & Hkeys & Hok).
  { apply elem_of_trace_pairs. split; left. }
  { assert (size (keys_of P ∖ ∅) <= size (keys_of P))%nat; [|lia].
    apply subseteq_size. set_solver. }
  exists st, v'. split; [|split; [|split; [|split; [|split]]]].
  - intros k. eapply trace_fuel_mono; [|exact Hrun]. lia.
  - unfold step_keys in Hnd. by apply NoDup_fmap_1 in Hnd.
  - rewrite <- (step_pairs_length _ _ _ Hok).
    rewrite <- (length_map (fun p => visit_key (fst p) (snd p))).
    apply NoDup_length_le_size; [exact Hnd|]. intros x Hx. by apply Hkeys.
  - etrans; [|exact HsizeP]. apply subseteq_size. set_solver.
  - rewrite <- (step_pairs_length _ _ _ Hok).
    assert (Hnd' : NoDup (step_pairs st)).
    { unfold step_keys in Hnd. by apply NoDup_fmap_1 in Hnd. }
    etrans.
    + apply submseteq_length.
      apply (NoDup_submseteq _
               (list_prod (remove_dups (dict_keys (instances mapping)))
                          (trace_fields mapping target_field)) Hnd').
      intros [a b] Hp.
      destruct (step_pairs_known _ _ _ Hok _ Hp) as [HP Hk].
      apply elem_of_trace_pairs in HP as [_ Hb].
      apply list_elem_of_In, in_prod_iff. split; apply list_elem_of_In.
      * by apply elem_of_remove_dups.
      * unfold trace_fields. by apply elem_of_remove_dups.
    + rewrite length_prod. apply Nat.mul_le_mono_r.
      etrans; [apply length_remove_dups_le|].
      unfold dict_keys. by rewrite length_map.
  - intros fuel ti tf v order Hin. cbn [_trace_field_lineage].
    by rewrite decide_True.
Qed.
End TraceBound.

(** ** Edge insertion and Source nodes *)

Section InsertionFacts.
Import Py Infa InfaScenarios.

(** C6 (as stated, refuted): inserting the connector [X.f -> SRC.g] twice
    into the empty graph gives the upstream list [[(X,f); (X,f)]], not the
    list [[(X,f)]] that one insertion gives. *)
Lemma insertion_not_idempotent : ~ insertion_idempotent.
Proof.
  intros H.
  specialize (H ∅ (mk_connector "X" "f" "SRC" "g") "SRC" "g").
  vm_compute in H. discriminate H.
Qed.

(** C6 (amended): the graph keeps one entry per inserted connector.  A
    second insertion of the same connector appends its source pair once
    more to the upstream list of its target field and leaves every other
    upstream list alone; the members of every upstream list are the same
    as after one insertion. *)
Theorem insertion_twice_appends (g : InstanceGraph) (c : ConnectorInfo) :
  graph_get (add_connector (add_connector g c) c) (to_instance c) (to_field c)
  = graph_get (add_connector g c) (to_instance c) (to_field c) ++ [from_pair c]
  /\ (forall ti tf, connects_to ti tf c = false ->
        graph_get (add_connector (add_connector g c) c) ti tf
        = graph_get (add_connector g c) ti tf)
  /\ (forall ti tf p,
        p ∈ graph_get (add_connector (add_connector g c) c) ti tf <->
        p ∈ graph_get (add_connector g c) ti tf).
Proof.
  split; [|split].
  - rewrite (graph_get_add_connector (add_connector g c)).
    unfold connects_to. by rewrite !String.eqb_refl.
  - intros ti tf Hc. rewrite (graph_get_add_connector (add_connector g c)).
    rewrite Hc. by rewrite app_nil_r.
  - intros ti tf p. rewrite (graph_get_add_connector (add_connector g c)).
    rewrite (graph_get_add_connector g).
    destruct (connects_to ti tf c); rewrite ?app_nil_r; [|done].
    rewrite !elem_of_app. tauto.
Qed.

(** C5 (as stated, refuted): in [fed_source] the Source Definition
    instance [SRC] is the end of a connector from [X]; the trace from
    [SRC.g] goes on to record a step for [X]. *)
Lemma source_not_root : ~ source_is_root.
Proof.
  intros H.
  assert (Hrun : exists v,
    _trace_field_lineage 3 empty_folder fed_source "SRC" "g"
      (_build_instance_graph fed_source) ∅ 0%Z
    = Some ([ {| step_order := 0; instance_name := "SRC";
                 ts_transformation_type := SOURCE_DEFINITION;
                 input_fields := [("X", "f")];
                 output_fields := [("SRC", "g")]; ts_expression := None |};
              {| step_order := 1; instance_name := "X";
                 ts_transformation_type := EXPRESSION;
                 input_fields := [];
                 output_fields := [("X", "f")]; ts_expression := None |} ],
            v)).
  { eexists. vm_compute. reflexivity. }
  destruct Hrun as [v Hrun].
  specialize (H empty_folder fed_source 3 "SRC" "g" _ _ _
                eq_refl eq_refl Hrun).
  match type of H with
  | forall s, s ∈ [_; ?x] -> _ =>
      specialize (H x ltac:(right; left)); discriminate H
  end.
Qed.

Lemma dict_get_with_kinds kinds mapping ti :
  dict_get ti (instances (with_kinds kinds mapping))
  = with_kind (kinds ti) <$> dict_get ti (instances mapping).
Proof.
  cbn [with_kinds instances].
  induction (instances mapping) as [|[k info] d IH]; [done|].
  cbn [map dict_get fst snd].
  destruct (String.eqb_spec ti k) as [->|Hne]; [done|]. exact IH.
Qed.

Lemma trace_upstream_prefix rec l : forall v steps steps' v',
  trace_upstream rec l v steps = Some (steps', v') ->
  exists more, steps' = steps ++ more.
Proof.
  induction l as [|[fi ff] l IH]; intros v steps steps' v' H; cbn in H.
  - injection H as <- _. exists []. by rewrite app_nil_r.
  - destruct (rec fi ff v) as [[st v1]|]; [|done].
    destruct (IH _ _ _ _ H) as [more ->]. exists (st ++ more).
    by rewrite app_assoc.
Qed.

Lemma trace_upstream_grows rec l :
  (forall fi ff v st v', rec fi ff v = Some (st, v') ->
     v ⊆ v' /\ visit_key fi ff ∈ v') ->
  forall v steps steps' v',
    trace_upstream rec l v steps = Some (steps', v') ->
    v ⊆ v' /\ forall p, p ∈ l -> visit_key (fst p) (snd p) ∈ v'.
Proof.
  intros Hrec. induction l as [|[fi ff] l IH]; intros v steps steps' v' H;
    cbn in H.
  - injection H as _ <-. split; [done|]. intros p Hp. by apply elem_of_nil in Hp.
  - destruct (rec fi ff v) as [[st v1]|] eqn:E; [|done].
    destruct (Hrec _ _ _ _ _ E) as [Hsub Hkey].
    destruct (IH _ _ _ _ H) as [Hsub' Hall].
    split; [set_solver|]. intros p Hp.
    apply elem_of_cons in Hp as [->|Hp]; [cbn; set_solver|auto].
Qed.

Lemma trace_grows folder mapping graph fuel : forall ti tf v order st v',
  _trace_field_lineage fuel folder mapping ti tf graph v order = Some (st, v') ->
  v ⊆ v' /\ visit_key ti tf ∈ v'.
Proof.
  induction fuel as [|fuel IH]; intros ti tf v order st v' H; [done|].
  cbn [_trace_field_lineage] in H.
  destruct (decide (visit_key ti tf ∈ v)) as [Hin|Hnin].
  { injection H as _ <-. done. }
  destruct (dict_get ti (instances mapping)) as [info|].
  2:{ injection H as _ <-. set_solver. }
  apply trace_upstream_grows in H as [Hsub _]; [set_solver|].
  intros fi ff v1 st1 v1' H1. exact (IH _ _ _ _ _ _ H1).
Qed.

Lemma trace_upstream_with_kinds kinds rec1 rec2 l :
  (forall fi ff v,
     rec1 fi ff v
     = match rec2 fi ff v with
       | Some (steps, visited) => Some (map (step_with_kinds kinds) steps, visited)
       | None => None
       end) ->
  forall v steps,
    trace_upstream rec1 l v (map (step_with_kinds kinds) steps)
    = match trace_upstream rec2 l v steps with
      | Some (steps', visited) =>
          Some (map (step_with_kinds kinds) steps', visited)
      | None => None
      end.
Proof.
  intros Hrec. induction l as [|[fi ff] l IH]; intros v steps; cbn; [done|].
  rewrite Hrec. destruct (rec2 fi ff v) as [[st v1]|]; [|done].
  rewrite <- map_app. apply IH.
Qed.

Lemma trace_with_kinds kinds folder mapping fuel : forall ti tf v order,
  _trace_field_lineage fuel folder (with_kinds kinds mapping) ti tf
    (_build_instance_graph (with_kinds kinds mapping)) v order
  = match _trace_field_lineage fuel folder mapping ti tf
            (_build_instance_graph mapping) v order with
    | Some (steps, visited) => Some (map (step_with_kinds kinds) steps, visited)
    | None => None
    end.
Proof.
  change (_build_instance_graph (with_kinds kinds mapping))
    with (_build_instance_graph mapping).
  induction fuel as [|fuel IH]; intros ti tf v order; [done|].
  cbn [_trace_field_lineage].
  destruct (decide (visit_key ti tf ∈ v)); [done|].
  rewrite dict_get_with_kinds.
  destruct (dict_get ti (instances mapping)) as [info|]; cbn [fmap option_fmap option_map]; [|done].
  cbv zeta.
  change (_get_transformation folder (with_kinds kinds mapping)
            (with_kind (kinds ti) info))
    with (_get_transformation folder mapping info).
  cbn [with_kind transformation_type].
  match goal with
  | |- trace_upstream _ _ _ [?s1] = match trace_upstream _ _ _ [?s2] with _ => _ end =>
      change [s1] with (map (step_with_kinds kinds) [s2])
  end.
  apply trace_upstream_with_kinds. intros fi ff v1. apply IH.
Qed.

(** C5 (amended): the tracer does not look at the kind of the node; a
    branch ends where the traced field has no incoming connector.
    (1) For a Source Definition instance without incoming connectors on
    the field, not yet visited, the call records exactly one step, with
    no inputs, adds only its own key to the visited set, and recurses
    nowhere.  (2) A known instance of any kind, a Source Definition
    included, is traced through: a call that returns on a pair not yet
    visited records first the step of the instance itself, whose inputs
    are the sources of all the connectors that end in the field, in
    connector order; the key of every one of these sources is in the
    visited set afterwards; and when the first of them belongs to a known
    instance and is not yet visited, its own step comes next, one level
    deeper.  (3) Giving the instances any other kinds changes nothing in
    the trace but the kind written into each step: the same steps in the
    same order and the same visited set. *)
Theorem trace_ignores_node_kind (folder : FolderInfo) (mapping : MappingInfo) :
  (forall (fuel : nat) (ti tf : string) (v : gset string) (order : Z)
          (info : InstanceInfo),
     dict_get ti (instances mapping) = Some info ->
     transformation_type info = SOURCE_DEFINITION ->
     (forall c, c ∈ connectors mapping -> connects_to ti tf c = false) ->
     visit_key ti tf ∉ v ->
     exists s,
       _trace_field_lineage (S fuel) folder mapping ti tf
         (_build_instance_graph mapping) v order
       = Some ([s], {[visit_key ti tf]} ∪ v)
       /\ instance_name s = ti
       /\ ts_transformation_type s = SOURCE_DEFINITION
       /\ input_fields s = []
       /\ output_fields s = [(ti, tf)])
  /\ (forall (fuel : nat) (ti tf : string) (v : gset string) (order : Z)
             (info : InstanceInfo) steps visited,
        dict_get ti (instances mapping) = Some info ->
        visit_key ti tf ∉ v ->
        _trace_field_lineage fuel folder mapping ti tf
          (_build_instance_graph mapping) v order = Some (steps, visited) ->
        exists s rest,
          steps = s :: rest
          /\ instance_name s = ti
          /\ ts_transformation_type s = transformation_type info
          /\ step_order s = order
          /\ output_fields s = [(ti, tf)]
          /\ input_fields s
             = map from_pair (List.filter (connects_to ti tf) (connectors mapping))
          /\ (forall c, c ∈ connectors mapping -> connects_to ti tf c = true ->
                visit_key (from_instance c) (from_field c) ∈ visited)
          /\ (forall p others info',
                input_fields s = p :: others ->
                dict_get (fst p) (instances mapping) = Some info' ->
                visit_key (fst p) (snd p) ∉ {[visit_key ti tf]} ∪ v ->
                exists s' rest',
                  rest = s' :: rest'
                  /\ instance_name s' = fst p
                  /\ ts_transformation_type s' = transformation_type info'
                  /\ step_order s' = (order + 1)%Z
                  /\ output_fields s' = [p]))
  /\ (forall (kinds : string -> TransformationType) (fuel : nat)
             (ti tf : string) (v : gset string) (order : Z),
        _trace_field_lineage fuel folder (with_kinds kinds mapping) ti tf
          (_build_instance_graph (with_kinds kinds mapping)) v order
        = match _trace_field_lineage fuel folder mapping ti tf
                  (_build_instance_graph mapping) v order with
          | Some (steps, visited) =>
              Some (map (step_with_kinds kinds) steps, visited)
          | None => None
          end).
Proof.
  assert (Hfirst : forall fuel ti tf v order info steps visited,
    dict_get ti (instances mapping) = Some info ->
    visit_key ti tf ∉ v ->
    _trace_field_lineage fuel folder mapping ti tf
      (_build_instance_graph mapping) v order = Some (steps, visited) ->
    exists fuel' s rest,
      fuel = S fuel'
      /\ instance_name s = ti
      /\ ts_transformation_type s = transformation_type info
      /\ step_order s = order
      /\ output_fields s = [(ti, tf)]
      /\ input_fields s
         = map from_pair (List.filter (connects_to ti tf) (connectors mapping))
      /\ trace_upstream
           (fun fi ff v1 =>
              _trace_field_lineage fuel' folder mapping fi ff
                (_build_instance_graph mapping) v1 (order + 1)%Z)
           (input_fields s) ({[visit_key ti tf]} ∪ v) [s]
         = Some (steps, visited)
      /\ steps = s :: rest).
  { intros [|fuel] ti tf v order info steps visited Hinfo Hfresh Hrun; [done|].
    cbn [_trace_field_lineage] in Hrun.
    rewrite decide_False in Hrun by done. rewrite Hinfo in Hrun.
    cbv zeta in Hrun.
    pose proof Hrun as Hpre.
    apply trace_upstream_prefix in Hpre as [more ->].
    match type of Hrun with
    | trace_upstream _ _ _ [?s] = _ => exists fuel, s, more
    end.
    split; [done|].
    split; [reflexivity|]. split; [reflexivity|]. split; [reflexivity|].
    split; [reflexivity|]. split; [apply graph_get_build|].
    split; [exact Hrun|reflexivity]. }
  split; [|split].
  - intros fuel ti tf v order info Hinfo Hkind Hnone Hfresh. clear Hfirst.
    assert (Hup : graph_get (_build_instance_graph mapping) ti tf = []).
    { rewrite graph_get_build.
      assert (Hf : List.filter (connects_to ti tf) (connectors mapping) = []).
      { clear Hinfo. induction (connectors mapping) as [|c cs IH]; [done|].
        cbn. rewrite (Hnone c) by left. apply IH.
        intros c' Hc'. apply Hnone. by right. }
      by rewrite Hf. }
    cbn [_trace_field_lineage].
    rewrite decide_False by done. rewrite Hinfo. cbv zeta. rewrite Hup.
    cbn [trace_upstream]. eexists. split; [reflexivity|].
    cbn. by rewrite Hkind.
  - intros fuel ti tf v order info steps visited Hinfo Hfresh Hrun.
    destruct (Hfirst _ _ _ _ _ _ _ _ Hinfo Hfresh Hrun)
      as (fuel' & s & rest & -> & Hn & Hk & Ho & Hout & Hinp & Hup & ->).
    exists s, rest. do 6 (split; [done|]). split.
    + intros c Hc Hconn.
      apply trace_upstream_grows in Hup as [_ Hall].
      2:{ intros fi ff v1 st1 v1' H1. exact (trace_grows _ _ _ _ _ _ _ _ _ _ H1). }
      apply (Hall (from_pair c)). rewrite Hinp.
      apply list_elem_of_fmap. exists c. split; [done|].
      apply list_elem_of_In, filter_In. split; [by apply list_elem_of_In|done].
    + intros [fi ff] others info' Hp Hinfo' Hfresh'. cbn [fst snd] in *.
      rewrite Hp in Hup. cbn [trace_upstream] in Hup.
      destruct (_trace_field_lineage fuel' folder mapping fi ff
                  (_build_instance_graph mapping) ({[visit_key ti tf]} ∪ v)
                  (order + 1)%Z) as [[st v1]|] eqn:E; [|done].
      destruct (Hfirst _ _ _ _ _ _ _ _ Hinfo' Hfresh' E)
        as (fuel'' & s' & rest1 & _ & Hn' & Hk' & Ho' & Hout' & _ & _ & ->).
      apply trace_upstream_prefix in Hup as [more Hup].
      cbn in Hup. injection Hup as ->.
      exists s', (rest1 ++ more). done.
  - intros kinds fuel ti tf v order. apply trace_with_kinds.
Qed.

Lemma trace_ignores_node_kind_witness :
  (exists s,
     _trace_field_lineage 1 empty_folder straight "SRC" "a"
       (_build_instance_graph straight) ∅ 7%Z
     = Some ([s], {[visit_key "SRC" "a"]} ∪ ∅)
     /\ instance_name s = "SRC"
     /\ ts_transformation_type s = SOURCE_DEFINITION
     /\ input_fields s = []
     /\ output_fields s = [("SRC", "a")])
  /\ (exists s s' rest' visited,
        _trace_field_lineage 3 empty_folder fed_source "SRC" "g"
          (_build_instance_graph fed_source) ∅ 0%Z
        = Some (s :: s' :: rest', visited)
        /\ ts_transformation_type s = SOURCE_DEFINITION
        /\ input_fields s = [("X", "f")]
        /\ visit_key "X" "f" ∈ visited
        /\ instance_name s' = "X"
        /\ step_order s' = 1%Z).
Proof.
  split.
  - apply (proj1 (trace_ignores_node_kind empty_folder straight)
             0 "SRC" "a" ∅ 7%Z (snd (mk_instance "SRC" SOURCE_DEFINITION))).
    + reflexivity.
    + reflexivity.
    + intros c Hc. cbn in Hc.
      repeat (apply elem_of_cons in Hc as [->|Hc]; [reflexivity|]).
      by apply elem_of_nil in Hc.
    + set_solver.
  - destruct (_trace_field_lineage 3 empty_folder fed_source "SRC" "g"
                (_build_instance_graph fed_source) ∅ 0%Z)
      as [[steps visited]|] eqn:E; [|vm_compute in E; discriminate E].
    destruct (proj1 (proj2 (trace_ignores_node_kind empty_folder fed_source))
                3 "SRC" "g" ∅ 0%Z (snd (mk_instance "SRC" SOURCE_DEFINITION))
                steps visited eq_refl ltac:(set_solver) E)
      as (s & rest & -> & Hn & Hk & Ho & Hout & Hinp & Hvis & Hnext).
    destruct (Hnext ("X", "f") [] (snd (mk_instance "X" EXPRESSION)))
      as (s' & rest' & -> & Hn' & Hk' & Ho' & Hout').
    + rewrite Hinp. reflexivity.
    + reflexivity.
    + intros Hin. apply elem_of_union in Hin as [Hin|Hin].
      * apply elem_of_singleton in Hin. vm_compute in Hin. discriminate Hin.
      * by apply elem_of_empty in Hin.
    + exists s, s', rest', visited. split; [reflexivity|].
      split; [exact Hk|]. split; [rewrite Hinp; reflexivity|].
      split; [|done].
      apply (Hvis (mk_connector "X" "f" "SRC" "g")); [by left|reflexivity].
Defined.

End InsertionFacts.

(** ** The topological sequencer *)

Section DictFacts.
Import Py.
Context {V : Type}.

Lemma dict_keys_update k (f : V -> V) d :
  dict_keys (dict_update k f d) = dict_keys d.
Proof.
  induction d as [|[k' v] d IH]; [done|]. cbn.
  destruct (String.eqb k k'); cbn; [done|]. unfold dict_keys in IH. by rewrite IH.
Qed.

Lemma dict_get_update k k' (f : V -> V) d :
  dict_get k (dict_update k' f d) =
  if String.eqb k k' then f <$> dict_get k d else dict_get k d.
Proof.
  induction d as [|[k0 v] d IH]; cbn.
  - by destruct (String.eqb k k').
  - destruct (String.eqb_spec k' k0) as [->|Hne]; cbn.
    + destruct (String.eqb_spec k k0) as [->|Hne']; [done|done].
    + destruct (String.eqb_spec k k0) as [->|Hne'].
      * destruct (String.eqb_spec k0 k'); [congruence|done].
      * exact IH.
Qed.

Lemma dict_get_is_Some (d : dict V) k :
  is_Some (dict_get k d) <-> k ∈ dict_keys d.
Proof.
  induction d as [|[k' v] d IH]; cbn.
  - split; [by intros [? ?]|by intros ?%elem_of_nil].
  - destruct (String.eqb_spec k k') as [->|Hne].
    + split; [left|eauto].
    + rewrite IH. split; [by right|].
      intros [?|?]%elem_of_cons; [congruence|done].
Qed.

Lemma dict_mem_true (d : dict V) k : dict_mem k d = true <-> k ∈ dict_keys d.
Proof.
  unfold dict_mem. rewrite <- dict_get_is_Some.
  destruct (dict_get k d); split; try done; eauto; by intros [? ?].
Qed.

Lemma str_in_true x l : str_in x l = true <-> x ∈ l.
Proof.
  induction l as [|y l IH]; cbn.
  - split; [done|by intros ?%elem_of_nil].
  - destruct (String.eqb_spec x y) as [->|Hne].
    + split; [left|done].
    + rewrite IH. split; [by right|].
      intros [?|?]%elem_of_cons; [congruence|done].
Qed.
End DictFacts.

Section DependencyFacts.
Import Py Infa.
Variable mapping : MappingInfo.
Local Abbreviation keys := (dict_keys (instances mapping)).

Lemma set_at_update d k k' f :
  k' ∈ dict_keys d \/ k <> k' ->
  set_at (dict_update k' f d) k =
  if String.eqb k k' then f (set_at d k) else set_at d k.
Proof.
  intros H. unfold set_at. rewrite dict_get_update.
  destruct (String.eqb_spec k k') as [->|Hne]; [|done].
  destruct H as [H|H]; [|done].
  apply dict_get_is_Some in H as [x ->]. done.
Qed.

Lemma empty_sets_keys : dict_keys (empty_sets mapping) = keys.
Proof.
  unfold empty_sets, dict_keys. rewrite map_map. cbn. apply map_id.
Qed.

Lemma empty_sets_at k : set_at (empty_sets mapping) k = ∅.
Proof.
  unfold set_at, empty_sets. induction keys as [|k' l IH]; [done|]. cbn.
  destruct (String.eqb k k'); [done|exact IH].
Qed.

Local Abbreviation links := (Infa.links mapping).

Lemma dependency_fold cs : forall inc out,
  dict_keys inc = keys -> dict_keys out = keys ->
  let '(inc', out') := fold_left (add_dependency mapping) cs (inc, out) in
  dict_keys inc' = keys /\ dict_keys out' = keys /\
  (forall a b, a ∈ set_at inc' b <-> a ∈ set_at inc b \/ links cs a b) /\
  (forall a b, b ∈ set_at out' a <-> b ∈ set_at out a \/ links cs a b).
Proof.
  induction cs as [|c cs IH]; intros inc out Hi Ho; cbn [fold_left].
  - split; [done|]. split; [done|].
    split; intros a b; (split; [by left|]);
      (intros [?|(_ & _ & c & Hc & _)]; [done|by apply elem_of_nil in Hc]).
  - unfold add_dependency at 2.
    destruct (dict_mem (from_instance c) (instances mapping)) eqn:Hf;
      [destruct (dict_mem (to_instance c) (instances mapping)) eqn:Ht|]; cbn [andb].
    + apply dict_mem_true in Hf, Ht.
      specialize (IH (dict_update (to_instance c)
                        (fun deps => {[from_instance c]} ∪ deps) inc)
                     (dict_update (from_instance c)
                        (fun deps => {[to_instance c]} ∪ deps) out)).
      rewrite !dict_keys_update in IH. specialize (IH Hi Ho).
      destruct (fold_left _ _ _) as [inc' out'].
      destruct IH as (K1 & K2 & K3 & K4). split; [done|]. split; [done|].
      split; intros a b.
      * rewrite K3. rewrite set_at_update by (left; by rewrite Hi).
        destruct (String.eqb_spec b (to_instance c)) as [->|Hne].
        -- rewrite elem_of_union, elem_of_singleton. split.
           ++ intros [[->|?]|(?&?&c'&?&?&?)].
              ** right. split; [done|]. split; [done|]. exists c. split; [left|done].
              ** by left.
              ** right. split; [done|]. split; [done|]. exists c'. split; [by right|done].
           ++ intros [?|(?&?&c'&[->|?]%elem_of_cons&?&?)].
              ** left; by right.
              ** left; left; done.
              ** right. split; [done|]. split; [done|]. by exists c'.
        -- split.
           ++ intros [?|(?&?&c'&?&?&?)]; [by left|].
              right. split; [done|]. split; [done|]. exists c'. split; [by right|done].
           ++ intros [?|(?&?&c'&[->|?]%elem_of_cons&?&?)]; [by left|congruence|].
              right. split; [done|]. split; [done|]. by exists c'.
      * rewrite K4. rewrite set_at_update by (left; by rewrite Ho).
        destruct (String.eqb_spec a (from_instance c)) as [->|Hne].
        -- rewrite elem_of_union, elem_of_singleton. split.
           ++ intros [[->|?]|(?&?&c'&?&?&?)].
              ** right. split; [done|]. split; [done|]. exists c. split; [left|done].
              ** by left.
              ** right. split; [done|]. split; [done|]. exists c'. split; [by right|done].
           ++ intros [?|(?&?&c'&[->|?]%elem_of_cons&?&?)].
              ** left; by right.
              ** left; left; done.
              ** right. split; [done|]. split; [done|]. by exists c'.
        -- split.
           ++ intros [?|(?&?&c'&?&?&?)]; [by left|].
              right. split; [done|]. split; [done|]. exists c'. split; [by right|done].
           ++ intros [?|(?&?&c'&[->|?]%elem_of_cons&?&?)]; [by left|congruence|].
              right. split; [done|]. split; [done|]. by exists c'.
    + assert (Hno : forall a b, links (c :: cs) a b <-> links cs a b).
      { intros a b. split.
        - intros (?&Hb&c'&[->|?]%elem_of_cons&?&<-).
          + apply dict_mem_true in Hb. congruence.
          + split; [done|]. split; [done|]. by exists c'.
        - intros (?&?&c'&?&?&?). split; [done|]. split; [done|].
          exists c'. split; [by right|done]. }
      specialize (IH inc out Hi Ho). destruct (fold_left _ _ _) as [inc' out'].
      destruct IH as (K1 & K2 & K3 & K4). split; [done|]. split; [done|].
      split; intros a b; rewrite ?K3, ?K4, Hno; done.
    + assert (Hno : forall a b, links (c :: cs) a b <-> links cs a b).
      { intros a b. split.
        - intros (Ha&Hb&c'&[->|?]%elem_of_cons&<-&?).
          + apply dict_mem_true in Ha. congruence.
          + split; [done|]. split; [done|]. by exists c'.
        - intros (?&?&c'&?&?&?). split; [done|]. split; [done|].
          exists c'. split; [by right|done]. }
      specialize (IH inc out Hi Ho). destruct (fold_left _ _ _) as [inc' out'].
      destruct IH as (K1 & K2 & K3 & K4). split; [done|]. split; [done|].
      split; intros a b; rewrite ?K3, ?K4, Hno; done.
Qed.

Lemma dependency_sets_spec :
  let '(inc, out) := dependency_sets mapping in
  dict_keys inc = keys /\ dict_keys out = keys /\
  (forall a b, a ∈ set_at inc b <-> depends mapping a b) /\
  (forall a b, b ∈ set_at out a <-> depends mapping a b).
Proof.
  unfold dependency_sets.
  pose proof (dependency_fold (connectors mapping) _ _
                empty_sets_keys empty_sets_keys) as H.
  destruct (fold_left _ _ _) as [inc out].
  destruct H as (K1 & K2 & K3 & K4). split; [done|]. split; [done|].
  split; intros a b; rewrite ?K3, ?K4, empty_sets_at; unfold depends;
    (split; [intros [H|H]; [by apply not_elem_of_empty in H|done] | by right]).
Qed.
End DependencyFacts.

Section KahnFacts.
Import Py Infa.
Variable set_iter : gset string -> list string.
Hypothesis set_iter_perm : forall s, set_iter s ≡ₚ elements s.
Variable mapping : MappingInfo.
Local Abbreviation keys := (dict_keys (instances mapping)).
Hypothesis keys_nodup : NoDup keys.
Variables inc0 out0 : dict (gset string).
Hypothesis inc0_spec : forall a b, a ∈ set_at inc0 b <-> depends mapping a b.
Hypothesis out0_spec : forall a b, b ∈ set_at out0 a <-> depends mapping a b.
Hypothesis inc0_keys : dict_keys inc0 = keys.

Local Abbreviation seen l := (list_to_set l : gset string).

Local Abbreviation kahn_inv := (Infa.kahn_inv mapping inc0).

Lemma before_snoc a b l x : before a b l -> before a b (l ++ [x]).
Proof.
  intros (l1 & l2 & l3 & ->). exists l1, l2, (l3 ++ [x]).
  rewrite <- app_assoc. cbn. by rewrite <- app_assoc.
Qed.

Lemma before_last a l x : a ∈ l -> before a x (l ++ [x]).
Proof.
  intros (l1 & l2 & ->)%list_elem_of_split. exists l1, l2, [].
  by rewrite <- app_assoc.
Qed.

Lemma release_spec node result queue0 : forall todo done inc q,
  dict_keys inc = keys ->
  (forall x, set_at inc x =
             if decide (x ∈ done)
             then set_at inc0 x ∖ seen (result ++ [node])
             else set_at inc0 x ∖ seen result) ->
  q = queue0 ++ filter (fun x => set_at inc0 x ∖ seen (result ++ [node]) = ∅) done ->
  (forall x, x ∈ todo -> x ∈ keys) ->
  NoDup (done ++ todo) ->
  let '(inc', q') := release node todo inc q in
  dict_keys inc' = keys /\
  (forall x, set_at inc' x =
             if decide (x ∈ done ++ todo)
             then set_at inc0 x ∖ seen (result ++ [node])
             else set_at inc0 x ∖ seen result) /\
  q' = queue0 ++ filter (fun x => set_at inc0 x ∖ seen (result ++ [node]) = ∅)
                        (done ++ todo).
Proof.
  induction todo as [|n todo IH]; intros done inc q Hk Hinc Hq Hin Hnd.
  - cbn. rewrite app_nil_r. done.
  - cbn [release].
    assert (Hn : n ∉ done).
    { apply NoDup_app in Hnd as (_ & Hd & _). intros H. apply (Hd _ H). left. }
    assert (Hat : forall x,
      set_at (dict_update n (fun deps => deps ∖ {[node]}) inc) x =
      if decide (x ∈ done ++ [n])
      then set_at inc0 x ∖ seen (result ++ [node])
      else set_at inc0 x ∖ seen result).
    { intros x. rewrite set_at_update.
      2:{ left. rewrite Hk. apply Hin. left. }
      rewrite Hinc. destruct (String.eqb_spec x n) as [->|Hne].
      - rewrite decide_False by done. rewrite decide_True by set_solver.
        rewrite list_to_set_app_L. set_solver.
      - destruct (decide (x ∈ done)).
        + rewrite decide_True by set_solver. done.
        + rewrite decide_False by set_solver. done. }
    specialize (IH (done ++ [n])
                   (dict_update n (fun deps => deps ∖ {[node]}) inc)
                   (if bool_decide
                         (set_at (dict_update n (fun deps => deps ∖ {[node]}) inc) n = ∅)
                    then q ++ [n] else q)).
    rewrite <- !app_assoc in IH. cbn [app] in IH. apply IH.
    + by rewrite dict_keys_update.
    + exact Hat.
    + rewrite Hat. rewrite decide_True by set_solver.
      rewrite filter_app, filter_cons, filter_nil.
      rewrite Hq, bool_decide_decide.
      destruct (decide _); [by rewrite <- app_assoc | by rewrite app_nil_r].
    + intros x Hx. apply Hin. by right.
    + done.
Qed.

Lemma set_iter_elem s x : x ∈ set_iter s <-> x ∈ s.
Proof. rewrite (set_iter_perm s). apply elem_of_elements. Qed.

Lemma set_iter_nodup s : NoDup (set_iter s).
Proof. rewrite (set_iter_perm s). apply NoDup_elements. Qed.

Lemma kahn_step inc node queue result :
  kahn_inv inc (node :: queue) result ->
  let '(inc', q') :=
    release node (set_iter (set_at out0 node)) inc queue in
  kahn_inv inc' q' (result ++ [node]).
Proof.
  intros (I1 & I2 & I3 & I4 & I5).
  pose proof (release_spec node result queue
                (set_iter (set_at out0 node)) [] inc queue I1) as R.
  cbn [app] in R.
  destruct (release node _ inc queue) as [inc' q'].
  destruct R as (R1 & R2 & R3).
  { intros x. by rewrite decide_False by apply not_elem_of_nil. }
  { by rewrite filter_nil, app_nil_r. }
  { intros x Hx. apply set_iter_elem, out0_spec in Hx. by destruct Hx as (_ & ? & _). }
  { apply set_iter_nodup. }
  assert (Hnode : node ∉ result).
  { apply NoDup_app in I3 as (_ & H & _). intros Hr. apply (H _ Hr). left. }
  assert (Hnode0 : set_at inc0 node ⊆ seen result).
  { destruct (I4 node) as [H _].
    destruct H as [_ H]; [set_solver|]. rewrite I2 in H. set_solver. }
  assert (Hnew : forall x, set_at inc' x = set_at inc0 x ∖ seen (result ++ [node])).
  { intros x. rewrite R2. destruct (decide _) as [|Hx]; [done|].
    rewrite set_iter_elem, out0_spec, <- inc0_spec in Hx.
    rewrite list_to_set_app_L. set_solver. }
  assert (Hfresh : forall x, x ∈ set_iter (set_at out0 node) ->
                             x ∉ result ++ node :: queue).
  { intros x Hx Hin. apply set_iter_elem, out0_spec, inc0_spec in Hx.
    apply I4 in Hin as [_ Hin]. rewrite I2 in Hin. set_solver. }
  assert (Hre : forall f : list string,
             (result ++ [node]) ++ queue ++ f = (result ++ node :: queue) ++ f).
  { intros f. by rewrite <- !app_assoc. }
  split; [done|]. split; [done|]. split; [|split].
  - rewrite R3, Hre. apply NoDup_app. split; [done|]. split.
    + intros x Hx Hx'. apply list_elem_of_filter in Hx' as [_ Hx'].
      by apply (Hfresh _ Hx').
    + apply NoDup_filter, set_iter_nodup.
  - intros x. rewrite Hnew, R3, Hre. split.
    + intros [Hx|Hx]%elem_of_app.
      * apply I4 in Hx as [Hk He]. split; [done|].
        rewrite I2 in He. rewrite list_to_set_app_L. set_solver.
      * apply list_elem_of_filter in Hx as [He Hx]. split; [|done].
        apply set_iter_elem, out0_spec in Hx. by destruct Hx as (_ & ? & _).
    + intros [Hk He]. apply elem_of_app.
      destruct (decide (set_at inc x = ∅)) as [Hold|Hold].
      * left. by apply I4.
      * right. rewrite I2 in Hold.
        assert (Hn : node ∈ set_at inc0 x).
        { rewrite list_to_set_app_L in He.
          apply set_choose_L in Hold as [a Ha].
          apply elem_of_difference in Ha as [Ha1 Ha2].
          destruct (decide (a ∈ (list_to_set [node] : gset string)))
            as [Ha3|Ha3].
          - apply elem_of_list_to_set, list_elem_of_singleton in Ha3 as ->.
            done.
          - exfalso. apply (not_elem_of_empty (C:=gset string) a).
            rewrite <- He. apply elem_of_difference. split; [done|].
            intros [?|?]%elem_of_union; done. }
        apply list_elem_of_filter. split; [done|].
        by apply set_iter_elem, out0_spec, inc0_spec.
  - intros a x Hx Hdep. apply elem_of_app in Hx as [Hx|Hx].
    + apply before_snoc. by apply I5.
    + apply list_elem_of_singleton in Hx as ->.
      apply before_last. apply inc0_spec in Hdep.
      apply Hnode0 in Hdep. by apply elem_of_list_to_set in Hdep.
Qed.

Lemma kahn_inv_length inc queue result :
  kahn_inv inc queue result -> length result + length queue <= length keys.
Proof.
  intros (_ & _ & I3 & I4 & _). rewrite <- length_app.
  apply submseteq_length, NoDup_submseteq; [done|].
  intros x Hx. by apply I4 in Hx as [? _].
Qed.

Lemma kahn_loop_spec fuel : forall inc queue result,
  kahn_inv inc queue result ->
  length keys - length result < fuel ->
  exists main inc',
    kahn_loop set_iter fuel out0 inc queue result = Some main /\
    kahn_inv inc' [] main.
Proof.
  induction fuel as [|fuel IH]; intros inc queue result Hinv Hfuel; [lia|].
  destruct queue as [|node queue]; cbn [kahn_loop]; [eauto|].
  pose proof (kahn_inv_length _ _ _ Hinv) as Hlen. cbn [length] in Hlen.
  pose proof (kahn_step _ _ _ _ Hinv) as Hstep.
  destruct (release node _ inc queue) as [inc' q'].
  apply (IH _ _ _ Hstep). rewrite length_app. cbn [length]. lia.
Qed.

Lemma initial_no_incoming_spec (d : dict (gset string)) :
  NoDup (dict_keys d) ->
  NoDup (initial_no_incoming d) /\
  forall x, x ∈ initial_no_incoming d <-> x ∈ dict_keys d /\ set_at d x = ∅.
Proof.
  unfold initial_no_incoming, set_at.
  induction d as [|[k v] d IH]; cbn [dict_keys map fst List.filter dict_get snd].
  - intros _. split; [constructor|]. intros x. split.
    + by intros ?%elem_of_nil.
    + by intros [?%elem_of_nil _].
  - intros [Hk Hd]%NoDup_cons. destruct (IH Hd) as [IH1 IH2]. clear IH.
    assert (Hk' : k ∉ map fst (List.filter
               (fun kv : string * gset string => bool_decide (kv.2 = ∅)) d)).
    { intros H. apply IH2 in H as [H _]. done. }
    split.
    + case_bool_decide; cbn [map fst]; [|done]. by apply NoDup_cons.
    + intros x. destruct (String.eqb_spec x k) as [->|Hne].
      * cbn [default]. case_bool_decide as Hb; cbn [map fst].
        -- split; [intros _; split; [left|done]|left].
        -- split; [done|]. by intros [_ ?].
      * case_bool_decide as Hb; cbn [map fst]; rewrite ?elem_of_cons, IH2;
          fold (dict_keys d); split; intros Hx; tauto.
Qed.

Lemma kahn_inv_initial : kahn_inv inc0 (initial_no_incoming inc0) [].
Proof.
  destruct (initial_no_incoming_spec inc0) as [H1 H2];
    [by rewrite inc0_keys|].
  split; [done|]. split; [|split; [done|split]].
  - intros x. cbn. set_solver.
  - intros x. cbn [app]. rewrite H2, inc0_keys. done.
  - intros a x Hx. by apply elem_of_nil in Hx.
Qed.

Lemma residual_elem names result x :
  x ∈ residual names result <-> x ∈ names /\ x ∉ result.
Proof.
  unfold residual. rewrite list_elem_of_In, filter_In, <- list_elem_of_In.
  rewrite negb_true_iff, <- not_true_iff_false, str_in_true. done.
Qed.

Lemma append_remaining_spec names : forall result,
  NoDup names ->
  append_remaining names result = result ++ residual names result.
Proof.
  unfold append_remaining, residual.
  induction names as [|k ks IH]; intros result Hnd; cbn [fold_left List.filter].
  - by rewrite app_nil_r.
  - apply NoDup_cons in Hnd as [Hk Hks].
    destruct (str_in k result) eqn:Hin; cbn [negb]; [by apply IH|].
    rewrite IH by done. rewrite <- app_assoc. cbn [app]. do 2 f_equal.
    apply filter_ext_in. intros x Hx. f_equal.
    apply eq_true_iff_eq. rewrite !str_in_true, elem_of_app, list_elem_of_singleton.
    apply list_elem_of_In in Hx. split; [|by left].
    intros [? | ->]; done.
Qed.
End KahnFacts.

Section Cycles.
(** In a finite non-empty set in which every element has a predecessor in
    the set, some element reaches itself. *)
Lemma exists_cycle (n : nat) : forall (E : relation string) (R : gset string),
  size R = n -> R <> ∅ ->
  (forall x, x ∈ R -> exists y, y ∈ R /\ E y x) ->
  exists z, tc E z z.
Proof.
  induction n as [|n IH]; intros E R Hsize Hne Hpred.
  - apply size_empty_inv in Hsize. by apply leibniz_equiv in Hsize.
  - apply set_choose_L in Hne as [x Hx].
    destruct (Hpred x Hx) as (y & Hy & Hyx).
    destruct (decide (y = x)) as [->|Hneq]; [exists x; by apply tc_once|].
    assert (Hy' : y ∈ R ∖ {[x]}) by set_solver.
    assert (Hsz : size (R ∖ {[x]}) = n).
    { rewrite size_difference by set_solver. rewrite size_singleton. lia. }
    assert (Hne' : R ∖ {[x]} <> ∅) by set_solver.
    assert (Hpred' : forall z, z ∈ R ∖ {[x]} ->
              exists w, w ∈ R ∖ {[x]} /\ (E w z \/ (E w x /\ E x z))).
    { intros z Hz. destruct (Hpred z) as (w & Hw & Hwz); [set_solver|].
      destruct (decide (w = x)) as [->|Hwx].
      - exists y. split; [done|]. right. done.
      - exists w. split; [|by left].
        apply elem_of_difference. split; [done|]. by rewrite elem_of_singleton. }
    destruct (IH (fun a b => E a b \/ (E a x /\ E x b)) _ Hsz Hne' Hpred')
      as [z Hz].
    exists z.
    assert (Hsub : forall a b,
              tc (fun a b => E a b \/ (E a x /\ E x b)) a b -> tc E a b).
    { clear. intros a b H. induction H as [a b Hab|a b c Hab _ IH'].
      - destruct Hab as [?|[? ?]]; [by apply tc_once|].
        eapply tc_l; [eassumption|by apply tc_once].
      - destruct Hab as [?|[? ?]].
        + eapply tc_l; eassumption.
        + eapply tc_l; [eassumption|]. eapply tc_l; eassumption. }
    by apply Hsub.
Qed.
End Cycles.

Section OrderFacts.
Import Py Infa InfaScenarios.

Lemma kahn_loop_fuel_mono set_iter out n : forall k inc queue result r,
  kahn_loop set_iter n out inc queue result = Some r ->
  kahn_loop set_iter (n + k) out inc queue result = Some r.
Proof.
  induction n as [|n IH]; intros k inc queue result r; [done|].
  cbn [kahn_loop Nat.add]. destruct queue as [|node queue]; [done|].
  destruct (release _ _ _ _). apply IH.
Qed.

Lemma rank_acyclic mapping (rank : string -> nat) :
  (forall a b, depends mapping a b -> rank a < rank b) -> acyclic mapping.
Proof.
  intros Hrank x Hx.
  assert (H : forall a b, tc (depends mapping) a b -> rank a < rank b).
  { intros a b Hab. induction Hab as [a b Hab|a b c Hab _ IH].
    - by apply Hrank.
    - apply Hrank in Hab. lia. }
  apply H in Hx. lia.
Qed.

Lemma acyclic_no_residual mapping inc0 inc main :
  (forall a b, a ∈ set_at inc0 b <-> depends mapping a b) ->
  acyclic mapping ->
  kahn_inv mapping inc0 inc [] main ->
  forall x, x ∈ dict_keys (instances mapping) -> x ∈ main.
Proof.
  intros Hinc0 Hacyc (I1 & I2 & I3 & I4 & I5) x Hx.
  destruct (decide (x ∈ main)) as [|Hnot]; [done|]. exfalso.
  set (R := list_to_set (residual (dict_keys (instances mapping)) main)
            : gset string).
  assert (HR : forall z, z ∈ R <-> z ∈ dict_keys (instances mapping) /\ z ∉ main).
  { intros z. unfold R. rewrite elem_of_list_to_set. apply residual_elem. }
  destruct (exists_cycle (size R) (depends mapping) R eq_refl) as [z Hz].
  - intros HE. assert (x ∈ R) by (apply HR; done). set_solver.
  - intros z [Hk Hz]%HR.
    assert (Hne : set_at inc z <> ∅).
    { intros He. apply Hz. specialize (I4 z). rewrite app_nil_r in I4.
      apply I4. done. }
    apply set_choose_L in Hne as [a Ha]. rewrite I2 in Ha.
    apply elem_of_difference in Ha as [Ha Ha'].
    apply Hinc0 in Ha. exists a. split; [|done].
    apply HR. split; [by destruct Ha as (? & _)|].
    intros Hin. apply Ha'. by apply elem_of_list_to_set.
  - by apply (Hacyc z).
Qed.

(** C2: for every mapping (cyclic or not) and every iteration order of the
    successor sets, the sequencer terminates, given one iteration of fuel
    per instance plus one, and returns [main ++ residual]: the nodes
    released by the main loop followed by the unresolved ones in the
    insertion order of [mapping.instances].  The result is a permutation
    of the instance names, so every node occurs exactly once.  Every node
    released by the main loop comes after all the nodes it depends on, and
    in an acyclic mapping every connector [a -> b] between two instances
    has [a] before [b].  The cycle A -> B -> C -> A yields [A; B; C]. *)
Theorem transformation_order_valid (set_iter : gset string -> list string)
    (mapping : MappingInfo) :
  (forall s, set_iter s ≡ₚ elements s) ->
  NoDup (dict_keys (instances mapping)) ->
  (exists main,
     let names := dict_keys (instances mapping) in
     let result := main ++ residual names main in
     (forall k, _get_transformation_order set_iter
                  (S (length (instances mapping)) + k) mapping = Some result) /\
     result ≡ₚ names /\
     NoDup result /\
     (forall a b, b ∈ main -> depends mapping a b -> before a b result) /\
     (acyclic mapping ->
      forall a b, depends mapping a b -> before a b result)) /\
  (forall k, _get_transformation_order set_iter (S k) cycle3
             = Some ["A"; "B"; "C"]).
Proof.
  intros Hiter Hnd. split; [|reflexivity].
  pose proof (dependency_sets_spec mapping) as Hdeps.
  unfold _get_transformation_order.
  destruct (dependency_sets mapping) as [inc0 out0].
  destruct Hdeps as (K1 & K2 & K3 & K4).
  pose proof (kahn_inv_initial set_iter Hiter mapping Hnd inc0 out0 K3 K4 K1)
    as Hinit.
  destruct (kahn_loop_spec set_iter Hiter mapping Hnd inc0 out0 K3 K4 K1
              (S (length (instances mapping))) _ _ _ Hinit)
    as (main & inc' & Hrun & Hinv).
  { unfold dict_keys. rewrite length_map. cbn [length]. lia. }
  exists main. cbv zeta.
  pose proof Hinv as (I1 & I2 & I3 & I4 & I5).
  rewrite app_nil_r in I3.
  assert (Hres_nd : NoDup (main ++ residual (dict_keys (instances mapping)) main)).
  { apply NoDup_app. split; [done|]. split.
    - intros x Hx [_ Hx']%residual_elem. done.
    - unfold residual. by apply NoDup_ListNoDup, List.NoDup_filter, NoDup_ListNoDup. }
  assert (Hbefore_res : forall a b l, before a b main -> before a b (main ++ l)).
  { intros a b l (l1 & l2 & l3 & ->). exists l1, l2, (l3 ++ l).
    rewrite <- app_assoc. cbn. by rewrite <- app_assoc. }
  split; [|split; [|split; [done|split]]].
  - intros k. rewrite (kahn_loop_fuel_mono _ _ _ k _ _ _ _ Hrun).
    by rewrite append_remaining_spec.
  - apply NoDup_Permutation; [done|done|].
    intros x. rewrite elem_of_app, residual_elem. split.
    + intros [Hx|[Hx _]]; [|done]. specialize (I4 x). rewrite app_nil_r in I4.
      by apply I4 in Hx as [? _].
    + intros Hx. destruct (decide (x ∈ main)); [by left|by right].
  - intros a b Hb Hdep. apply Hbefore_res. by apply I5.
  - intros Hacyc a b Hdep. apply Hbefore_res. apply I5; [|done].
    eapply acyclic_no_residual; eauto. by destruct Hdep as (_ & ? & _).
Qed.

Lemma transformation_order_valid_witness :
  (exists main,
     let names := dict_keys (instances straight) in
     let result := main ++ residual names main in
     (forall k, _get_transformation_order elements
                  (S (length (instances straight)) + k) straight = Some result) /\
     result ≡ₚ names /\
     NoDup result /\
     (forall a b, b ∈ main -> depends straight a b -> before a b result) /\
     (forall a b, depends straight a b -> before a b result)) /\
  (forall k, _get_transformation_order elements (S k) cycle3
             = Some ["A"; "B"; "C"]).
Proof.
  destruct (transformation_order_valid elements straight) as [(main & H) Hc].
  - intros s. reflexivity.
  - cbn. repeat (apply NoDup_cons; split; [set_solver|]). apply NoDup_nil. done.
  - split; [|exact Hc]. exists main. cbv zeta in *.
    destruct H as (H1 & H2 & H3 & H4 & H5).
    split; [done|]. split; [done|]. split; [done|]. split; [done|].
    apply H5. apply (rank_acyclic straight straight_rank).
    intros a b (_ & _ & c & Hc' & <- & <-). cbn in Hc'.
    repeat (apply elem_of_cons in Hc' as [->|Hc']; [cbn; lia|]).
    by apply elem_of_nil in Hc'.
Defined.
End OrderFacts.

(** ** Procedure calls in embedded SQL *)

Section CallFacts.
Import Py Infa InfaScenarios.

(** C7: call detection tries the patterns CALL, EXECUTE, BEGIN and ODBC
    [{call}] in that order and returns the groups of the first pattern
    that matches anywhere in the text, so
    ["BEGIN PKG.GET_KEY(:1,:2); END;"] gives [("PKG", "GET_KEY")] (and a
    later CALL wins over an earlier BEGIN).  Whenever the embedded SQL
    matches a call pattern, [_parse_sql_lineage] returns exactly one
    edge, with source column ["*"], confidence 1.0 and type Stored
    Procedure, whatever the SQL parser would say of the text: the parser
    is not consulted. *)
Theorem procedure_call_short_circuit :
  detect_stored_procedure_call "BEGIN PKG.GET_KEY(:1,:2); END;"
    = Some ("PKG", "GET_KEY")
  /\ detect_stored_procedure_call "BEGIN a.b(1); END; CALL c.d(2)"
    = Some ("c", "d")
  /\ detect_stored_procedure_call "{ call get_key(?) }" = Some ("", "get_key")
  /\ detect_stored_procedure_call "SELECT ID FROM CUSTOMERS" = None
  /\ (forall sql,
        detect_stored_procedure_call sql =
        match Regex.search pattern_call sql with
        | Some (_, _, caps) =>
            Some (default "" (Regex.group 1 caps), default "" (Regex.group 2 caps))
        | None =>
        match Regex.search pattern_execute sql with
        | Some (_, _, caps) =>
            Some (default "" (Regex.group 1 caps), default "" (Regex.group 2 caps))
        | None =>
        match Regex.search pattern_begin sql with
        | Some (_, _, caps) =>
            Some (default "" (Regex.group 1 caps), default "" (Regex.group 2 caps))
        | None =>
        match Regex.search pattern_odbc sql with
        | Some (_, _, caps) =>
            Some (default "" (Regex.group 1 caps), default "" (Regex.group 2 caps))
        | None => None
        end end end end)
  /\ (forall parse_one folder sql target_table target_col step schema proc_name,
        detect_stored_procedure_call sql = Some (schema, proc_name) ->
        exists e,
          _parse_sql_lineage parse_one folder sql target_table target_col step
            = [e]
          /\ source_column e = "*"
          /\ confidence_score e = 1%Q
          /\ cle_transformation_type e = STORED_PROCEDURE
          /\ source_dataset e =
               (if truthy schema then schema +:+ "." +:+ proc_name else proc_name)
          /\ target_dataset e = target_table
          /\ target_column e = target_col
          /\ cle_step_order e = step_order step
          /\ transformation_expression e =
               Some (if truthy schema
                     then "CALL " +:+ schema +:+ "." +:+ proc_name
                     else "CALL " +:+ proc_name)).
Proof.
  split; [by vm_compute|]. split; [by vm_compute|]. split; [by vm_compute|].
  split; [by vm_compute|]. split.
  - intros sql. unfold detect_stored_procedure_call, patterns. cbn [first_call].
    repeat (destruct (Regex.search _ sql) as [[[? ?] ?]|]; [reflexivity|]).
    reflexivity.
  - intros parse_one folder sql tt tc step schema proc Hd.
    unfold _parse_sql_lineage. rewrite Hd. eexists. split; [reflexivity|].
    cbn. done.
Qed.

Lemma procedure_call_short_circuit_witness :
  exists e,
    _parse_sql_lineage (fun _ => None) empty_folder
      "BEGIN PKG.GET_KEY(:1,:2); END;" "TGT" "KEY" some_step = [e]
    /\ source_column e = "*"
    /\ confidence_score e = 1%Q
    /\ cle_transformation_type e = STORED_PROCEDURE
    /\ source_dataset e = "PKG.GET_KEY"
    /\ target_dataset e = "TGT"
    /\ target_column e = "KEY"
    /\ cle_step_order e = 2%Z
    /\ transformation_expression e = Some "CALL PKG.GET_KEY".
Proof.
  destruct procedure_call_short_circuit as (H1 & _ & _ & _ & _ & H).
  exact (H (fun _ => None) empty_folder _ "TGT" "KEY" some_step _ _ H1).
Defined.
End CallFacts.

(** ** Column resolution in query projections *)

Section SqlFacts.
Import Py Infa InfaScenarios.

Lemma inner_candidates (T : string) (column_name : string) (names : list string) :
  NoDup (map upper names) ->
  flat_map (fun field_name =>
              if String.eqb (upper field_name) (upper column_name)
              then [T] else []) names
  = if existsb (fun field_name =>
                  String.eqb (upper field_name) (upper column_name)) names
    then [T] else [].
Proof.
  induction names as [|n names IH]; cbn [map flat_map existsb]; [done|].
  intros [Hn Hnd]%NoDup_cons. rewrite (IH Hnd).
  destruct (String.eqb_spec (upper n) (upper column_name)) as [He|Hne]; [|done].
  cbn [orb app].
  destruct (existsb _ names) eqn:Hex; [|done]. exfalso.
  apply existsb_exists in Hex as (m & Hm & Hm').
  apply String.eqb_eq in Hm'. apply Hn. rewrite He, <- Hm'.
  apply list_elem_of_In, in_map, Hm.
Qed.

Lemma candidates_are_holders column_name (source_tables : SourceTables) :
  (forall entry, entry ∈ source_tables ->
                 NoDup (map upper (dict_keys (snd entry)))) ->
  column_candidates column_name source_tables = holders column_name source_tables.
Proof.
  unfold column_candidates, holders, table_has_column.
  induction source_tables as [|[T fields] st IH]; intros Hnd; [done|].
  cbn [flat_map List.filter map fst snd].
  rewrite IH by (intros e He; apply Hnd; by right).
  rewrite inner_candidates by (apply (Hnd (T, fields)); left).
  by destruct (existsb _ _).
Qed.

Lemma upstream_columns_fold source_refs source_tables cols : forall acc,
  fold_left
    (fun upstream_cols col =>
       match resolve_column source_refs source_tables col with
       | Some resolved_table => upstream_cols ++ [(resolved_table, col_name col)]
       | None => upstream_cols
       end) cols acc
  = acc ++ flat_map
             (fun col =>
                match resolve_column source_refs source_tables col with
                | Some resolved_table => [(resolved_table, col_name col)]
                | None => []
                end) cols.
Proof.
  induction cols as [|c cols IH]; intros acc; cbn [fold_left flat_map].
  - by rewrite app_nil_r.
  - rewrite IH. destruct (resolve_column source_refs source_tables c) as [t|].
    + by rewrite <- app_assoc.
    + done.
Qed.

Lemma elem_of_upstream_columns source_refs source_tables cols p :
  p ∈ upstream_columns source_refs source_tables cols <->
  exists col, col ∈ cols /\
              resolve_column source_refs source_tables col = Some (fst p) /\
              snd p = col_name col.
Proof.
  unfold upstream_columns. rewrite upstream_columns_fold. cbn [app].
  rewrite list_elem_of_In, in_flat_map. split.
  - intros (c & Hc & Hr). exists c. split; [by apply list_elem_of_In|].
    destruct (resolve_column _ _ c); [|done].
    destruct Hr as [<-|[]]. done.
  - intros (c & Hc & Hr & Hn). exists c. split; [by apply list_elem_of_In|].
    rewrite Hr. left. destruct p; cbn in *. by rewrite Hn.
Qed.

Lemma candidates_are_matches column_name (source_tables : SourceTables) :
  column_candidates column_name source_tables
  = map fst (field_matches column_name source_tables).
Proof.
  unfold column_candidates, field_matches.
  induction source_tables as [|[T fields] st IH]; [done|].
  cbn [flat_map fst snd]. rewrite map_app, IH. f_equal.
  induction (dict_keys fields) as [|n names IHn]; [done|].
  cbn [flat_map List.filter].
  destruct (String.eqb (upper n) (upper column_name)); cbn [map app fst];
    by rewrite IHn.
Qed.

Lemma table_has_column_matches (T : string) (fields : dict FieldInfo)
    (column_name : string) :
  map (fun field_name : string => (T, field_name))
      (List.filter
         (fun field_name => String.eqb (upper field_name) (upper column_name))
         (dict_keys fields)) = []
  <-> table_has_column fields column_name = false.
Proof.
  unfold table_has_column.
  induction (dict_keys fields) as [|n names IH]; cbn [List.filter existsb map];
    [done|].
  destruct (String.eqb (upper n) (upper column_name)); cbn [map orb]; [done|].
  exact IH.
Qed.

(** No holder: no match; one holder: all matches are in it, and there is
    one at least; several holders: several matches. *)
Lemma matches_by_holders column_name (source_tables : SourceTables) :
  match holders column_name source_tables with
  | [] => field_matches column_name source_tables = []
  | [T] => exists f fs, field_matches column_name source_tables = (T, f) :: fs
  | _ :: _ :: _ =>
      exists a b l, field_matches column_name source_tables = a :: b :: l
  end.
Proof.
  unfold holders, field_matches.
  induction source_tables as [|[T fields] st IH]; [done|].
  cbn [flat_map List.filter map fst snd].
  pose proof (table_has_column_matches T fields column_name) as Hm.
  destruct (table_has_column fields column_name).
  - destruct (map _ (List.filter _ (dict_keys fields))) as [|[T' f] ms] eqn:E.
    { discriminate (proj1 Hm eq_refl). }
    assert (T' = T) as ->.
    { assert (Hin : (T', f) ∈
        map (fun field_name : string => (T, field_name))
          (List.filter
             (fun field_name => String.eqb (upper field_name) (upper column_name))
             (dict_keys fields))) by (rewrite E; left).
      apply list_elem_of_In, in_map_iff in Hin as (? & [= <- _] & _). done. }
    cbn [map fst app].
    destruct (map fst (List.filter _ st)) as [|T1 [|T2 hs]].
    + rewrite IH, app_nil_r. eauto.
    + destruct IH as (f1 & fs1 & ->).
      destruct ms as [|m ms]; cbn [app]; eauto.
    + destruct IH as (a & b & l & ->).
      destruct ms as [|m ms]; cbn [app]; eauto.
  - rewrite (proj2 Hm eq_refl). exact IH.
Qed.

Lemma select_loop_spec source_refs source_tables expressions : forall i r,
  r ∈ select_loop source_refs source_tables i expressions <->
  exists j select_expr,
    expressions !! j = Some select_expr /\
    r ∈ select_results source_refs source_tables (i + j) select_expr.
Proof.
  induction expressions as [|se rest IH]; intros i r; cbn [select_loop].
  - split; [by intros ?%elem_of_nil|]. by intros (j & x & ? & _).
  - rewrite elem_of_app, IH. split.
    + intros [Hr|(j & x & Hj & Hr)].
      * exists 0, se. rewrite Nat.add_0_r. done.
      * exists (S j), x. rewrite Nat.add_succ_r. done.
    + intros ([|j] & x & Hj & Hr).
      * injection Hj as <-. rewrite Nat.add_0_r in Hr. by left.
      * right. exists j, x. rewrite Nat.add_succ_r in Hr. done.
Qed.

(** C3 (as stated, refuted): the column [ID] belongs to the two known
    tables [A] and [B]; the query [SELECT ID FROM A] references one table,
    so the unqualified [ID] is attributed to [A] without a look at the
    field sets: the upstream pair [(A, ID)] and a lineage edge on column
    [ID] are produced. *)
Lemma ambiguous_column_attributed :
  holders "ID" two_tables = ["A"; "B"]
  /\ parse_sql (fun _ => Some select_id_from_a) "SELECT ID FROM A" two_tables
     = [([("A", "ID")], "ID", Some "ID")]
  /\ map (fun e => (source_dataset e, source_column e, confidence_score e))
         (_parse_sql_lineage (fun _ => Some select_id_from_a) two_sources
            "SELECT ID FROM A" "TGT" "ID" some_step)
     = [("A", "ID", sql_confidence)]
  /\ ~ resolves_by_field_sets.
Proof.
  split; [by vm_compute|]. split; [by vm_compute|]. split; [by vm_compute|].
  intros H.
  specialize (H [("A", "A")] two_tables {| col_name := "ID"; col_table := "" |}
                eq_refl).
  vm_compute in H. discriminate H.
Qed.

(** C3 (amended): an unqualified column reference of a query that
    references exactly one table alias is attributed to that table,
    whatever the field sets.  Otherwise the fields of the known tables
    are matched against the column name up to case: the column resolves
    to a table exactly when one field in all matches, that table's, and
    the table's name is not empty.  So it is excluded when no known table
    or more than one holds it, and also when the single table that holds
    it lists it twice up to case; over known tables with non-empty names
    and field names distinct up to case it resolves to the single table
    that holds it.  The upstream pairs of a projection are exactly the
    resolved references, and a projection (other than [*]) whose
    references are all excluded yields no result.  Of a parsed SELECT in
    which no procedure call is detected, every lineage edge comes from a
    [*] projection and a field of a known table, or takes its source
    column and its source dataset from a column reference of a projection
    that resolved to a source of the folder; and every such reference, in
    a projection whose output column is the target column up to case,
    gives an edge.  An excluded reference gives none. *)
Theorem unqualified_column_resolution (source_refs : dict string)
    (source_tables : SourceTables) (col : SqlColumn) :
  col_table col = "" ->
  (length source_refs <> 1%nat ->
   resolve_column source_refs source_tables col =
   match field_matches (col_name col) source_tables with
   | [(table_name, _)] => if truthy table_name then Some table_name else None
   | _ => None
   end)
  /\ (length source_refs <> 1%nat ->
      match holders (col_name col) source_tables with
      | [table_name] =>
          resolve_column source_refs source_tables col =
          if (Nat.eqb (length (field_matches (col_name col) source_tables)) 1
              && truthy table_name)%bool
          then Some table_name else None
      | _ => resolve_column source_refs source_tables col = None
      end)
  /\ (length source_refs <> 1%nat ->
      (forall entry, entry ∈ source_tables ->
                     NoDup (map upper (dict_keys (snd entry)))) ->
      (forall entry, entry ∈ source_tables -> fst entry <> "") ->
      resolve_column source_refs source_tables col =
      match holders (col_name col) source_tables with
      | [table_name] => Some table_name
      | _ => None
      end)
  /\ (forall alias table_name,
        source_refs = [(alias, table_name)] ->
        resolve_column source_refs source_tables col =
        if truthy table_name then Some table_name else None)
  /\ (forall cols p,
        p ∈ upstream_columns source_refs source_tables cols <->
        exists c, c ∈ cols /\
                  resolve_column source_refs source_tables c = Some (fst p) /\
                  snd p = col_name c)
  /\ (forall i select_expr,
        sel_kind select_expr <> IsStar ->
        (forall c, c ∈ sel_columns select_expr ->
                   resolve_column source_refs source_tables c = None) ->
        select_results source_refs source_tables i select_expr = [])
  /\ (forall i select_expr r,
        sel_kind select_expr <> IsStar ->
        r ∈ select_results source_refs source_tables i select_expr ->
        fst (fst r) =
        upstream_columns source_refs source_tables (sel_columns select_expr))
  /\ (forall parse_one folder sql target_table target_col step tables
             expressions e,
        detect_stored_procedure_call sql = None ->
        parse_one sql = Some (PSelect tables expressions) ->
        e ∈ _parse_sql_lineage parse_one folder sql target_table target_col step ->
        let known :=
          map (fun entry : string * SourceDefinition =>
                 (fst entry, sd_fields (snd entry))) (sources folder) in
        let refs := fold_left (add_source_ref known) tables [] in
        exists j select_expr,
          expressions !! j = Some select_expr
          /\ ((sel_kind select_expr = IsStar
               /\ exists table_name source_def,
                    (table_name, source_def) ∈ sources folder
                    /\ source_column e ∈ dict_keys (sd_fields source_def)
                    /\ upper (source_column e) = upper target_col
                    /\ is_Some (dict_get table_name (sources folder)))
              \/ (sel_kind select_expr <> IsStar
                  /\ upper (output_column j select_expr) = upper target_col
                  /\ exists c table_name source_def,
                       c ∈ sel_columns select_expr
                       /\ resolve_column refs known c = Some table_name
                       /\ dict_get table_name (sources folder) = Some source_def
                       /\ source_column e = col_name c
                       /\ source_dataset e
                          = _build_source_dataset_name source_def
                       /\ confidence_score e = sql_confidence)))
  /\ (forall parse_one folder sql target_table target_col step tables
             expressions j select_expr c table_name source_def,
        detect_stored_procedure_call sql = None ->
        parse_one sql = Some (PSelect tables expressions) ->
        let known :=
          map (fun entry : string * SourceDefinition =>
                 (fst entry, sd_fields (snd entry))) (sources folder) in
        let refs := fold_left (add_source_ref known) tables [] in
        expressions !! j = Some select_expr ->
        sel_kind select_expr <> IsStar ->
        upper (output_column j select_expr) = upper target_col ->
        c ∈ sel_columns select_expr ->
        resolve_column refs known c = Some table_name ->
        dict_get table_name (sources folder) = Some source_def ->
        exists e,
          e ∈ _parse_sql_lineage parse_one folder sql target_table target_col
                step
          /\ source_column e = col_name c
          /\ source_dataset e = _build_source_dataset_name source_def
          /\ target_column e = target_col
          /\ confidence_score e = sql_confidence).
Proof.
  intros Hunq.
  assert (Hrule : length source_refs <> 1%nat ->
    resolve_column source_refs source_tables col =
    match field_matches (col_name col) source_tables with
    | [(table_name, _)] => if truthy table_name then Some table_name else None
    | _ => None
    end).
  { intros Hlen. unfold resolve_column. rewrite Hunq. cbn [truthy].
    destruct (Nat.eqb_spec (length source_refs) 1) as [|_]; [done|].
    unfold _resolve_column_table. rewrite candidates_are_matches.
    by destruct (field_matches (col_name col) source_tables)
      as [|[T f] [|? ?]]. }
  assert (Hhold : length source_refs <> 1%nat ->
    match holders (col_name col) source_tables with
    | [table_name] =>
        resolve_column source_refs source_tables col =
        if (Nat.eqb (length (field_matches (col_name col) source_tables)) 1
            && truthy table_name)%bool
        then Some table_name else None
    | _ => resolve_column source_refs source_tables col = None
    end).
  { intros Hlen. rewrite (Hrule Hlen).
    pose proof (matches_by_holders (col_name col) source_tables) as Hm.
    destruct (holders (col_name col) source_tables) as [|T [|T2 hs]].
    - by rewrite Hm.
    - destruct Hm as (f & fs & ->). by destruct fs.
    - by destruct Hm as (a & b & l & ->); destruct a. }
  split; [exact Hrule|]. split; [exact Hhold|].
  split; [|split; [|split; [|split; [|split; [|split]]]]].
  - intros Hlen Hnd Hne. unfold resolve_column. rewrite Hunq. cbn [truthy].
    destruct (Nat.eqb_spec (length source_refs) 1) as [|_]; [done|].
    unfold _resolve_column_table. rewrite candidates_are_holders by done.
    destruct (holders (col_name col) source_tables) as [|T [|? ?]] eqn:Hh;
      [done| |done].
    assert (HT : T ∈ holders (col_name col) source_tables)
      by (rewrite Hh; left).
    unfold holders in HT. apply list_elem_of_In, in_map_iff in HT
      as (entry & <- & He). apply filter_In in He as [He _].
    apply list_elem_of_In in He. specialize (Hne _ He).
    destruct (fst entry); [done|done].
  - intros alias T ->. unfold resolve_column. rewrite Hunq. cbn.
    done.
  - intros cols p. apply elem_of_upstream_columns.
  - intros i se Hkind Hnone. unfold select_results.
    assert (Hup : upstream_columns source_refs source_tables (sel_columns se) = []).
    { destruct (upstream_columns _ _ _) as [|p l] eqn:Hu; [done|].
      assert (Hp : p ∈ upstream_columns source_refs source_tables (sel_columns se))
        by (rewrite Hu; left).
      apply elem_of_upstream_columns in Hp as (c & Hc & Hr & _).
      rewrite (Hnone c Hc) in Hr. done. }
    rewrite Hup. by destruct (sel_kind se).
  - intros i se r Hkind Hr. unfold select_results in Hr.
    destruct (upstream_columns source_refs source_tables (sel_columns se))
      as [|p l] eqn:Hu.
    + destruct (sel_kind se); try done; by apply elem_of_nil in Hr.
    + destruct (sel_kind se); try done;
        apply list_elem_of_singleton in Hr as ->; done.
  - intros parse_one folder sql tt tc step tables expressions e Hd Hparse He
           known refs.
    unfold _parse_sql_lineage in He. rewrite Hd in He.
    apply list_elem_of_In, in_flat_map in He as ([[ups out] expr] & Hr & He).
    unfold parse_sql in Hr. rewrite Hparse in Hr. cbv zeta in Hr.
    apply list_elem_of_In, select_loop_spec in Hr as (j & se & Hj & Hr).
    cbn [Nat.add] in Hr.
    unfold result_edges in He.
    destruct (String.eqb_spec (upper out) (upper tc)) as [Hout|]; [|done].
    apply in_flat_map in He as (p & Hp & He).
    destruct (dict_get (fst p) (sources folder)) as [sd|] eqn:Hsd; [|done].
    destruct He as [<-|[]]. cbn [source_column source_dataset confidence_score].
    exists j, se. split; [done|].
    assert (Hdec : sel_kind se = IsStar \/ sel_kind se <> IsStar)
      by (destruct (sel_kind se); auto; by right).
    destruct Hdec as [Hstar|Hstar].
    + left. split; [done|].
      unfold select_results in Hr. rewrite Hstar in Hr.
      unfold star_results in Hr.
      apply list_elem_of_In, in_flat_map in Hr as ([T fields] & HT & Hr).
      apply in_map_iff in Hr as (f & [= <- <- _] & Hf).
      apply in_map_iff in HT as ([T' sd'] & [= <- <-] & HT).
      destruct Hp as [<-|[]]. cbn [fst snd] in *.
      exists T', sd'. split; [by apply list_elem_of_In|].
      split; [by apply list_elem_of_In|]. split; [done|]. by rewrite Hsd.
    + right. split; [done|].
      assert (Hr' : (ups, out, expr)
                    = (upstream_columns refs known (sel_columns se),
                       output_column j se, Some (sel_sql se))).
      { subst refs known. unfold select_results in Hr. cbv zeta in Hr.
        unfold output_column.
        destruct (sel_kind se); [| |done|];
          (destruct (upstream_columns _ _ (sel_columns se)) as [|q l];
           [by apply elem_of_nil in Hr|by apply list_elem_of_singleton in Hr]). }
      injection Hr' as -> -> ->. split; [done|].
      apply list_elem_of_In, elem_of_upstream_columns in Hp
        as (c & Hc & Hres & Hn).
      exists c, (fst p), sd. done.
  - intros parse_one folder sql tt tc step tables expressions j se c T sd
           Hd Hparse known refs Hj Hstar Hout Hc Hres Hsd.
    assert (Hp : (T, col_name c) ∈ upstream_columns refs known (sel_columns se)).
    { apply elem_of_upstream_columns. exists c. done. }
    assert (Hr : (upstream_columns refs known (sel_columns se),
                  output_column j se, Some (sel_sql se))
                 ∈ parse_sql parse_one sql known).
    { unfold parse_sql. rewrite Hparse. cbv zeta. fold refs.
      apply select_loop_spec. exists j, se. split; [done|]. cbn [Nat.add].
      unfold select_results.
      destruct (upstream_columns refs known (sel_columns se)) as [|q l];
        [by apply elem_of_nil in Hp|].
      unfold output_column. destruct (sel_kind se); try done; by left. }
    eexists. split.
    + unfold _parse_sql_lineage. rewrite Hd.
      apply list_elem_of_In, in_flat_map. eexists. split.
      { apply list_elem_of_In. exact Hr. }
      unfold result_edges. rewrite Hout, String.eqb_refl.
      apply in_flat_map. exists (T, col_name c).
      split; [by apply list_elem_of_In|]. cbn [fst snd]. rewrite Hsd. left.
      reflexivity.
    + done.
Qed.

Lemma unqualified_column_resolution_witness :
  resolve_column [] two_tables {| col_name := "name"; col_table := "" |}
    = Some "A"
  /\ resolve_column [] two_tables {| col_name := "ID"; col_table := "" |}
    = None
  /\ (holders "id" case_twins = ["T"]
      /\ resolve_column [] case_twins {| col_name := "id"; col_table := "" |}
         = None)
  /\ _parse_sql_lineage (fun _ => Some select_id_from_a_b) two_sources
       "SELECT ID FROM A, B" "TGT" "ID" some_step = [].
Proof.
  split; [|split; [|split]].
  - refine (proj1 (proj2 (proj2 (unqualified_column_resolution [] two_tables
                     {| col_name := "name"; col_table := "" |} eq_refl))) _ _ _).
    + cbn. lia.
    + intros e He. vm_compute in He.
      repeat (apply elem_of_cons in He as [->|He];
              [cbn; repeat (apply NoDup_cons; split; [set_solver|]);
               apply NoDup_nil; done|]).
      by apply elem_of_nil in He.
    + intros e He. vm_compute in He.
      repeat (apply elem_of_cons in He as [->|He]; [done|]).
      by apply elem_of_nil in He.
  - refine (proj1 (proj2 (unqualified_column_resolution [] two_tables
                     {| col_name := "ID"; col_table := "" |} eq_refl)) _).
    cbn. lia.
  - split; [reflexivity|].
    refine (proj1 (unqualified_column_resolution [] case_twins
                     {| col_name := "id"; col_table := "" |} eq_refl) _).
    cbn. lia.
  - destruct (_parse_sql_lineage (fun _ => Some select_id_from_a_b) two_sources
                "SELECT ID FROM A, B" "TGT" "ID" some_step) as [|e l] eqn:E;
      [reflexivity|exfalso].
    destruct (proj1 (proj2 (proj2 (proj2 (proj2 (proj2 (proj2 (proj2
                (unqualified_column_resolution [] two_tables
                   {| col_name := "ID"; col_table := "" |} eq_refl))))))))
                (fun _ => Some select_id_from_a_b) two_sources
                "SELECT ID FROM A, B" "TGT" "ID" some_step _ _ e
                ltac:(vm_compute; reflexivity) eq_refl
                ltac:(rewrite E; left))
      as (j & se & Hj & [[Hstar _]|(_ & _ & c & T & sd & Hc & Hres & _)]).
    + destruct j as [|[|j]]; [|done|done]. injection Hj as <-. done.
    + destruct j as [|[|j]]; [|done|done]. injection Hj as <-.
      apply list_elem_of_singleton in Hc as ->.
      vm_compute in Hres. discriminate Hres.
Defined.
End SqlFacts.

(** ** Grouping of lineage edges *)

Section GroupFacts.
Import Py Infa.
Context {V : Type}.

Lemma dict_get_set k k' (v : V) d :
  dict_get k (dict_set k' v d) =
  if String.eqb k k' then Some v else dict_get k d.
Proof.
  induction d as [|[k0 v0] d IH]; cbn.
  - done.
  - destruct (String.eqb_spec k' k0) as [->|Hne]; cbn.
    + destruct (String.eqb k k0); done.
    + destruct (String.eqb_spec k k0) as [->|Hne'].
      * destruct (String.eqb_spec k0 k'); [congruence|done].
      * exact IH.
Qed.

Lemma dict_keys_set_fresh k (v : V) d :
  dict_get k d = None -> dict_keys (dict_set k v d) = dict_keys d ++ [k].
Proof.
  induction d as [|[k0 v0] d IH]; cbn; [done|].
  destruct (String.eqb_spec k k0) as [->|Hne]; [done|].
  intros H. cbn. unfold dict_keys in IH. by rewrite IH.
Qed.

Lemma dict_entry_get (d : dict V) k v :
  NoDup (dict_keys d) -> (k, v) ∈ d <-> dict_get k d = Some v.
Proof.
  induction d as [|[k0 v0] d IH]; cbn.
  - intros _. split; [by intros ?%elem_of_nil|done].
  - intros [Hk Hd]%NoDup_cons. rewrite elem_of_cons, (IH Hd).
    destruct (String.eqb_spec k k0) as [->|Hne].
    + split.
      * intros [[= ->]|H]; [done|]. exfalso. apply Hk.
        apply dict_get_is_Some. eauto.
      * intros [= ->]. by left.
    + split; [intros [[= ? ?]|?]; done|by right].
Qed.
End GroupFacts.

Section GroupEdges.
Import Py Infa.
Variable key : ColumnLineageEdge -> string.

Local Abbreviation same_key := (Infa.same_key key).

Lemma group_edges_fold edges : forall groups,
  NoDup (dict_keys groups) ->
  NoDup (dict_keys (fold_left (group_edge key) edges groups)) /\
  forall k,
    dict_get k (fold_left (group_edge key) edges groups) =
    match dict_get k groups, List.filter (same_key k) edges with
    | None, [] => None
    | o, l => Some (default [] o ++ l)
    end.
Proof.
  induction edges as [|e edges IH]; intros groups Hnd; cbn [fold_left List.filter].
  - split; [done|]. intros k. destruct (dict_get k groups); cbn; [|done].
    by rewrite app_nil_r.
  - assert (Hstep : NoDup (dict_keys (group_edge key groups e)) /\
             forall k, dict_get k (group_edge key groups e) =
                       if String.eqb k (key e)
                       then Some (default [] (dict_get k groups) ++ [e])
                       else dict_get k groups).
    { unfold group_edge, dict_mem.
      destruct (dict_get (key e) groups) as [g|] eqn:Hg.
      - split; [by rewrite dict_keys_update|].
        intros k. rewrite dict_get_update.
        destruct (String.eqb_spec k (key e)) as [->|]; [|done]. by rewrite Hg.
      - split.
        + rewrite dict_keys_update, dict_keys_set_fresh by done.
          apply NoDup_app. split; [done|]. split; [|apply NoDup_singleton].
          intros x Hx ->%list_elem_of_singleton.
          apply dict_get_is_Some in Hx as [? ?]. congruence.
        + intros k. rewrite dict_get_update, dict_get_set.
          destruct (String.eqb_spec k (key e)) as [->|]; [|done].
          by rewrite Hg. }
    destruct Hstep as [Hnd' Hget]. destruct (IH _ Hnd') as [IH1 IH2].
    split; [done|]. intros k. rewrite IH2, Hget.
    change (same_key k e) with (String.eqb (key e) k).
    rewrite (String.eqb_sym (key e) k).
    destruct (String.eqb k (key e)).
    + destruct (dict_get k groups); cbn; by rewrite <- ?app_assoc.
    + done.
Qed.

(** The groups are the classes of the edges by key: each holds, in order,
    the edges of its key, and none is empty. *)
Lemma group_edges_spec edges k g :
  (k, g) ∈ group_edges key edges <->
  g = List.filter (same_key k) edges /\ g <> [].
Proof.
  unfold group_edges.
  destruct (group_edges_fold edges [] (NoDup_nil_2)) as [Hnd Hget].
  rewrite (dict_entry_get _ _ _ Hnd), Hget. cbn.
  destruct (List.filter (same_key k) edges) as [|e l].
  - split; [done|]. intros [-> ?]. done.
  - split; [intros [= <-]; done|]. intros [-> _]. done.
Qed.

Lemma group_edges_member edges k g e :
  (k, g) ∈ group_edges key edges -> e ∈ g -> e ∈ edges /\ key e = k.
Proof.
  intros [-> _]%group_edges_spec He.
  apply list_elem_of_In, filter_In in He as [He Hk].
  split; [by apply list_elem_of_In|]. by apply String.eqb_eq.
Qed.

Lemma group_edges_cover edges e :
  e ∈ edges -> exists g, (key e, g) ∈ group_edges key edges /\ e ∈ g.
Proof.
  intros He. exists (List.filter (same_key (key e)) edges).
  assert (Hin : e ∈ List.filter (same_key (key e)) edges).
  { apply list_elem_of_In, filter_In. split; [by apply list_elem_of_In|].
    apply String.eqb_refl. }
  split; [|done]. apply group_edges_spec. split; [done|].
  intros H. rewrite H in Hin. by apply elem_of_nil in Hin.
Qed.
End GroupEdges.

(** ** Fine-grained lineage: wildcards and confidence *)

Section EmitterFacts.
Import Py Infa.
Variable make_schema_field_urn : string -> string -> string.
Variable make_dataset_urn : string -> string -> string -> string.
Variable cfg : EmitterConfig.

Local Abbreviation dataset_urn := (_build_dataset_urn make_dataset_urn cfg).
Local Abbreviation collect :=
  (collect_upstream make_schema_field_urn make_dataset_urn cfg).
Local Abbreviation field_urn e :=
  (make_schema_field_urn (dataset_urn (source_dataset e) true) (source_column e)).

Lemma py_min_spec rest : forall first,
  let m := py_min first rest in
  (m = first \/ m ∈ rest) /\ (m <= first)%Q /\ (forall y, y ∈ rest -> (m <= y)%Q).
Proof.
  unfold py_min. induction rest as [|x rest IH]; intros first; cbn [fold_left].
  - split; [by left|]. split; [apply Qle_refl|].
    intros y Hy. by apply elem_of_nil in Hy.
  - destruct (Qlt_le_dec x first) as [Hlt|Hle].
    + destruct (IH x) as (H1 & H2 & H3). split; [|split].
      * destruct H1 as [->|H1]; right; [left|by right].
      * eapply Qle_trans; [exact H2|]. by apply Qlt_le_weak.
      * intros y [->|Hy]%elem_of_cons; [done|by apply H3].
    + destruct (IH first) as (H1 & H2 & H3). split; [|split].
      * destruct H1 as [H1|H1]; [by left|right; by right].
      * done.
      * intros y [->|Hy]%elem_of_cons; [|by apply H3].
        eapply Qle_trans; [exact H2|done].
Qed.

Lemma group_confidence_spec (e0 : ColumnLineageEdge) g :
  let m := group_confidence (e0 :: g) in
  (exists e, e ∈ e0 :: g /\ m = confidence_score e) /\
  (forall e, e ∈ e0 :: g -> (m <= confidence_score e)%Q).
Proof.
  cbn [group_confidence].
  destruct (py_min_spec (map confidence_score g) (confidence_score e0))
    as (H1 & H2 & H3).
  split.
  - destruct H1 as [H1|H1].
    + exists e0. split; [left|done].
    + apply list_elem_of_In, in_map_iff in H1 as (e & He & Hin).
      exists e. split; [right; by apply list_elem_of_In|done].
  - intros e [->|He]%elem_of_cons; [done|].
    apply H3. apply list_elem_of_In, in_map. by apply list_elem_of_In.
Qed.

Local Abbreviation next_urns :=
  (next_field_urns make_schema_field_urn make_dataset_urn cfg).

Lemma collect_step ds acc e :
  collect (ds, acc) e =
  ({[dataset_urn (source_dataset e) true]} ∪ ds, next_urns acc e).
Proof.
  unfold next_field_urns, collect_upstream.
  destruct (String.eqb (source_column e) "*"); [done|].
  by destruct (str_in _ acc).
Qed.

Lemma collect_fold edges : forall ds acc,
  fold_left collect edges (ds, acc) =
  (list_to_set (map (fun e => dataset_urn (source_dataset e) true) edges) ∪ ds,
   fold_left next_urns edges acc).
Proof.
  induction edges as [|e edges IH]; intros ds acc; cbn [fold_left map].
  - f_equal. set_solver.
  - rewrite collect_step, IH. f_equal. rewrite list_to_set_cons. set_solver.
Qed.

Lemma next_urns_cases acc e :
  next_urns acc e = acc \/
  (source_column e <> "*" /\ next_urns acc e = acc ++ [field_urn e]).
Proof.
  unfold next_field_urns, collect_upstream.
  destruct (String.eqb_spec (source_column e) "*") as [Hw|Hw]; [by left|].
  destruct (str_in _ acc); [by left|by right].
Qed.

Lemma collect_urns edges : forall acc u,
  u ∈ fold_left next_urns edges acc ->
  u ∈ acc \/ exists e, e ∈ edges /\ source_column e <> "*" /\ u = field_urn e.
Proof.
  induction edges as [|e edges IH]; intros acc u; cbn [fold_left].
  - intros H. by left.
  - intros [H|(e' & He' & H)]%IH.
    + destruct (next_urns_cases acc e) as [Heq|[Hw Heq]]; rewrite Heq in H;
        [by left|].
      apply elem_of_app in H as [H|H]; [by left|].
      apply list_elem_of_singleton in H as ->. right. exists e. split; [left|done].
    + right. exists e'. split; [by right|done].
Qed.

Lemma collect_wildcards edges : forall acc,
  (forall e, e ∈ edges -> source_column e = "*") ->
  fold_left next_urns edges acc = acc.
Proof.
  induction edges as [|e edges IH]; intros acc Hw; cbn [fold_left]; [done|].
  destruct (next_urns_cases acc e) as [Heq|[Hne _]].
  - rewrite Heq. apply IH. intros e' He'. apply Hw. by right.
  - exfalso. apply Hne, Hw. left.
Qed.

Local Abbreviation urns_of :=
  (upstream_urns make_schema_field_urn make_dataset_urn cfg).
Local Abbreviation job_group :=
  (job_io_group make_schema_field_urn make_dataset_urn cfg).
Local Abbreviation col_group :=
  (column_lineage make_schema_field_urn make_dataset_urn cfg).

Local Abbreviation built_from :=
  (Infa.built_from make_schema_field_urn make_dataset_urn cfg).

Local Abbreviation sources_of g :=
  (list_to_set (map (fun e => dataset_urn (source_dataset e) true) g)
   : gset string).

Lemma job_group_step i o f k g :
  exists o' extra,
    job_group (i, o, f) (k, g) = (sources_of g ∪ i, o', f ++ extra) /\
    (forall fgl, fgl ∈ extra -> built_from fgl g) /\
    (urns_of g = [] -> extra = []).
Proof.
  unfold job_io_group. rewrite collect_fold.
  destruct (rsplit_dot k) as [[a b]|];
    (destruct (fold_left next_urns g []) as [|u us] eqn:Hu;
     [ eexists _, []; rewrite app_nil_r; split; [reflexivity|];
       split; [by intros ? ?%elem_of_nil|done]
     | eexists _, [_]; split; [reflexivity|]; split;
       [ intros fgl ->%list_elem_of_singleton;
         unfold built_from, upstream_urns; cbn; by rewrite Hu
       | unfold upstream_urns; by rewrite Hu ] ]).
Qed.

Lemma job_io_fold groups : forall i o f,
  exists i' o' f',
    fold_left job_group groups (i, o, f) = (i', o', f') /\
    (forall x, x ∈ i' <->
               x ∈ i \/ exists k g e, (k, g) ∈ groups /\ e ∈ g /\
                                      x = dataset_urn (source_dataset e) true) /\
    (forall fgl, fgl ∈ f' ->
                 fgl ∈ f \/ exists k g, (k, g) ∈ groups /\ built_from fgl g) /\
    ((forall k g, (k, g) ∈ groups -> urns_of g = []) -> f' = f).
Proof.
  induction groups as [|[k g] groups IH]; intros i o f; cbn [fold_left].
  - exists i, o, f. split; [done|]. split; [|split; [|done]].
    + intros x. split; [by left|]. intros [?|(?&?&?&H&_)]; [done|].
      by apply elem_of_nil in H.
    + intros fgl H. by left.
  - destruct (job_group_step i o f k g) as (o1 & extra & -> & Hextra & Hnone).
    destruct (IH (sources_of g ∪ i) o1 (f ++ extra))
      as (i' & o' & f' & -> & H1 & H2 & H3).
    exists i', o', f'. split; [done|]. split; [|split].
    + intros x. rewrite H1, elem_of_union, elem_of_list_to_set. split.
      * intros [[Hx|Hx]|(k' & g' & e & Hg & He & Hx)].
        -- apply list_elem_of_In, in_map_iff in Hx as (e & Hx & He).
           right. exists k, g, e. split; [left|].
           split; [by apply list_elem_of_In|done].
        -- by left.
        -- right. exists k', g', e. split; [by right|done].
      * intros [Hx|(k' & g' & e & Hg & He & Hx)]; [left; by right|].
        apply elem_of_cons in Hg as [[= -> ->]|Hg].
        -- left. left. rewrite Hx.
           apply list_elem_of_In,
             (in_map (fun e => dataset_urn (source_dataset e) true)),
             list_elem_of_In, He.
        -- right. exists k', g', e. done.
    + intros fgl [H|(k' & g' & Hg & Hb)]%H2.
      * apply elem_of_app in H as [H|H]; [by left|].
        right. exists k, g. split; [left|by apply Hextra].
      * right. exists k', g'. split; [by right|done].
    + intros Hall. rewrite H3.
      * rewrite Hnone; [by rewrite app_nil_r|]. apply (Hall k). left.
      * intros k' g' Hg. apply (Hall k'). by right.
Qed.

Lemma col_group_step target_urn ds f k g :
  exists extra,
    col_group target_urn (ds, f) (k, g) = (sources_of g ∪ ds, f ++ extra) /\
    (forall fgl, fgl ∈ extra -> built_from fgl g) /\
    (urns_of g = [] -> extra = []).
Proof.
  unfold column_lineage. rewrite collect_fold.
  destruct (fold_left next_urns g []) as [|u us] eqn:Hu.
  - exists []. rewrite app_nil_r. split; [reflexivity|].
    split; [by intros ? ?%elem_of_nil|done].
  - eexists [_]. split; [reflexivity|]. split.
    + intros fgl ->%list_elem_of_singleton.
      unfold built_from, upstream_urns. cbn. by rewrite Hu.
    + unfold upstream_urns. by rewrite Hu.
Qed.

Lemma col_fold target_urn groups : forall ds f,
  exists ds' f',
    fold_left (col_group target_urn) groups (ds, f) = (ds', f') /\
    (forall x, x ∈ ds' <->
               x ∈ ds \/ exists k g e, (k, g) ∈ groups /\ e ∈ g /\
                                       x = dataset_urn (source_dataset e) true) /\
    (forall fgl, fgl ∈ f' ->
                 fgl ∈ f \/ exists k g, (k, g) ∈ groups /\ built_from fgl g) /\
    ((forall k g, (k, g) ∈ groups -> urns_of g = []) -> f' = f).
Proof.
  induction groups as [|[k g] groups IH]; intros ds f; cbn [fold_left].
  - exists ds, f. split; [done|]. split; [|split; [|done]].
    + intros x. split; [by left|]. intros [?|(?&?&?&H&_)]; [done|].
      by apply elem_of_nil in H.
    + intros fgl H. by left.
  - destruct (col_group_step target_urn ds f k g) as (extra & -> & Hextra & Hnone).
    destruct (IH (sources_of g ∪ ds) (f ++ extra))
      as (ds' & f' & -> & H1 & H2 & H3).
    exists ds', f'. split; [done|]. split; [|split].
    + intros x. rewrite H1, elem_of_union, elem_of_list_to_set. split.
      * intros [[Hx|Hx]|(k' & g' & e & Hg & He & Hx)].
        -- apply list_elem_of_In, in_map_iff in Hx as (e & Hx & He).
           right. exists k, g, e. split; [left|].
           split; [by apply list_elem_of_In|done].
        -- by left.
        -- right. exists k', g', e. split; [by right|done].
      * intros [Hx|(k' & g' & e & Hg & He & Hx)]; [left; by right|].
        apply elem_of_cons in Hg as [[= -> ->]|Hg].
        -- left. left. rewrite Hx.
           apply list_elem_of_In,
             (in_map (fun e => dataset_urn (source_dataset e) true)),
             list_elem_of_In, He.
        -- right. exists k', g', e. done.
    + intros fgl [H|(k' & g' & Hg & Hb)]%H2.
      * apply elem_of_app in H as [H|H]; [by left|].
        right. exists k, g. split; [left|by apply Hextra].
      * right. exists k', g'. split; [by right|done].
    + intros Hall. rewrite H3.
      * rewrite Hnone; [by rewrite app_nil_r|]. apply (Hall k). left.
      * intros k' g' Hg. apply (Hall k'). by right.
Qed.

Local Abbreviation ds_lineage :=
  (dataset_lineage make_schema_field_urn make_dataset_urn cfg).

Lemma dataset_fold dgroups : forall mcps,
  fold_left ds_lineage dgroups mcps =
  mcps ++ flat_map (ds_lineage []) dgroups.
Proof.
  induction dgroups as [|entry dgroups IH]; intros mcps; cbn [fold_left flat_map].
  - by rewrite app_nil_r.
  - rewrite IH. rewrite app_assoc. f_equal.
    unfold dataset_lineage. destruct (fold_left _ _ _) as [ds f].
    destruct (decide (ds = ∅)); [by rewrite app_nil_r|done].
Qed.

Lemma aspect_spec edges (a : LineageAspect) :
  a ∈ emit_dataset_lineage make_schema_field_urn make_dataset_urn cfg edges <->
  exists d es,
    (d, es) ∈ group_edges target_dataset edges /\
    fold_left (col_group (dataset_urn d false))
              (group_edges target_column es) (∅, []) = (snd (fst a), snd a) /\
    fst (fst a) = dataset_urn d false /\ snd (fst a) <> ∅.
Proof.
  unfold emit_dataset_lineage. rewrite dataset_fold. cbn [app].
  rewrite list_elem_of_In, in_flat_map. split.
  - intros ([d es] & Hg & Ha). exists d, es.
    split; [by apply list_elem_of_In|].
    unfold dataset_lineage in Ha. cbn [fst snd] in Ha.
    destruct (fold_left _ _ _) as [ds f].
    destruct (decide (ds = ∅)); [done|].
    destruct Ha as [<-|[]]. done.
  - intros (d & es & Hg & Hf & Hu & Hne). exists (d, es).
    split; [by apply list_elem_of_In|].
    unfold dataset_lineage. cbn [fst snd]. rewrite Hf.
    rewrite decide_False by done. left.
    destruct a as [[u ds] f]. cbn in *. by rewrite Hu.
Qed.

Lemma next_urns_keeps acc e u : u ∈ acc -> u ∈ next_urns acc e.
Proof.
  intros Hu. destruct (next_urns_cases acc e) as [->|[_ ->]]; [done|].
  apply elem_of_app. by left.
Qed.

Lemma next_urns_adds acc e :
  source_column e <> "*" -> field_urn e ∈ next_urns acc e.
Proof.
  intros Hw. unfold next_field_urns, collect_upstream.
  destruct (String.eqb_spec (source_column e) "*") as [|_]; [done|].
  destruct (str_in _ acc) eqn:Hin; cbn [snd].
  - by apply str_in_true in Hin.
  - apply elem_of_app. right. left.
Qed.

Lemma collect_keeps edges : forall acc u,
  u ∈ acc -> u ∈ fold_left next_urns edges acc.
Proof.
  induction edges as [|e edges IH]; intros acc u Hu; cbn [fold_left]; [done|].
  by apply IH, next_urns_keeps.
Qed.

Lemma collect_has edges : forall acc e,
  e ∈ edges -> source_column e <> "*" ->
  field_urn e ∈ fold_left next_urns edges acc.
Proof.
  induction edges as [|e0 edges IH]; intros acc e He Hw; cbn [fold_left].
  - by apply elem_of_nil in He.
  - apply elem_of_cons in He as [->|He]; [|by apply IH].
    by apply collect_keeps, next_urns_adds.
Qed.

(** A group with an edge that is no wildcard has upstream fields. *)
Lemma urns_nonempty g e :
  e ∈ g -> source_column e <> "*" -> urns_of g <> [].
Proof.
  intros He Hw Hnil. pose proof (collect_has g [] e He Hw) as Hin.
  unfold upstream_urns in Hnil. rewrite Hnil in Hin.
  by apply elem_of_nil in Hin.
Qed.

Lemma job_group_emits i o f k g :
  urns_of g <> [] ->
  exists i' o' fgl,
    job_group (i, o, f) (k, g) = (i', o', f ++ [fgl]) /\ built_from fgl g.
Proof.
  intros Hne. unfold job_io_group. rewrite collect_fold.
  unfold upstream_urns in Hne.
  destruct (rsplit_dot k) as [[a b]|];
    (destruct (fold_left next_urns g []) as [|u us] eqn:Hu; [done|];
     eexists _, _, _; split; [reflexivity|];
     unfold built_from, upstream_urns; cbn; by rewrite Hu).
Qed.

Lemma job_io_fold_keeps groups : forall st fgl,
  fgl ∈ snd st -> fgl ∈ snd (fold_left job_group groups st).
Proof.
  induction groups as [|[k g] groups IH]; intros [[i o] f] fgl Hin;
    cbn [fold_left]; [done|].
  destruct (job_group_step i o f k g) as (o1 & extra & -> & _).
  apply IH. cbn. apply elem_of_app. by left.
Qed.

(** Every group with upstream fields gets its fine-grained lineage. *)
Lemma job_io_fold_emits groups : forall st k g,
  (k, g) ∈ groups -> urns_of g <> [] ->
  exists fgl,
    fgl ∈ snd (fold_left job_group groups st) /\ built_from fgl g.
Proof.
  induction groups as [|[k0 g0] groups IH]; intros [[i o] f] k g Hg Hne;
    cbn [fold_left].
  - by apply elem_of_nil in Hg.
  - apply elem_of_cons in Hg as [[= <- <-]|Hg]; [|by apply (IH _ k)].
    destruct (job_group_emits i o f k g Hne) as (i' & o' & fgl & -> & Hb).
    exists fgl. split; [|done]. apply job_io_fold_keeps. cbn.
    apply elem_of_app. right. left.
Qed.

Lemma col_group_emits target_urn ds f k g :
  urns_of g <> [] ->
  exists ds' fgl,
    col_group target_urn (ds, f) (k, g) = (ds', f ++ [fgl]) /\ built_from fgl g.
Proof.
  intros Hne. unfold column_lineage. rewrite collect_fold.
  unfold upstream_urns in Hne.
  destruct (fold_left next_urns g []) as [|u us] eqn:Hu; [done|].
  eexists _, _. split; [reflexivity|].
  unfold built_from, upstream_urns. cbn. by rewrite Hu.
Qed.

Lemma col_fold_keeps target_urn groups : forall st fgl,
  fgl ∈ snd st -> fgl ∈ snd (fold_left (col_group target_urn) groups st).
Proof.
  induction groups as [|[k g] groups IH]; intros [ds f] fgl Hin;
    cbn [fold_left]; [done|].
  destruct (col_group_step target_urn ds f k g) as (extra & -> & _).
  apply IH. cbn. apply elem_of_app. by left.
Qed.

Lemma col_fold_emits target_urn groups : forall st k g,
  (k, g) ∈ groups -> urns_of g <> [] ->
  exists fgl,
    fgl ∈ snd (fold_left (col_group target_urn) groups st) /\ built_from fgl g.
Proof.
  induction groups as [|[k0 g0] groups IH]; intros [ds f] k g Hg Hne;
    cbn [fold_left].
  - by apply elem_of_nil in Hg.
  - apply elem_of_cons in Hg as [[= <- <-]|Hg]; [|by apply (IH _ k)].
    destruct (col_group_emits target_urn ds f k g Hne) as (ds' & fgl & -> & Hb).
    exists fgl. split; [|done]. apply col_fold_keeps. cbn.
    apply elem_of_app. right. left.
Qed.

(** The fine-grained lineage of the target key of an edge that is no
    wildcard, in [_build_job_io]. *)
Lemma job_io_emits edges e :
  e ∈ edges -> source_column e <> "*" ->
  exists fgl,
    fgl ∈ snd (_build_job_io make_schema_field_urn make_dataset_urn cfg edges)
    /\ built_from fgl (List.filter (same_key target_key (target_key e)) edges).
Proof.
  intros He Hw.
  destruct (group_edges_cover target_key _ _ He) as (g & Hg & Hin).
  pose proof (proj1 (group_edges_spec _ _ _ _) Hg) as [Heq _].
  rewrite <- Heq. unfold _build_job_io.
  eapply job_io_fold_emits; [exact Hg|]. by eapply urns_nonempty.
Qed.

(** The same in [emit_dataset_lineage]: the aspect of the edge's target
    dataset holds the fine-grained lineage of its target column. *)
Lemma dataset_lineage_emits edges e :
  e ∈ edges -> source_column e <> "*" ->
  exists a fgl,
    a ∈ emit_dataset_lineage make_schema_field_urn make_dataset_urn cfg edges
    /\ fst (fst a) = dataset_urn (target_dataset e) false
    /\ fgl ∈ snd a
    /\ built_from fgl
         (List.filter (same_key target_column (target_column e))
            (List.filter (same_key target_dataset (target_dataset e)) edges)).
Proof.
  intros He Hw.
  destruct (group_edges_cover target_dataset _ _ He) as (es & Hd & Hin).
  destruct (group_edges_cover target_column _ _ Hin) as (g & Hg & Hin').
  pose proof (proj1 (group_edges_spec _ _ _ _) Hd) as [Hes _].
  pose proof (proj1 (group_edges_spec _ _ _ _) Hg) as [Heq _].
  rewrite <- Hes, <- Heq.
  destruct (col_fold (dataset_urn (target_dataset e) false)
              (group_edges target_column es) ∅ [])
    as (ds' & f' & Hf' & H1 & _ & _).
  destruct (col_fold_emits (dataset_urn (target_dataset e) false)
              (group_edges target_column es) (∅, []) _ g Hg
              (urns_nonempty g e Hin' Hw)) as (fgl & Hfgl & Hb).
  rewrite Hf' in Hfgl. cbn [snd] in Hfgl.
  assert (Hds : dataset_urn (source_dataset e) true ∈ ds').
  { apply H1. right. exists (target_column e), g, e. done. }
  exists (dataset_urn (target_dataset e) false, ds', f'), fgl.
  split; [|done]. apply aspect_spec. exists (target_dataset e), es.
  cbn [fst snd]. split; [done|]. split; [done|]. split; [done|].
  intros Hempty. rewrite Hempty in Hds. by apply not_elem_of_empty in Hds.
Qed.

(** C10: in [_build_job_io] and in [emit_dataset_lineage] every upstream
    schema-field reference of an emitted fine-grained lineage is built
    from an edge whose source column is not the wildcard ["*"]; a
    wildcard edge adds only its source dataset to the input (upstream)
    dataset set; and edges that are all wildcards yield no fine-grained
    lineage at all. *)
Theorem wildcard_never_a_field_reference (edges : list ColumnLineageEdge) :
  (forall inputs outputs fgls,
      _build_job_io make_schema_field_urn make_dataset_urn cfg edges
      = (inputs, outputs, fgls) ->
      (forall fgl u, fgl ∈ fgls -> u ∈ upstreams fgl ->
                     exists e, e ∈ edges /\ source_column e <> "*" /\
                               u = field_urn e) /\
      (forall e, e ∈ edges -> dataset_urn (source_dataset e) true ∈ inputs) /\
      ((forall e, e ∈ edges -> source_column e = "*") -> fgls = [])) /\
  (forall a,
      a ∈ emit_dataset_lineage make_schema_field_urn make_dataset_urn cfg edges ->
      forall fgl u, fgl ∈ snd a -> u ∈ upstreams fgl ->
                    exists e, e ∈ edges /\ source_column e <> "*" /\
                              u = field_urn e) /\
  (forall e, e ∈ edges ->
      exists a,
        a ∈ emit_dataset_lineage make_schema_field_urn make_dataset_urn cfg edges
        /\ dataset_urn (source_dataset e) true ∈ snd (fst a)) /\
  ((forall e, e ∈ edges -> source_column e = "*") ->
   forall a,
     a ∈ emit_dataset_lineage make_schema_field_urn make_dataset_urn cfg edges ->
     snd a = []).
Proof.
  split; [|split; [|split]].
  - intros inputs outputs fgls Hrun. unfold _build_job_io in Hrun.
    destruct (job_io_fold (group_edges target_key edges) ∅ ∅ [])
      as (i' & o' & f' & Hf & H1 & H2 & H3).
    rewrite Hf in Hrun. injection Hrun as -> -> ->.
    split; [|split].
    + intros fgl u Hfgl Hu.
      apply H2 in Hfgl as [Hfgl|(k & g & Hg & Hup & _)];
        [by apply elem_of_nil in Hfgl|].
      rewrite Hup in Hu. apply collect_urns in Hu as [Hu|(e & He & Hw & ->)];
        [by apply elem_of_nil in Hu|].
      exists e. split; [|done].
      by destruct (group_edges_member _ _ _ _ _ Hg He).
    + intros e He. apply H1. right.
      destruct (group_edges_cover target_key _ _ He) as (g & Hg & Hin).
      exists (target_key e), g, e. done.
    + intros Hw. apply H3. intros k g Hg. apply collect_wildcards.
      intros e He. apply Hw. by destruct (group_edges_member _ _ _ _ _ Hg He).
  - intros [[u0 ds] f] (d & es & Hd & Hf & _ & _)%aspect_spec fgl u Hfgl Hu.
    cbn [fst snd] in *.
    destruct (col_fold (dataset_urn d false) (group_edges target_column es) ∅ [])
      as (ds' & f' & Hf' & H1 & H2 & H3).
    rewrite Hf' in Hf. injection Hf as -> ->.
    apply H2 in Hfgl as [Hfgl|(k & g & Hg & Hup & _)];
      [by apply elem_of_nil in Hfgl|].
    rewrite Hup in Hu. apply collect_urns in Hu as [Hu|(e & He & Hw & ->)];
      [by apply elem_of_nil in Hu|].
    exists e. split; [|done].
    destruct (group_edges_member _ _ _ _ _ Hg He) as [He' _].
    by destruct (group_edges_member _ _ _ _ _ Hd He').
  - intros e He.
    destruct (group_edges_cover target_dataset _ _ He) as (es & Hd & Hin).
    destruct (group_edges_cover target_column _ _ Hin) as (g & Hg & Hin').
    destruct (col_fold (dataset_urn (target_dataset e) false)
                (group_edges target_column es) ∅ [])
      as (ds' & f' & Hf' & H1 & H2 & H3).
    assert (Hds : dataset_urn (source_dataset e) true ∈ ds').
    { apply H1. right. exists (target_column e), g, e. done. }
    exists (dataset_urn (target_dataset e) false, ds', f').
    split; [|done]. apply aspect_spec. exists (target_dataset e), es.
    cbn [fst snd]. split; [done|]. split; [done|]. split; [done|].
    intros Hempty. rewrite Hempty in Hds. by apply not_elem_of_empty in Hds.
  - intros Hw [[u0 ds] f] (d & es & Hd & Hf & _ & _)%aspect_spec.
    cbn [fst snd] in *.
    destruct (col_fold (dataset_urn d false) (group_edges target_column es) ∅ [])
      as (ds' & f' & Hf' & H1 & H2 & H3).
    rewrite Hf' in Hf. injection Hf as -> ->.
    apply H3. intros k g Hg. apply collect_wildcards.
    intros e He. apply Hw.
    destruct (group_edges_member _ _ _ _ _ Hg He) as [He' _].
    by destruct (group_edges_member _ _ _ _ _ Hd He').
Qed.
End EmitterFacts.

(** ** Confidence of lineage edges *)

Section ConfidenceFacts.
Import Py Infa InfaScenarios.

Lemma standard_edges_confidence fuel folder mapping target_def target_col step
    inputs : forall es e,
  standard_edges fuel folder mapping target_def target_col step inputs = Some es ->
  e ∈ es -> confidence_score e = 1%Q.
Proof.
  induction inputs as [|[fi ff] inputs IH]; intros es e; cbn [standard_edges].
  - intros [= <-] He. by apply elem_of_nil in He.
  - destruct (_find_source_for_instance fuel folder mapping fi ff) as [[[ds c]|]|];
      destruct (standard_edges fuel folder mapping target_def target_col step inputs)
        as [es'|]; try done.
    + intros [= <-] [->|He]%elem_of_cons; [done|]. by apply (IH es').
    + intros [= <-] He. by apply (IH es').
Qed.

Lemma sql_lineage_confidence parse_one folder sql target_table target_col step e :
  e ∈ _parse_sql_lineage parse_one folder sql target_table target_col step ->
  confidence_score e =
  match detect_stored_procedure_call sql with
  | Some _ => 1%Q
  | None => sql_confidence
  end.
Proof.
  unfold _parse_sql_lineage.
  destruct (detect_stored_procedure_call sql) as [[schema proc]|].
  - intros ->%list_elem_of_singleton. done.
  - intros He. apply list_elem_of_In, in_flat_map in He as ([[ups out] expr] & _ & He).
    unfold result_edges in He.
    destruct (String.eqb _ _); [|done].
    apply in_flat_map in He as (p & _ & He).
    destruct (dict_get _ _); [|done]. by destruct He as [<-|[]].
Qed.

Lemma stored_proc_confidence trans target_table target_col step e :
  e ∈ _build_stored_proc_lineage trans target_table target_col step ->
  confidence_score e = 1%Q /\ source_column e = "*".
Proof.
  unfold _build_stored_proc_lineage.
  destruct trans as [t|]; [|by intros ?%elem_of_nil].
  destruct (stored_proc_name t) as [p|]; [|by intros ?%elem_of_nil].
  destruct (truthy p); [|by intros ?%elem_of_nil].
  intros ->%list_elem_of_singleton. done.
Qed.

(** C4: every edge that the builder derives from explicit connectors (the
    Source Definition and standard branches) or from a stored-procedure
    call (a Stored Procedure instance, or SQL in which a call is detected)
    has confidence exactly 1.0; every edge derived from a parsed query
    projection has confidence exactly 0.95.  The confidence of a
    fine-grained lineage, in [_build_job_io] and in
    [emit_dataset_lineage], is the minimum over the edges of its group
    (the edges with its target dataset and column): it is the confidence
    of one of them and is at most that of each.  And the groups are
    combined: for every edge whose source column is not the wildcard,
    [_build_job_io] returns, and [emit_dataset_lineage] emits in the
    aspect of the edge's target dataset, a fine-grained lineage built
    from all the edges with the target of that edge, whose confidence is
    that minimum; so one edge of confidence 0.95 among the edges of a
    target column brings the confidence of its fine-grained lineage
    down to 0.95 or less. *)
Theorem confidence_scores :
  (forall parse_one fuel folder mapping target_def target_table target_col
          step instance es e,
      dict_get (instance_name step) (instances mapping) = Some instance ->
      step_edges parse_one fuel folder mapping target_def target_table
        target_col step = Some es ->
      e ∈ es ->
      confidence_score e =
      match sql_override instance (_get_transformation folder mapping instance)
      with
      | Some sql =>
          match detect_stored_procedure_call sql with
          | Some _ => 1%Q
          | None => sql_confidence
          end
      | None => 1%Q
      end)
  /\ (forall mk_field_urn mk_dataset_urn cfg edges inputs outputs fgls fgl,
        _build_job_io mk_field_urn mk_dataset_urn cfg edges
        = (inputs, outputs, fgls) ->
        fgl ∈ fgls ->
        exists k g,
          g = List.filter (same_key target_key k) edges /\ g <> [] /\
          built_from mk_field_urn mk_dataset_urn cfg fgl g /\
          (exists e, e ∈ g /\ confidenceScore fgl = confidence_score e) /\
          (forall e, e ∈ g -> (confidenceScore fgl <= confidence_score e)%Q))
  /\ (forall mk_field_urn mk_dataset_urn cfg edges a fgl,
        a ∈ emit_dataset_lineage mk_field_urn mk_dataset_urn cfg edges ->
        fgl ∈ snd a ->
        exists d k g,
          g = List.filter (same_key target_column k)
                (List.filter (same_key target_dataset d) edges) /\ g <> [] /\
          built_from mk_field_urn mk_dataset_urn cfg fgl g /\
          (exists e, e ∈ g /\ confidenceScore fgl = confidence_score e) /\
          (forall e, e ∈ g -> (confidenceScore fgl <= confidence_score e)%Q))
  /\ (sql_confidence < 1)%Q
  /\ (forall mk_field_urn mk_dataset_urn cfg edges e,
        e ∈ edges -> source_column e <> "*" ->
        exists fgl,
          fgl ∈ snd (_build_job_io mk_field_urn mk_dataset_urn cfg edges)
          /\ built_from mk_field_urn mk_dataset_urn cfg fgl
               (List.filter (same_key target_key (target_key e)) edges)
          /\ confidenceScore fgl
             = group_confidence
                 (List.filter (same_key target_key (target_key e)) edges)
          /\ (exists e', e' ∈ edges /\ target_key e' = target_key e /\
                         confidenceScore fgl = confidence_score e')
          /\ (forall e', e' ∈ edges -> target_key e' = target_key e ->
                (confidenceScore fgl <= confidence_score e')%Q))
  /\ (forall mk_field_urn mk_dataset_urn cfg edges e,
        e ∈ edges -> source_column e <> "*" ->
        exists a fgl,
          a ∈ emit_dataset_lineage mk_field_urn mk_dataset_urn cfg edges
          /\ fst (fst a)
             = _build_dataset_urn mk_dataset_urn cfg (target_dataset e) false
          /\ fgl ∈ snd a
          /\ built_from mk_field_urn mk_dataset_urn cfg fgl
               (List.filter (same_key target_column (target_column e))
                  (List.filter (same_key target_dataset (target_dataset e))
                     edges))
          /\ (exists e', e' ∈ edges /\ target_dataset e' = target_dataset e /\
                         target_column e' = target_column e /\
                         confidenceScore fgl = confidence_score e')
          /\ (forall e', e' ∈ edges -> target_dataset e' = target_dataset e ->
                target_column e' = target_column e ->
                (confidenceScore fgl <= confidence_score e')%Q)).
Proof.
  split; [|split; [|split; [|split; [|split]]]].
  - intros parse_one fuel folder mapping target_def tt tc step instance es e
           Hinst Hrun He.
    unfold step_edges in Hrun. rewrite Hinst in Hrun.
    destruct (sql_override instance _) as [sql|].
    + injection Hrun as <-. by apply sql_lineage_confidence in He.
    + destruct (transformation_type instance);
        try (by eapply standard_edges_confidence; eauto).
      * destruct (dict_get _ (sources folder)) as [sd|]; injection Hrun as <-.
        -- apply list_elem_of_In, in_map_iff in He as (p & <- & _). done.
        -- by apply elem_of_nil in He.
      * injection Hrun as <-. by apply stored_proc_confidence in He as [? _].
  - intros mk1 mk2 cfg edges inputs outputs fgls fgl Hrun Hfgl.
    unfold _build_job_io in Hrun.
    destruct (job_io_fold mk1 mk2 cfg (group_edges target_key edges) ∅ ∅ [])
      as (i' & o' & f' & Hf & _ & H2 & _).
    rewrite Hf in Hrun. injection Hrun as -> -> ->.
    apply H2 in Hfgl as [Hfgl|(k & g & Hg & Hb)]; [by apply elem_of_nil in Hfgl|].
    apply group_edges_spec in Hg as [Hg Hne].
    exists k, g. split; [done|]. split; [done|]. split; [done|].
    destruct Hb as (_ & _ & ->). destruct g as [|e0 g]; [done|].
    apply group_confidence_spec.
  - intros mk1 mk2 cfg edges [[u ds] f] fgl
           (d & es & Hd & Hf & _ & _)%aspect_spec Hfgl.
    cbn [fst snd] in *.
    destruct (col_fold mk1 mk2 cfg (_build_dataset_urn mk2 cfg d false)
                (group_edges target_column es) ∅ [])
      as (ds' & f' & Hf' & _ & H2 & _).
    rewrite Hf' in Hf. injection Hf as -> ->.
    apply H2 in Hfgl as [Hfgl|(k & g & Hg & Hb)]; [by apply elem_of_nil in Hfgl|].
    apply group_edges_spec in Hg as [Hg Hne].
    apply group_edges_spec in Hd as [Hd _].
    exists d, k, g. split; [by rewrite Hg, Hd|]. split; [done|]. split; [done|].
    destruct Hb as (_ & _ & ->). destruct g as [|e0 g]; [done|].
    apply group_confidence_spec.
  - reflexivity.
  - intros mk1 mk2 cfg edges e He Hw.
    destruct (job_io_emits mk1 mk2 cfg edges e He Hw) as (fgl & Hin & Hb).
    exists fgl. split; [done|]. split; [done|].
    pose proof Hb as (_ & _ & Hc). split; [done|]. rewrite Hc.
    assert (Hmem : forall e', e' ∈ List.filter (same_key target_key (target_key e)) edges
                     <-> e' ∈ edges /\ target_key e' = target_key e).
    { intros e'. rewrite list_elem_of_In, filter_In, <- list_elem_of_In.
      unfold same_key. by rewrite String.eqb_eq. }
    destruct (List.filter (same_key target_key (target_key e)) edges)
      as [|e0 g] eqn:Hg.
    { exfalso. eapply elem_of_nil, Hmem. done. }
    destruct (group_confidence_spec e0 g) as [(e' & He' & Heq) Hle].
    split.
    + exists e'. apply Hmem in He' as [? ?]. done.
    + intros e1 H1 H2. apply Hle, Hmem. done.
  - intros mk1 mk2 cfg edges e He Hw.
    destruct (dataset_lineage_emits mk1 mk2 cfg edges e He Hw)
      as (a & fgl & Ha & Hu & Hin & Hb).
    exists a, fgl. do 4 (split; [done|]).
    pose proof Hb as (_ & _ & Hc). rewrite Hc.
    assert (Hmem : forall e',
      e' ∈ List.filter (same_key target_column (target_column e))
             (List.filter (same_key target_dataset (target_dataset e)) edges)
      <-> e' ∈ edges /\ target_dataset e' = target_dataset e
          /\ target_column e' = target_column e).
    { intros e'. rewrite list_elem_of_In, !filter_In, <- list_elem_of_In.
      unfold same_key. rewrite !String.eqb_eq. tauto. }
    destruct (List.filter (same_key target_column (target_column e)) _)
      as [|e0 g] eqn:Hg.
    { exfalso. eapply elem_of_nil, Hmem. done. }
    destruct (group_confidence_spec e0 g) as [(e' & He' & Heq) Hle].
    split.
    + exists e'. apply Hmem in He' as (? & ? & ?). done.
    + intros e1 H1 H2 H3. apply Hle, Hmem. done.
Qed.

Lemma confidence_scores_witness :
  (exists e,
     step_edges parse_orders 3 orders_folder orders_mapping orders_target
       "TGT" "ORDER_COUNT" orders_step = Some [e]
     /\ source_dataset e = "ORDERS" /\ source_column e = "ORDER_ID"
     /\ confidence_score e = sql_confidence)
  /\ (exists fgl,
        fgl ∈ snd (_build_job_io urn_field urn_dataset plain_config mixed_edges)
        /\ map confidence_score mixed_edges = [1%Q; sql_confidence]
        /\ map target_key mixed_edges = ["TGT.ORDER_COUNT"; "TGT.ORDER_COUNT"]
        /\ confidenceScore fgl = sql_confidence)
  /\ (exists a fgl,
        a ∈ emit_dataset_lineage urn_field urn_dataset plain_config mixed_edges
        /\ fgl ∈ snd a
        /\ confidenceScore fgl = sql_confidence).
Proof.
  split; [|split].
  - eexists. split; [vm_compute; reflexivity|]. split; [reflexivity|].
    split; [reflexivity|].
    refine (proj1 confidence_scores parse_orders 3 orders_folder orders_mapping
              orders_target "TGT" "ORDER_COUNT" orders_step
              (snd (mk_instance "SQ" SOURCE_QUALIFIER)) _ _ eq_refl _ _).
    + vm_compute. reflexivity.
    + left.
  - destruct (proj1 (proj2 (proj2 (proj2 (proj2 confidence_scores))))
                urn_field urn_dataset plain_config mixed_edges
                count_edge)
      as (fgl & Hin & _ & Hc & _).
    + right. left.
    + discriminate.
    + exists fgl. split; [exact Hin|]. split; [reflexivity|].
      split; [reflexivity|]. rewrite Hc. reflexivity.
  - destruct (proj2 (proj2 (proj2 (proj2 (proj2 confidence_scores))))
                urn_field urn_dataset plain_config mixed_edges
                count_edge)
      as (a & fgl & Ha & _ & Hin & (_ & _ & Hc) & _).
    + right. left.
    + discriminate.
    + exists a, fgl. split; [exact Ha|]. split; [exact Hin|].
      rewrite Hc. reflexivity.
Defined.
End ConfidenceFacts.


(** ** The FIX scope stack *)

Section MergeFacts.
Import Py Essbase EssbaseScenarios.

Lemma extend_new_spec ms : forall acc,
  (forall x, x ∈ extend_new acc ms <-> x ∈ acc \/ x ∈ ms) /\
  (NoDup acc -> NoDup (extend_new acc ms)) /\
  (exists tail, extend_new acc ms = acc ++ tail).
Proof.
  unfold extend_new. induction ms as [|m ms IH]; intros acc; cbn [fold_left].
  - split; [|split; [done|exists []; by rewrite app_nil_r]].
    intros x. split; [by left|]. intros [?|?%elem_of_nil]; done.
  - destruct (str_in m acc) eqn:Hin.
    + apply str_in_true in Hin. destruct (IH acc) as (H1 & H2 & H3).
      split; [|done]. intros x. rewrite H1, elem_of_cons. split; [tauto|].
      intros [?|[->|?]]; tauto.
    + assert (Hnin : m ∉ acc).
      { intros H. apply str_in_true in H. congruence. }
      destruct (IH (acc ++ [m])) as (H1 & H2 & [tail H3]).
      split; [|split].
      * intros x. rewrite H1, elem_of_app, list_elem_of_singleton, elem_of_cons. tauto.
      * intros Hnd. apply H2. apply NoDup_app. split; [done|].
        split; [|apply NoDup_singleton].
        intros x Hx ->%list_elem_of_singleton. done.
      * exists (m :: tail). rewrite H3. by rewrite <- app_assoc.
Qed.

(** One entry of a context merged into [merged]. *)
Lemma members_at_merge_entry (merged : FixContext) dim0 ms dim :
  members_at
    (dict_update dim0 (fun l => extend_new l ms)
       (if dict_mem dim0 merged then merged else dict_set dim0 [] merged)) dim
  = if String.eqb dim dim0 then extend_new (members_at merged dim0) ms
    else members_at merged dim.
Proof.
  unfold members_at, dict_mem. rewrite dict_get_update.
  destruct (String.eqb_spec dim dim0) as [->|Hne].
  - destruct (dict_get dim0 merged) as [l|] eqn:Hg.
    + by rewrite Hg.
    + rewrite dict_get_set, String.eqb_refl. done.
  - destruct (dict_get dim0 merged); [done|].
    rewrite dict_get_set. by destruct (String.eqb_spec dim dim0).
Qed.

Lemma merge_context_spec (ctx : FixContext) : forall merged,
  (forall dim x, x ∈ members_at (merge_context merged ctx) dim <->
                 x ∈ members_at merged dim \/
                 exists ms, (dim, ms) ∈ ctx /\ x ∈ ms) /\
  ((forall dim, NoDup (members_at merged dim)) ->
   forall dim, NoDup (members_at (merge_context merged ctx) dim)) /\
  (forall dim, exists tail,
      members_at (merge_context merged ctx) dim = members_at merged dim ++ tail).
Proof.
  unfold merge_context. induction ctx as [|[dim0 ms] ctx IH]; intros merged;
    cbn [fold_left fst snd].
  - split; [|split; [done|]].
    + intros dim x. split; [by left|]. intros [?|(? & ?%elem_of_nil & _)]; done.
    + intros dim. exists []. by rewrite app_nil_r.
  - match goal with
    | |- context [fold_left _ ctx ?m] => destruct (IH m) as (H1 & H2 & H3)
    end.
    destruct (extend_new_spec ms (members_at merged dim0)) as (E1 & E2 & [t E3]).
    split; [|split].
    + intros dim x. rewrite H1, members_at_merge_entry.
      destruct (String.eqb_spec dim dim0) as [->|Hne].
      * rewrite E1. split.
        -- intros [[?|?]|(ms' & ? & ?)]; [by left| |].
           ++ right. exists ms. split; [left|done].
           ++ right. exists ms'. split; [by right|done].
        -- intros [?|(ms' & [[= <-]|?]%elem_of_cons & ?)].
           ++ left; by left.
           ++ left; by right.
           ++ right. exists ms'. done.
      * split.
        -- intros [?|(ms' & ? & ?)]; [by left|].
           right. exists ms'. split; [by right|done].
        -- intros [?|(ms' & [[= ? ?]|?]%elem_of_cons & ?)]; [by left|done|].
           right. exists ms'. done.
    + intros Hnd. apply H2. intros dim. rewrite members_at_merge_entry.
      destruct (String.eqb dim dim0); [by apply E2|done].
    + intros dim. destruct (H3 dim) as [tail ->].
      rewrite members_at_merge_entry.
      destruct (String.eqb_spec dim dim0) as [->|Hne].
      * exists (t ++ tail). rewrite E3. by rewrite <- app_assoc.
      * by exists tail.
Qed.

Lemma merge_stack_spec (stack : list FixContext) : forall merged,
  (forall dim x, x ∈ members_at (fold_left merge_context stack merged) dim <->
                 x ∈ members_at merged dim \/
                 exists ctx ms, ctx ∈ stack /\ (dim, ms) ∈ ctx /\ x ∈ ms) /\
  ((forall dim, NoDup (members_at merged dim)) ->
   forall dim, NoDup (members_at (fold_left merge_context stack merged) dim)).
Proof.
  induction stack as [|ctx stack IH]; intros merged; cbn [fold_left].
  - split; [|done]. intros dim x. split; [by left|].
    intros [?|(? & ? & ?%elem_of_nil & _)]; done.
  - destruct (IH (merge_context merged ctx)) as (H1 & H2).
    destruct (merge_context_spec ctx merged) as (M1 & M2 & _).
    split.
    + intros dim x. rewrite H1, M1. split.
      * intros [[?|(ms & ? & ?)]|(c & ms & ? & ? & ?)]; [by left| |].
        -- right. exists ctx, ms. split; [left|done].
        -- right. exists c, ms. split; [by right|done].
      * intros [?|(c & ms & [->|?]%elem_of_cons & ? & ?)].
        -- left; by left.
        -- left; right. by exists ms.
        -- right. by exists c, ms.
    + intros Hnd. apply H2. by apply M2.
Qed.

(** C8: merging the stack that holds the contexts (Year: Jan) and then
    (Market: East) gives (Year: Jan, Market: East), and after one pop only
    (Year: Jan) is left.  In general the merged context holds, for every
    dimension, exactly the members that some context of the stack lists
    for it, each once, and a context pushed later only appends to what the
    earlier ones gave (first-seen order).  In the loop over the lines of a
    script a FIX line pushes its context; a line that closes a scope pops
    the top of the stack when there is one and otherwise leaves the empty
    stack as it is, and in both cases changes neither the transforms nor
    the references: an unbalanced close is ignored and is no error. *)
Theorem fix_scope_stack :
  _merge_fix_contexts [year_jan; market_east]
    = [("Year", ["Jan"]); ("Market", ["East"])]
  /\ _merge_fix_contexts (removelast [year_jan; market_east])
    = [("Year", ["Jan"])]
  /\ (forall stack dim x,
        x ∈ members_at (_merge_fix_contexts stack) dim <->
        exists ctx ms, ctx ∈ stack /\ (dim, ms) ∈ ctx /\ x ∈ ms)
  /\ (forall stack dim, NoDup (members_at (_merge_fix_contexts stack) dim))
  /\ (forall stack ctx dim, exists tail,
        members_at (_merge_fix_contexts (stack ++ [ctx])) dim
        = members_at (_merge_fix_contexts stack) dim ++ tail)
  /\ (forall (T R : Type) operation references (st : BodyState T R),
        fix_stack (parse_line T R operation references st fix_year)
          = fix_stack st ++ [year_jan]
        /\ fix_stack (parse_line T R operation references st fix_market)
          = fix_stack st ++ [market_east])
  /\ (forall (T R : Type) operation references (st : BodyState T R) line,
        line = "ENDFIX" \/ line = "  ENDFIX;" \/ line = "endfix ;" ->
        fix_stack (parse_line T R operation references st line)
          = removelast (fix_stack st)
        /\ transforms (parse_line T R operation references st line)
          = transforms st
        /\ referenced_members (parse_line T R operation references st line)
          = referenced_members st)
  /\ (forall (T R : Type) operation references (st : BodyState T R) line r,
        truthy (strip line) = true ->
        startswith "/*" (strip line) = false ->
        startswith "//" (strip line) = false ->
        Regex.search fix_start (strip line) = None ->
        Regex.match_at fix_end (strip line) = Some r ->
        fix_stack (parse_line T R operation references st line)
          = removelast (fix_stack st)
        /\ transforms (parse_line T R operation references st line)
          = transforms st
        /\ referenced_members (parse_line T R operation references st line)
          = referenced_members st)
  /\ (forall (T R : Type) operation references (st : BodyState T R),
        fix_stack st = [] ->
        fix_stack (parse_line T R operation references st "ENDFIX") = [])
  /\ parse_lines Recorded unit record_operation no_references initial_state
       nested_script
     = {| fix_stack := [];
          transforms :=
            [("CALC ALL;", 3, Some [("Year", ["Jan"]); ("Market", ["East"])]);
             ("CALC ALL;", 5, Some [("Year", ["Jan"])]);
             ("CALC ALL;", 8, None)];
          referenced_members := tt;
          line_num := 8 |}.
Proof.
  split; [by vm_compute|]. split; [by vm_compute|].
  split; [|split; [|split; [|split; [|split; [|split; [|split]]]]]].
  - intros stack dim x. unfold _merge_fix_contexts.
    destruct (merge_stack_spec stack []) as [H _]. rewrite H.
    split; [|by right]. intros [?%elem_of_nil|?]; done.
  - intros stack dim. unfold _merge_fix_contexts.
    destruct (merge_stack_spec stack []) as [_ H]. apply H.
    intros d. apply NoDup_nil_2.
  - intros stack ctx dim. unfold _merge_fix_contexts.
    rewrite fold_left_app. cbn [fold_left].
    destruct (merge_context_spec ctx (fold_left merge_context stack []))
      as (_ & _ & H).
    apply H.
  - intros T R operation references st. split; reflexivity.
  - intros T R operation references [fs tr rf n] line [-> | [-> | ->]];
      (split; [destruct fs; reflexivity | split; reflexivity]).
  - intros T R operation references st line r H1 H2 H3 H4 H5.
    unfold parse_line. rewrite H1, H2, H3, H4, H5. cbn.
    split; [by destruct (fix_stack st)|done].
  - intros T R operation references [fs tr rf n] Hempty. cbn in Hempty.
    subst fs. reflexivity.
  - by vm_compute.
Qed.
End MergeFacts.



(** ** Consolidation lineage *)

Section ConsolidationFacts.
Import Py Essbase EssbaseScenarios.

Lemma member_map_fold (ms : list EssbaseMember) c : forall acc,
  (forall ch, dict_get c (fold_left (fun d m => dict_set (name m) m d) ms acc)
              = Some ch ->
              (ch ∈ ms /\ name ch = c) \/ dict_get c acc = Some ch) /\
  (c ∉ map name ms ->
   dict_get c (fold_left (fun d m => dict_set (name m) m d) ms acc)
   = dict_get c acc).
Proof.
  induction ms as [|m ms IH]; intros acc; cbn [fold_left map].
  - split; [by right|done].
  - destruct (IH (dict_set (name m) m acc)) as [H1 H2]. split.
    + intros ch [[? ?]|Hg]%H1; [left; split; [by right|done]|].
      rewrite dict_get_set in Hg.
      destruct (String.eqb_spec c (name m)) as [->|Hne]; [|by right].
      injection Hg as <-. left. split; [left|done].
    + intros Hnot. rewrite H2 by (intros ?; apply Hnot; by right).
      rewrite dict_get_set.
      destruct (String.eqb_spec c (name m)) as [->|Hne]; [|done].
      exfalso. apply Hnot. left.
Qed.

Lemma member_map_unique (ms : list EssbaseMember) ch : forall acc,
  NoDup (map name ms) -> ch ∈ ms ->
  dict_get (name ch) (fold_left (fun d m => dict_set (name m) m d) ms acc)
  = Some ch.
Proof.
  induction ms as [|m ms IH]; intros acc; cbn [fold_left map].
  - by intros _ ?%elem_of_nil.
  - intros [Hm Hnd]%NoDup_cons [->|Hin]%elem_of_cons.
    + destruct (member_map_fold ms (name m) (dict_set (name m) m acc)) as [_ H].
      rewrite H by done. by rewrite dict_get_set, String.eqb_refl.
    + by apply IH.
Qed.

Lemma find_snoc {A : Type} (f : A -> bool) (l : list A) (x : A) :
  List.find f (l ++ [x])
  = match List.find f l with
    | Some y => Some y
    | None => if f x then Some x else None
    end.
Proof.
  induction l as [|y l IH]; cbn [app List.find]; [done|].
  by destruct (f y).
Qed.

Lemma member_map_last (ms : list EssbaseMember) c : forall acc,
  dict_get c (fold_left (fun d m => dict_set (name m) m d) ms acc)
  = match List.find (fun m => String.eqb (name m) c) (rev ms) with
    | Some m => Some m
    | None => dict_get c acc
    end.
Proof.
  induction ms as [|m ms IH]; intros acc; cbn [fold_left rev]; [done|].
  rewrite IH, find_snoc.
  destruct (List.find _ (rev ms)); [done|].
  rewrite dict_get_set, (String.eqb_sym c).
  by destruct (String.eqb (name m) c).
Qed.

Lemma member_map_get d c : dict_get c (member_map d) = last_named c d.
Proof.
  unfold member_map, last_named. rewrite member_map_last.
  by destruct (List.find _ _).
Qed.

Lemma last_named_Some d c ch :
  last_named c d = Some ch -> ch ∈ members d /\ name ch = c.
Proof.
  unfold last_named. intros [Hin Hn]%find_some.
  split; [|by apply String.eqb_eq].
  apply list_elem_of_In. by apply in_rev.
Qed.

Lemma last_named_is_Some d c :
  c ∈ map name (members d) -> is_Some (last_named c d).
Proof.
  intros Hc. apply list_elem_of_In, in_map_iff in Hc as (m & Hm & Hin).
  unfold last_named.
  destruct (List.find _ (rev (members d))) as [x|] eqn:E; [by eexists|].
  exfalso. apply in_rev in Hin.
  pose proof (find_none _ _ E m Hin) as Hf. cbn in Hf.
  rewrite Hm, String.eqb_refl in Hf. discriminate Hf.
Qed.

Lemma children_loop_spec ds d m : forall kids acc,
  fold_left
    (fun mappings child_name =>
       match dict_get child_name (member_map d) with
       | Some child => mappings ++ [consolidation_mapping ds d m child_name child]
       | None => mappings
       end) kids acc
  = acc ++ flat_map (child_edges ds d m) kids.
Proof.
  induction kids as [|c kids IH]; intros acc; cbn [fold_left flat_map].
  - by rewrite app_nil_r.
  - rewrite IH. unfold child_edges at 2.
    destruct (dict_get c (member_map d)); [by rewrite <- app_assoc|done].
Qed.

Lemma members_loop_spec ds d : forall ms acc,
  fold_left
    (fun mappings member =>
       match children member with
       | [] => mappings
       | _ => children_loop ds d (member_map d) member mappings
       end) ms acc
  = acc ++ flat_map (fun m => flat_map (child_edges ds d m) (children m)) ms.
Proof.
  induction ms as [|m ms IH]; intros acc; cbn [fold_left flat_map].
  - by rewrite app_nil_r.
  - rewrite IH. unfold children_loop.
    pose proof (children_loop_spec ds d m (children m) acc) as Hspec.
    destruct (children m) as [|c kids].
    + cbn [flat_map]. done.
    + rewrite Hspec. by rewrite <- app_assoc.
Qed.

Lemma extract_spec cube namespace :
  extract_consolidation_lineage cube namespace =
  flat_map
    (fun d =>
       flat_map (fun m => flat_map
                            (child_edges (application cube +:+ "." +:+ cube_name cube)
                                         d m)
                            (children m))
                (members d))
    (dimensions cube).
Proof.
  unfold extract_consolidation_lineage, members_loop.
  assert (H : forall ds acc,
    fold_left
      (fun mappings dimension =>
         fold_left
           (fun mappings0 member =>
              match children member with
              | [] => mappings0
              | _ => children_loop (application cube +:+ "." +:+ cube_name cube)
                       dimension (member_map dimension) member mappings0
              end) (members dimension) mappings) ds acc
    = acc ++ flat_map
               (fun d =>
                  flat_map (fun m => flat_map
                              (child_edges
                                 (application cube +:+ "." +:+ cube_name cube) d m)
                              (children m)) (members d)) ds).
  { induction ds as [|d ds IH]; intros acc; cbn [fold_left flat_map].
    - by rewrite app_nil_r.
    - rewrite IH, members_loop_spec. by rewrite <- app_assoc. }
  by rewrite H.
Qed.

Lemma child_edges_length ds d m kids :
  length (flat_map (child_edges ds d m) kids) =
  length (List.filter (fun c => dict_mem c (member_map d)) kids).
Proof.
  induction kids as [|c kids IH]; cbn [flat_map List.filter]; [done|].
  rewrite length_app, IH. unfold child_edges, dict_mem.
  by destruct (dict_get c (member_map d)).
Qed.

(** C9 (as stated, refuted): the parent Total records the child Q1, but the
    dimension has no member Q1; the child is skipped and no edge is
    emitted for it. *)
Lemma unknown_child_yields_no_edge :
  extract_consolidation_lineage orphan_child "ns" = []
  /\ ~ every_child_yields_edge.
Proof.
  split; [reflexivity|]. intros H.
  destruct (H orphan_child "ns"
              {| dim_name := "Period";
                 members := [mk_member "Total" ["Q1"] ADDITION] |}
              (mk_member "Total" ["Q1"] ADDITION) "Q1")
    as (e & He & _).
  - left.
  - left.
  - left.
  - vm_compute in He. by apply elem_of_nil in He.
Qed.

(** C9 (amended): the consolidation lineage is the list, over the
    dimensions, their members and the recorded children of each member, of
    the edges of the children that name a member of the same dimension; a
    recorded child that names no member of the dimension is skipped.  For
    each recorded child that names a member exactly one edge is emitted,
    with source the child, target the parent, transformation type
    consolidation, confidence 1.0 and the aggregation tag of the operator
    of the member of that name, the last one listed when several members
    share the name (the only one when the names are distinct), under the
    table + SUM, - SUBTRACT, * MULTIPLY, / DIVIDE, % PERCENT, ~ IGNORE,
    ^ NEVER_CONSOLIDATE; any other operator maps to SUM.  The parent
    Total with the child Q1 under + yields the single edge Q1 to Total
    tagged SUM. *)
Theorem consolidation_lineage (cube : EssbaseCube) (namespace : string) :
  let dataset_name := application cube +:+ "." +:+ cube_name cube in
  extract_consolidation_lineage cube namespace =
    flat_map (fun d =>
                flat_map (fun m => flat_map (child_edges dataset_name d m)
                                            (children m))
                         (members d))
             (dimensions cube)
  /\ (forall d m c,
        d ∈ dimensions cube -> m ∈ members d -> c ∈ children m ->
        c ∈ map name (members d) ->
        exists ch e,
          last_named c d = Some ch
          /\ ch ∈ members d /\ name ch = c
          /\ child_edges dataset_name d m c = [e]
          /\ e ∈ extract_consolidation_lineage cube namespace
          /\ source_dataset e = dataset_name
          /\ source_field e = dim_name d +:+ "." +:+ c
          /\ target_dataset e = dataset_name
          /\ target_field e = dim_name d +:+ "." +:+ name m
          /\ transformation_type e = Some "consolidation"
          /\ confidence e = 1%Q
          /\ aggregation_function e =
               Some (_consolidation_to_transform
                       (consolidation_value (consolidation ch))))
  /\ (forall d ch,
        NoDup (map name (members d)) -> ch ∈ members d ->
        last_named (name ch) d = Some ch)
  /\ (forall d m c, c ∉ map name (members d) ->
                    child_edges dataset_name d m c = [])
  /\ length (extract_consolidation_lineage cube namespace) =
       list_sum
         (map (fun d =>
                 list_sum
                   (map (fun m =>
                           length (List.filter
                                     (fun c => dict_mem c (member_map d))
                                     (children m)))
                        (members d)))
              (dimensions cube))
  /\ (forall c,
        _consolidation_to_transform (consolidation_value c) =
        match c with
        | ADDITION => "SUM"
        | SUBTRACTION => "SUBTRACT"
        | MULTIPLICATION => "MULTIPLY"
        | DIVISION => "DIVIDE"
        | PERCENT => "PERCENT"
        | IGNORE => "IGNORE"
        | NEVER => "NEVER_CONSOLIDATE"
        end)
  /\ (_consolidation_to_transform "+" = "SUM"
      /\ _consolidation_to_transform "-" = "SUBTRACT"
      /\ _consolidation_to_transform "*" = "MULTIPLY"
      /\ _consolidation_to_transform "/" = "DIVIDE"
      /\ _consolidation_to_transform "%" = "PERCENT"
      /\ _consolidation_to_transform "~" = "IGNORE"
      /\ _consolidation_to_transform "^" = "NEVER_CONSOLIDATE")
  /\ (forall operator,
        operator ∉ ["+"; "-"; "*"; "/"; "%"; "~"; "^"] ->
        _consolidation_to_transform operator = "SUM")
  /\ map (fun e => (source_field e, target_field e, transformation_type e,
                    aggregation_function e))
         (extract_consolidation_lineage quarters namespace)
     = [("Period.Q1", "Period.Total", Some "consolidation", Some "SUM")].
Proof.
  intros dataset_name.
  split; [apply extract_spec|].
  split; [|split; [|split; [|split; [|split; [|split; [|split]]]]]].
  - intros d m c Hd Hm Hc Hnamed.
    destruct (last_named_is_Some d c Hnamed) as [ch Hlast].
    destruct (last_named_Some d c ch Hlast) as [Hch Hname].
    assert (Hget : dict_get c (member_map d) = Some ch).
    { by rewrite member_map_get. }
    exists ch, (consolidation_mapping dataset_name d m c ch).
    split; [done|]. split; [done|]. split; [done|].
    split; [unfold child_edges; by rewrite Hget|].
    split; [|done].
    rewrite extract_spec. apply list_elem_of_In, in_flat_map.
    exists d. split; [by apply list_elem_of_In|].
    apply in_flat_map. exists m. split; [by apply list_elem_of_In|].
    apply in_flat_map. exists c. split; [by apply list_elem_of_In|].
    unfold child_edges. fold dataset_name. rewrite Hget. by left.
  - intros d ch Hnd Hch. rewrite <- member_map_get.
    by apply member_map_unique.
  - intros d m c Hnot. unfold child_edges, member_map.
    destruct (member_map_fold (members d) c []) as [_ H]. by rewrite H.
  - rewrite extract_spec. fold dataset_name. rewrite length_flat_map.
    f_equal. apply map_ext. intros d. rewrite length_flat_map.
    f_equal. apply map_ext. intros m. apply child_edges_length.
  - by intros [].
  - done.
  - intros op Hop. unfold _consolidation_to_transform.
    repeat match goal with
           | |- context [String.eqb op ?s] =>
               destruct (String.eqb_spec op s) as [->|_];
               [exfalso; apply Hop; set_solver|]
           end.
    reflexivity.
  - reflexivity.
Qed.
End ConsolidationFacts.



(** ** The scenarios, evaluated *)

Section Evaluated.
Import Py Infa InfaScenarios.

(** The trace of [A.x] in the cycle A -> B -> C -> A visits A, C and B once
    each and stops when it meets [A.x] again. *)
Example trace_of_cycle :
  option_map (fun r => (map instance_name (fst r), map step_order (fst r),
                        elements (snd r)))
    (_trace_field_lineage 4 empty_folder cycle3 "A" "x"
       (_build_instance_graph cycle3) ∅ 0%Z)
  = Some (["A"; "C"; "B"], [0; 1; 2]%Z, elements ({[ "A.x"; "C.x"; "B.x" ]} : gset string)).
Proof. vm_compute. reflexivity. Qed.

(** The chain of the target field of [straight], target first. *)
Example trace_of_straight :
  option_map (fun r => map (fun s => (instance_name s, input_fields s)) (fst r))
    (_trace_field_lineage 4 empty_folder straight "TGT" "c"
       (_build_instance_graph straight) ∅ 0%Z)
  = Some [("TGT", [("EXP", "b")]); ("EXP", [("SRC", "a")]); ("SRC", [])].
Proof. vm_compute. reflexivity. Qed.

(** An acyclic mapping is sequenced along its connectors. *)
Example order_of_straight :
  _get_transformation_order elements 4 straight = Some ["SRC"; "EXP"; "TGT"].
Proof. vm_compute. reflexivity. Qed.

(** Scenario 1: the projection [COUNT(o.ORDER_ID) AS ORDER_COUNT] depends on
    [ORDERS.ORDER_ID]. *)
Example orders_projection :
  parse_sql parse_orders orders_sql
    (map (fun entry : string * SourceDefinition =>
            (fst entry, sd_fields (snd entry))) (sources orders_folder))
  = [([("CUSTOMERS", "CUSTOMER_ID")], "CUSTOMER_ID", Some "c.CUSTOMER_ID");
     ([("ORDERS", "ORDER_ID")], "ORDER_COUNT",
      Some "COUNT(o.ORDER_ID) AS ORDER_COUNT")].
Proof. vm_compute. reflexivity. Qed.

(** A wildcard edge and a projection edge into one target column: one
    fine-grained lineage, whose only upstream field is the projection's, with
    the smaller confidence, and both source datasets as inputs. *)
Example job_io_of_mixed_edges :
  let '(inputs, outputs, fine_grained) :=
    _build_job_io urn_field urn_dataset plain_config mixed_edges in
  map upstreams fine_grained
    = [[urn_field (urn_dataset "oracle" "ORDERS" "PROD") "ORDER_ID"]]
  /\ map confidenceScore fine_grained = [sql_confidence]
  /\ map transformOperation fine_grained
    = [Some "CALL PKG.GET_KEY -> COUNT(o.ORDER_ID) AS ORDER_COUNT"]
  /\ elements inputs
    = elements ({[ urn_dataset "oracle" "PKG.GET_KEY" "PROD";
                   urn_dataset "oracle" "ORDERS" "PROD" ]} : gset string)
  /\ elements outputs = [urn_dataset "oracle" "TGT" "PROD"].
Proof. vm_compute. repeat split; reflexivity. Qed.

(** Two members of one name: the edge of the child carries the tag of the
    member listed last. *)
Example consolidation_of_shared_name :
  map (fun e => (Essbase.source_field e, Essbase.target_field e,
                 Essbase.aggregation_function e))
      (Essbase.extract_consolidation_lineage EssbaseScenarios.shared_name "ns")
  = [("Period.Q1", "Period.Total", Some "SUBTRACT")].
Proof. vm_compute. reflexivity. Qed.

End Evaluated.

(** ** The search for the source of a field *)

Section SourceSearch.
Import Py Infa InfaSearch.
Variable folder : FolderInfo.
Variable mapping : MappingInfo.

Local Abbreviation loop := (find_source_loop).
Local Abbreviation nexts p :=
  (map from_pair (List.filter (connects_to (fst p) (snd p)) (connectors mapping))).

Lemma find_source_loop_step fuel p queue visited :
  find_source_loop (S fuel) folder mapping (p :: queue) visited =
  if decide (pair_key p ∈ visited)
  then find_source_loop fuel folder mapping queue visited
  else match dict_get (fst p) (instances mapping) with
       | None =>
           find_source_loop fuel folder mapping queue ({[pair_key p]} ∪ visited)
       | Some _ =>
           match source_hit folder mapping p with
           | Some ds => Some (Some (ds, snd p))
           | None =>
               find_source_loop fuel folder mapping (queue ++ nexts p)
                 ({[pair_key p]} ∪ visited)
           end
       end.
Proof.
  destruct p as [ci cf]. unfold source_hit, pair_key. cbn [find_source_loop fst snd].
  destruct (decide _); [done|].
  destruct (dict_get ci (instances mapping)) as [i|]; [|done].
  destruct (transformation_type i); try done.
  by destruct (dict_get _ (sources folder)).
Qed.

Lemma nexts_length p : length (nexts p) <= length (connectors mapping).
Proof. rewrite length_map. apply List.filter_length_le. Qed.

Lemma nexts_search_pairs start p q : q ∈ nexts p -> q ∈ search_pairs mapping start.
Proof.
  intros Hq. right. apply list_elem_of_In, in_map_iff in Hq as (c & <- & Hc).
  apply filter_In in Hc as [Hc _]. apply list_elem_of_In, in_map. done.
Qed.

Lemma find_source_loop_terminates start fuel : forall queue visited,
  (forall p, p ∈ queue -> p ∈ search_pairs mapping start) ->
  length queue
  + S (length (connectors mapping))
    * size (keys_of (search_pairs mapping start) ∖ visited) < fuel ->
  exists r, find_source_loop fuel folder mapping queue visited = Some r.
Proof.
  induction fuel as [|fuel IH]; intros queue visited Hq Hfuel; [lia|].
  destruct queue as [|p queue]; [by eexists|].
  rewrite find_source_loop_step. cbn [length] in Hfuel.
  assert (Hq' : forall q, q ∈ queue -> q ∈ search_pairs mapping start).
  { intros q Hin. apply Hq. by right. }
  destruct (decide (pair_key p ∈ visited)) as [Hin|Hnin].
  { apply IH; [done|lia]. }
  assert (Hk : pair_key p ∈ keys_of (search_pairs mapping start)).
  { unfold keys_of. apply elem_of_list_to_set, list_elem_of_In, in_map, list_elem_of_In.
    apply Hq. left. }
  assert (Hlt : size (keys_of (search_pairs mapping start)
                       ∖ ({[pair_key p]} ∪ visited))
                < size (keys_of (search_pairs mapping start) ∖ visited)).
  { apply subset_size. set_solver. }
  destruct (dict_get (fst p) (instances mapping)).
  2:{ apply IH; [done|]. nia. }
  destruct (source_hit folder mapping p); [by eexists|].
  apply IH.
  - intros q [Hin|Hin]%elem_of_app; [by apply Hq'|].
    by eapply nexts_search_pairs.
  - rewrite length_app. pose proof (nexts_length p). nia.
Qed.

Lemma find_source_loop_mono n : forall k queue visited r,
  find_source_loop n folder mapping queue visited = Some r ->
  find_source_loop (n + k) folder mapping queue visited = Some r.
Proof.
  induction n as [|n IH]; intros k queue visited r; [done|].
  destruct queue as [|p queue]; [done|].
  rewrite Nat.add_succ_l, !find_source_loop_step.
  destruct (decide _); [apply IH|].
  destruct (dict_get _ _); [|apply IH].
  destruct (source_hit _ _ _); [done|apply IH].
Qed.

(** X1: the search for the source of a field, a loop over a queue that
    Python does not bound, returns on every mapping, cyclic or not: a fuel
    of [2 + (n + 1) * (n + 1)] for [n] connectors is enough, and more fuel
    does not change the answer. *)
Theorem find_source_terminates (instance_name field_name : string) :
  let n := length (connectors mapping) in
  exists r, forall k,
    _find_source_for_instance (2 + S n * S n + k) folder mapping
      instance_name field_name = Some r.
Proof.
  intros n. unfold _find_source_for_instance.
  destruct (find_source_loop_terminates (instance_name, field_name)
              (2 + S n * S n) [(instance_name, field_name)] ∅) as [r Hr].
  - intros p ->%list_elem_of_singleton. left.
  - cbn [length].
    assert (size (keys_of (search_pairs mapping (instance_name, field_name)) ∖ ∅)
            <= S n).
    { etrans;
        [apply (subseteq_size _
                  (keys_of (search_pairs mapping (instance_name, field_name))));
         set_solver|].
      unfold keys_of. etrans; [apply size_list_to_set_le|].
      unfold search_pairs. cbn [map length]. rewrite !length_map. done. }
    fold n. nia.
  - exists r. intros k. by apply find_source_loop_mono.
Qed.

Lemma find_source_loop_sound start fuel : forall queue visited ds col,
  (forall p, p ∈ queue -> rtc (explores mapping) start p) ->
  find_source_loop fuel folder mapping queue visited = Some (Some (ds, col)) ->
  exists inst, rtc (explores mapping) start (inst, col) /\
               source_hit folder mapping (inst, col) = Some ds.
Proof.
  induction fuel as [|fuel IH]; intros queue visited ds col Hq; [done|].
  destruct queue as [|p queue]; [done|].
  rewrite find_source_loop_step.
  assert (Hq' : forall q, q ∈ queue -> rtc (explores mapping) start q).
  { intros q Hin. apply Hq. by right. }
  destruct (decide _); [by apply IH|].
  destruct (dict_get (fst p) (instances mapping)) as [i|] eqn:Hi; [|by apply IH].
  destruct (source_hit folder mapping p) as [ds'|] eqn:Hhit.
  - intros [= <- <-]. exists (fst p). destruct p as [a b]. cbn [fst snd].
    split; [|done]. apply Hq. left.
  - apply IH. intros q [Hin|Hin]%elem_of_app; [by apply Hq'|].
    eapply rtc_r; [apply Hq; left|].
    split; [by rewrite Hi|].
    apply list_elem_of_In, in_map_iff in Hin as (c & <- & Hc).
    apply filter_In in Hc as [Hc Hto]. exists c.
    split; [by apply list_elem_of_In|done].
Qed.

Lemma source_hit_Some p ds :
  source_hit folder mapping p = Some ds <->
  exists info source_def,
    dict_get (fst p) (instances mapping) = Some info /\
    transformation_type info = SOURCE_DEFINITION /\
    dict_get (transformation_name info) (sources folder) = Some source_def /\
    ds = _build_source_dataset_name source_def.
Proof.
  unfold source_hit. split.
  - destruct (dict_get (fst p) (instances mapping)) as [info|]; [|done].
    destruct (transformation_type info) eqn:Ht; try done.
    destruct (dict_get _ (sources folder)) as [sd|] eqn:Hs; [|done].
    intros [= <-]. by exists info, sd.
  - intros (info & sd & -> & -> & -> & ->). done.
Qed.

Lemma find_source_loop_complete start fuel :
  (forall p q, p ∈ search_pairs mapping start ->
               q ∈ search_pairs mapping start ->
               pair_key p = pair_key q -> p = q) ->
  forall queue visited,
    search_inv folder mapping start queue visited ->
    find_source_loop fuel folder mapping queue visited = Some None ->
    exists visited', search_inv folder mapping start [] visited'.
Proof.
  intros Hinj. induction fuel as [|fuel IH]; intros queue visited Hinv; [done|].
  destruct queue as [|p0 queue]; [by exists visited|].
  rewrite find_source_loop_step.
  destruct Hinv as (Ha & Hb & Hc).
  assert (Hp0 : p0 ∈ search_pairs mapping start) by (apply Hb; left).
  assert (Hb' : forall q, q ∈ queue -> q ∈ search_pairs mapping start).
  { intros q Hin. apply Hb. by right. }
  destruct (decide (pair_key p0 ∈ visited)) as [Hin|Hnin].
  { apply IH. split; [|split; [done|]].
    - destruct Ha as [[->|?]%elem_of_cons|?]; auto.
    - intros p Hp Hv. destruct (Hc p Hp Hv) as [H1 H2]. split; [done|].
      intros p' Hp'. destruct (H2 p' Hp') as [[->|?]%elem_of_cons|?]; auto. }
  destruct (dict_get (fst p0) (instances mapping)) as [i|] eqn:Hi.
  - destruct (source_hit folder mapping p0) eqn:Hhit; [done|].
    apply IH. split; [|split].
    + destruct Ha as [[->|?]%elem_of_cons|?].
      * right. set_solver.
      * left. apply elem_of_app. by left.
      * right. set_solver.
    + intros q [?|?]%elem_of_app; [by apply Hb'|by eapply nexts_search_pairs].
    + intros p Hp [Hv|Hv]%elem_of_union.
      * apply elem_of_singleton in Hv. apply Hinj in Hv as ->; [|done|done].
        split; [done|]. intros p' (_ & c & Hc1 & Hc2 & <-). left.
        apply elem_of_app. right.
        apply list_elem_of_In, in_map, filter_In. split; [by apply list_elem_of_In|done].
      * destruct (Hc p Hp Hv) as [H1 H2]. split; [done|].
        intros p' Hp'. destruct (H2 p' Hp') as [[->|?]%elem_of_cons|?].
        -- right. set_solver.
        -- left. apply elem_of_app. by left.
        -- right. set_solver.
  - apply IH. split; [|split; [done|]].
    + destruct Ha as [[->|?]%elem_of_cons|?]; [right|by left|right]; set_solver.
    + intros p Hp [Hv|Hv]%elem_of_union.
      * apply elem_of_singleton in Hv. apply Hinj in Hv as ->; [|done|done].
        split; [unfold source_hit; by rewrite Hi|].
        intros p' ([? Hs] & _). congruence.
      * destruct (Hc p Hp Hv) as [H1 H2]. split; [done|].
        intros p' Hp'. destruct (H2 p' Hp') as [[->|?]%elem_of_cons|?];
          [right|by left|right]; set_solver.
Qed.

(** X2: when the search answers with a dataset and a column, the column is a
    field of a Source Definition instance that the start field is
    connected to, and the dataset is the one of that source. *)
Theorem found_source_is_upstream (fuel : nat)
    (instance_name field_name ds col : string) :
  _find_source_for_instance fuel folder mapping instance_name field_name
  = Some (Some (ds, col)) ->
  exists inst info source_def,
    rtc (explores mapping) (instance_name, field_name) (inst, col) /\
    dict_get inst (instances mapping) = Some info /\
    transformation_type info = SOURCE_DEFINITION /\
    dict_get (transformation_name info) (sources folder) = Some source_def /\
    ds = _build_source_dataset_name source_def.
Proof.
  intros H. apply (find_source_loop_sound (instance_name, field_name)) in H
    as (inst & Hreach & Hhit).
  - apply source_hit_Some in Hhit as (info & sd & ? & ? & ? & ?).
    by exists inst, info, sd.
  - intros p ->%list_elem_of_singleton. done.
Qed.

(** X3: when the search answers that there is no source, no field that the
    start field is connected to through instances of the mapping belongs
    to a Source Definition of the folder; this needs the keys
    [instance.field] of the pairs in play to be distinct. *)
Theorem missing_source_is_unreachable (fuel : nat)
    (instance_name field_name : string) :
  (forall p q, p ∈ search_pairs mapping (instance_name, field_name) ->
               q ∈ search_pairs mapping (instance_name, field_name) ->
               pair_key p = pair_key q -> p = q) ->
  _find_source_for_instance fuel folder mapping instance_name field_name
  = Some None ->
  forall inst col info,
    rtc (explores mapping) (instance_name, field_name) (inst, col) ->
    dict_get inst (instances mapping) = Some info ->
    transformation_type info = SOURCE_DEFINITION ->
    dict_get (transformation_name info) (sources folder) = None.
Proof.
  intros Hinj H.
  enough (Hnone : forall p,
             rtc (explores mapping) (instance_name, field_name) p ->
             source_hit folder mapping p = None).
  { intros inst col info Hp Hinfo Hkind. specialize (Hnone _ Hp).
    unfold source_hit in Hnone. cbn [fst] in Hnone.
    rewrite Hinfo, Hkind in Hnone.
    by destruct (dict_get _ (sources folder)). }
  apply (find_source_loop_complete (instance_name, field_name) _ Hinj) in H
    as (visited & Ha & _ & Hc).
  2:{ split; [left; left|]. split.
      - intros p ->%list_elem_of_singleton. left.
      - intros p _ Hv. by apply elem_of_empty in Hv. }
  assert (Hall : forall p, rtc (explores mapping) (instance_name, field_name) p ->
                  p ∈ search_pairs mapping (instance_name, field_name) /\
                  pair_key p ∈ visited).
  { apply (rtc_ind_r
             (fun p => p ∈ search_pairs mapping (instance_name, field_name) /\
                       pair_key p ∈ visited)).
    - split; [left|]. destruct Ha as [?%elem_of_nil|?]; done.
    - intros p p' Hp Hstep IH. destruct IH as [IH1 IH2]. destruct (Hc p IH1 IH2) as [_ Hnext].
      split.
      + destruct Hstep as (_ & c & Hc1 & _ & <-). right.
        by apply list_elem_of_In, in_map, list_elem_of_In.
      + destruct (Hnext p' Hstep) as [?%elem_of_nil|?]; done. }
  intros p Hp. destruct (Hall p Hp) as [H1 H2]. by destruct (Hc p H1 H2).
Qed.

End SourceSearch.

Section SourceSearchWitnesses.
Import Py Infa InfaScenarios InfaSearch.

Lemma found_source_is_upstream_witness :
  exists inst info source_def,
    rtc (explores orders_mapping) ("SQ", "CUSTOMER_ID") (inst, "CUSTOMER_ID") /\
    dict_get inst (instances orders_mapping) = Some info /\
    transformation_type info = SOURCE_DEFINITION /\
    dict_get (transformation_name info) (sources orders_folder)
    = Some source_def /\
    "CUSTOMERS" = _build_source_dataset_name source_def.
Proof.
  apply (found_source_is_upstream orders_folder orders_mapping 3
           "SQ" "CUSTOMER_ID" "CUSTOMERS" "CUSTOMER_ID").
  vm_compute. reflexivity.
Defined.

Lemma missing_source_is_unreachable_witness :
  dict_get (transformation_name (snd (mk_instance "SRC" SOURCE_DEFINITION)))
           (sources empty_folder) = None.
Proof.
  refine (missing_source_is_unreachable empty_folder straight 4 "TGT" "c"
            _ _ "SRC" "a" _ _ eq_refl eq_refl).
  - intros p q Hp Hq. cbn in Hp, Hq.
    repeat (apply elem_of_cons in Hp as [->|Hp]);
      try (by apply elem_of_nil in Hp);
      repeat (apply elem_of_cons in Hq as [->|Hq]);
      try (by apply elem_of_nil in Hq);
      vm_compute; intros H; first [reflexivity | discriminate H].
  - vm_compute. reflexivity.
  - eapply rtc_l; [|eapply rtc_l; [|apply rtc_refl]].
    + split; [by eexists|].
      exists (mk_connector "EXP" "b" "TGT" "c").
      split; [right; left|]. split; reflexivity.
    + split; [by eexists|].
      exists (mk_connector "SRC" "a" "EXP" "b").
      split; [left|]. split; reflexivity.
Defined.
End SourceSearchWitnesses.

(** ** Transformation type names *)

Section TypeNames.
Import Py Infa InfaTypes.

Lemma first_member_lower a b :
  lower a = lower b -> first_member members a = first_member members b.
Proof.
  intros H. unfold members. cbv [first_member]. by rewrite H.
Qed.

Lemma first_member_value t : first_member members (type_value t) = t.
Proof. by destruct t. Qed.

Lemma lower_upper s : lower (upper s) = lower s.
Proof.
  induction s as [|c s IH]; [done|]. cbn [upper lower]. f_equal; [|done].
  unfold lower_ascii, upper_ascii.
  destruct c as [[] [] [] [] [] [] [] []]; reflexivity.
Qed.

Lemma lower_lower s : lower (lower s) = lower s.
Proof.
  induction s as [|c s IH]; [done|]. cbn [lower]. f_equal; [|done].
  unfold lower_ascii.
  destruct c as [[] [] [] [] [] [] [] []]; reflexivity.
Qed.

Lemma is_ascii_value t :
  is_ascii (type_value t) = true /\
  is_ascii (upper (type_value t)) = true /\
  is_ascii (lower (type_value t)) = true.
Proof. by destruct t. Qed.

Lemma first_member_spec value t :
  first_member members value = t <->
  lower value = lower (type_value t) \/
  (t = UNKNOWN /\ forall t', lower value <> lower (type_value t')).
Proof.
  split.
  - intros <-. unfold members. cbv [first_member].
    repeat match goal with
           | |- context [String.eqb ?a (lower value)] =>
               destruct (String.eqb_spec a (lower value)) as [E|?];
                 [left; by rewrite <- E|]
           end.
    right. split; [done|]. intros t' E. destruct t'; congruence.
  - intros [H|[-> Hno]].
    + etrans; [apply first_member_lower, H|apply first_member_value].
    + unfold members. cbv [first_member].
      repeat match goal with
             | |- context [String.eqb (lower (type_value ?m)) (lower value)] =>
                 destruct (String.eqb_spec (lower (type_value m)) (lower value))
                   as [E|_]; [exfalso; exact (Hno m (eq_sym E))|]
             end.
      done.
Qed.

(** X4: on strings of ASCII characters [TransformationType.from_string]
    inverts [value] whatever the case of the letters, and is [UNKNOWN] on
    every string that is the name of no member: it answers [t] exactly
    when the string is the name of [t] up to case, or when it is no name
    at all and [t] is [UNKNOWN].  Strings with other characters, on which
    the case mapping is that of Unicode, are left out: the model says
    nothing of them. *)
Theorem from_string_inverts_value :
  (forall t, from_string (type_value t) = Some t /\
             from_string (upper (type_value t)) = Some t /\
             from_string (lower (type_value t)) = Some t) /\
  (forall value t,
      from_string value = Some t <->
      is_ascii value = true /\
      (lower value = lower (type_value t) \/
       (t = UNKNOWN /\ forall t', lower value <> lower (type_value t')))) /\
  (forall value, from_string value = None <-> is_ascii value = false).
Proof.
  split; [|split].
  - intros t. destruct (is_ascii_value t) as (H1 & H2 & H3).
    unfold from_string. rewrite H1, H2, H3.
    split; [by rewrite first_member_value|]. split; f_equal.
    + etrans; [apply first_member_lower, lower_upper|apply first_member_value].
    + etrans; [apply first_member_lower, lower_lower|apply first_member_value].
  - intros value t. unfold from_string.
    destruct (is_ascii value).
    + rewrite <- first_member_spec. split.
      * intros [= <-]. done.
      * intros [_ <-]. done.
    + split; [done|]. by intros [? _].
  - intros value. unfold from_string. by destruct (is_ascii value).
Qed.
End TypeNames.

(** ** References to stored procedures *)

Section RefFacts.
Import Py Infa InfaScenarios InfaRefs.
Variable make_data_flow_urn : string -> string -> string -> string.
Variable make_data_job_urn_with_flow : string -> string -> string.
Variable make_dataset_urn : string -> string -> string -> string.
Variable cfg : EmitterConfig.

Local Abbreviation job_urn proc_name :=
  (make_data_job_urn_with_flow
     (make_data_flow_urn "oracle" "stored_procedures" (env cfg)) proc_name).
Local Abbreviation job_refs :=
  (build_stored_procedure_refs make_data_flow_urn make_data_job_urn_with_flow cfg).
Local Abbreviation dataset_refs :=
  (build_stored_procedure_dataset_refs make_dataset_urn cfg).

Lemma type_eqb_eq a b : TransformationType_eqb a b = true <-> a = b.
Proof. destruct a, b; cbn; split; intros H; congruence. Qed.

Lemma refs_fold (f : string -> string) edges : forall (acc : gset string) u,
  u ∈ fold_left
        (fun (proc_refs : gset string) edge =>
           if TransformationType_eqb (cle_transformation_type edge) STORED_PROCEDURE
           then {[f (Infa.source_dataset edge)]} ∪ proc_refs else proc_refs)
        edges acc <->
  u ∈ acc \/ exists e, e ∈ edges /\ cle_transformation_type e = STORED_PROCEDURE /\
                       u = f (Infa.source_dataset e).
Proof.
  induction edges as [|e edges IH]; intros acc u; cbn [fold_left].
  - split; [by left|]. intros [?|(? & ?%elem_of_nil & _)]; done.
  - rewrite IH. destruct (TransformationType_eqb _ _) eqn:Ht.
    + apply type_eqb_eq in Ht. rewrite elem_of_union, elem_of_singleton. split.
      * intros [[->|?]|(e' & ? & ? & ?)]; [right|by left|right].
        -- exists e. split; [left|done].
        -- exists e'. split; [by right|done].
      * intros [?|(e' & [->|?]%elem_of_cons & ? & ?)]; [left; by right| |].
        -- left; by left.
        -- right. by exists e'.
    + split.
      * intros [?|(e' & ? & ? & ?)]; [by left|right].
        exists e'. split; [by right|done].
      * intros [?|(e' & [->|?]%elem_of_cons & He & ?)]; [by left| |].
        -- apply type_eqb_eq in He. congruence.
        -- right. by exists e'.
Qed.

(** X5: the procedure references are built from the edges of type Stored
    Procedure and from nothing else, one per distinct source dataset; so a
    procedure call detected in the SQL of a Source Qualifier ends up as the
    single reference to [schema.proc] (to [proc] when the call names no
    schema), as a job and as a dataset alike. *)
Theorem detected_call_is_referenced (parse_one : string -> option Parsed)
    (folder : FolderInfo) (sql target_table target_col schema proc : string)
    (step : TransformationStep) :
  detect_stored_procedure_call sql = Some (schema, proc) ->
  let edges :=
    _parse_sql_lineage parse_one folder sql target_table target_col step in
  let qualified :=
    if truthy schema then schema +:+ "." +:+ proc else proc in
  job_refs edges = {[job_urn qualified]} /\
  dataset_refs edges
  = {[make_dataset_urn "oracle" qualified (env cfg)]} /\
  (forall others u,
      u ∈ job_refs others <->
      exists e, e ∈ others /\ cle_transformation_type e = STORED_PROCEDURE /\
                u = job_urn (Infa.source_dataset e)).
Proof.
  intros Hcall edges qualified. subst edges.
  unfold _parse_sql_lineage. rewrite Hcall.
  split; [|split].
  - cbn. apply (right_id_L ∅ (∪)).
  - cbn. apply (right_id_L ∅ (∪)).
  - intros others u. unfold build_stored_procedure_refs.
    rewrite (refs_fold (fun n => job_urn n)). split; [|by right].
    intros [?%elem_of_empty|?]; done.
Qed.

End RefFacts.

Section RefWitness.
Import Py Infa InfaScenarios InfaRefs.

Lemma detected_call_is_referenced_witness :
  build_stored_procedure_refs urn_dataset urn_field plain_config
    (_parse_sql_lineage parse_orders orders_folder
       "BEGIN PKG.GET_KEY(:1,:2); END;" "TGT" "ORDER_COUNT" orders_step)
  = {[urn_field (urn_dataset "oracle" "stored_procedures" "PROD") "PKG.GET_KEY"]}.
Proof.
  apply (detected_call_is_referenced urn_dataset urn_field urn_dataset
           plain_config parse_orders orders_folder
           "BEGIN PKG.GET_KEY(:1,:2); END;" "TGT" "ORDER_COUNT"
           "PKG" "GET_KEY" orders_step).
  vm_compute. reflexivity.
Defined.
End RefWitness.

(** ** The summary of the extracted lineage *)

Section SummaryFacts.
Import Py Infa InfaSummary.
Local Open Scope Z_scope.

Lemma sum_values_bump k (d : dict Z) :
  sum_values (dict_set k (default 0 (dict_get k d) + 1) d) = sum_values d + 1.
Proof.
  unfold sum_values, dict_values.
  induction d as [|[k' v] d IH]; cbn [dict_set dict_get].
  - cbn. lia.
  - destruct (String.eqb k k'); cbn [map snd fold_right].
    + unfold default. cbn [from_option id]. lia.
    + rewrite IH. lia.
Qed.

Lemma count_fold edges : forall st,
  let st' := fold_left count_edge edges st in
  sum_values (edges_by_type st')
  = sum_values (edges_by_type st) + Z.of_nat (length edges) /\
  (forall name,
      default 0 (dict_get name (edges_by_type st'))
      = default 0 (dict_get name (edges_by_type st))
        + Z.of_nat (length (of_type name edges))) /\
  (forall name, is_Some (dict_get name (edges_by_type st')) <->
                is_Some (dict_get name (edges_by_type st)) \/
                of_type name edges <> []) /\
  source_set st' = list_to_set (map Infa.source_dataset edges) ∪ source_set st /\
  target_set st' = list_to_set (map Infa.target_dataset edges) ∪ target_set st /\
  (forall x, x ∈ proc_calls st' <->
             x ∈ proc_calls st \/
             exists e, e ∈ edges /\ cle_transformation_type e = STORED_PROCEDURE /\
                       x = Infa.source_dataset e).
Proof.
  induction edges as [|e edges IH]; intros st; cbn [fold_left].
  - cbn [length of_type List.filter map list_to_set].
    split; [lia|]. split; [intros; cbn; lia|].
    split; [intros; split; [by left|by intros [?|?]]|].
    split; [set_solver|]. split; [set_solver|].
    intros x. split; [by left|]. intros [?|(? & ?%elem_of_nil & _)]; done.
  - destruct (IH (count_edge st e)) as (H1 & H2 & H3 & H4 & H5 & H6). clear IH.
    cbv zeta. split; [|split; [|split; [|split; [|split]]]].
    + rewrite H1. cbn [count_edge edges_by_type]. rewrite sum_values_bump.
      cbn [length]. lia.
    + intros name. rewrite H2. cbn [count_edge edges_by_type].
      rewrite dict_get_set. unfold of_type. cbn [List.filter].
      rewrite (String.eqb_sym name).
      destruct (String.eqb _ name) eqn:E; unfold default;
        cbn [length from_option id].
      * apply String.eqb_eq in E. rewrite E. lia.
      * lia.
    + intros name. rewrite H3. cbn [count_edge edges_by_type].
      rewrite dict_get_set. unfold of_type. cbn [List.filter].
      rewrite (String.eqb_sym name).
      destruct (String.eqb _ name) eqn:E.
      * split; [intros _; by right|]. intros _. left. by eexists.
      * tauto.
    + rewrite H4. cbn [count_edge source_set map list_to_set]. set_solver.
    + rewrite H5. cbn [count_edge target_set map list_to_set]. set_solver.
    + intros x. rewrite H6. cbn [count_edge proc_calls].
      destruct (TransformationType_eqb _ _) eqn:Ht.
      * apply type_eqb_eq in Ht. rewrite elem_of_union, elem_of_singleton. split.
        -- intros [[->|?]|(e' & ? & ? & ?)]; [right|by left|right].
           ++ exists e. split; [left|done].
           ++ exists e'. split; [by right|done].
        -- intros [?|(e' & [->|?]%elem_of_cons & ? & ?)]; [left; by right| |].
           ++ left; by left.
           ++ right. by exists e'.
      * split.
        -- intros [?|(e' & ? & ? & ?)]; [by left|right].
           exists e'. split; [by right|done].
        -- intros [?|(e' & [->|?]%elem_of_cons & He & ?)]; [by left| |].
           ++ apply type_eqb_eq in He. congruence.
           ++ right. by exists e'.
Qed.

(** X6: in the summary the counts per transformation type add up to
    [total_edges]; a type is listed exactly when some edge has it, with
    the number of those edges, which is positive; the numbers of source
    and of target datasets do not exceed the number of edges; and every
    procedure listed under [stored_procedure_calls] is the source dataset
    of an edge of type Stored Procedure. *)
Theorem summary_counts_add_up (edges : list ColumnLineageEdge) :
  let s := get_lineage_summary edges in
  sum_values (edges_by_transformation_type s) = total_edges s /\
  (forall name n,
      dict_get name (edges_by_transformation_type s) = Some n <->
      n = Z.of_nat (length (of_type name edges)) /\ 0 < n) /\
  0 <= source_datasets s <= total_edges s /\
  0 <= target_datasets s <= total_edges s /\
  (forall x, x ∈ stored_procedure_calls s <->
             exists e, e ∈ edges /\ cle_transformation_type e = STORED_PROCEDURE /\
                       x = Infa.source_dataset e).
Proof.
  cbv zeta. unfold get_lineage_summary.
  cbn [total_edges edges_by_transformation_type source_datasets target_datasets
       stored_procedure_calls].
  destruct (count_fold edges
              {| edges_by_type := []; source_set := ∅; target_set := ∅;
                 proc_calls := ∅ |}) as (H1 & H2 & H3 & H4 & H5 & H6).
  cbv zeta in *. cbn [edges_by_type source_set target_set proc_calls] in *.
  split; [|split; [|split; [|split]]].
  - rewrite H1. unfold sum_values. cbn. lia.
  - intros name n. specialize (H2 name). specialize (H3 name).
    cbn [dict_get] in H2, H3.
    destruct (dict_get name _) as [m|] eqn:Hm;
      unfold default, id in H2; cbn [from_option] in H2.
    + assert (Hne : of_type name edges <> []).
      { destruct H3 as [H3 _]. destruct H3 as [[? ?]|?]; [by eexists|done|done]. }
      assert (0 < m).
      { destruct (of_type name edges); [done|]. cbn [length] in H2. lia. }
      split; [intros [= <-]; split; [lia|done]|].
      intros [-> _]. f_equal. lia.
    + split; [done|]. intros [-> Hpos].
      destruct (of_type name edges) eqn:E; [cbn in Hpos; lia|].
      destruct H3 as [_ H3]. destruct H3 as [? ?]; [by right|done].
  - rewrite H4. split; [lia|]. apply inj_le.
    etrans; [apply subseteq_size with (Y := list_to_set (map Infa.source_dataset edges));
             set_solver|].
    etrans; [apply size_list_to_set_le|]. by rewrite length_map.
  - rewrite H5. split; [lia|]. apply inj_le.
    etrans; [apply subseteq_size with (Y := list_to_set (map Infa.target_dataset edges));
             set_solver|].
    etrans; [apply size_list_to_set_le|]. by rewrite length_map.
  - intros x. rewrite H6. split; [|by right].
    intros [?%elem_of_empty|?]; done.
Qed.
End SummaryFacts.

(** ** Groups, target keys and the shape of fine-grained lineage *)

Section PartitionFacts.
Import Py Infa.
Variable key : ColumnLineageEdge -> string.

Lemma concat_values_update k (e : ColumnLineageEdge)
    (d : dict (list ColumnLineageEdge)) :
  dict_mem k d = true ->
  concat (dict_values (dict_update k (fun l => l ++ [e]) d))
  ≡ₚ e :: concat (dict_values d).
Proof.
  unfold dict_mem, dict_values.
  induction d as [|[k' v] d IH]; cbn [dict_get dict_update]; [done|].
  destruct (String.eqb k k'); cbn [map snd concat].
  - intros _. rewrite <- app_assoc. cbn [app].
    by rewrite <- Permutation_middle.
  - intros H. rewrite (IH H). by rewrite <- Permutation_middle.
Qed.

Lemma concat_values_set_fresh k (d : dict (list ColumnLineageEdge)) :
  dict_mem k d = false ->
  concat (dict_values (dict_set k [] d)) ≡ₚ concat (dict_values d).
Proof.
  unfold dict_values, dict_mem.
  induction d as [|[k' v] d IH]; cbn [dict_set dict_get]; [done|].
  destruct (String.eqb k k'); cbn [map snd concat]; [done|].
  intros H. by rewrite (IH H).
Qed.

Lemma dict_mem_set k (d : dict (list ColumnLineageEdge)) v :
  dict_mem k (dict_set k v d) = true.
Proof. unfold dict_mem. by rewrite dict_get_set, String.eqb_refl. Qed.

Lemma concat_values_group (groups : dict (list ColumnLineageEdge)) e :
  concat (dict_values (group_edge key groups e))
  ≡ₚ e :: concat (dict_values groups).
Proof.
  unfold group_edge. destruct (dict_mem (key e) groups) eqn:Hm.
  - by apply concat_values_update.
  - rewrite concat_values_update by apply dict_mem_set.
    by rewrite concat_values_set_fresh.
Qed.

(** X7: the grouping loop of the emitter ([_build_job_io] by target key,
    [emit_dataset_lineage] by target dataset and then by target column)
    is a partition of the edges: no key occurs twice, every group is the
    non-empty list of the edges of its key in their original order, and
    the groups together hold every edge exactly as often as the input. *)
Theorem grouping_is_a_partition (edges : list ColumnLineageEdge) :
  NoDup (dict_keys (group_edges key edges)) /\
  concat (dict_values (group_edges key edges)) ≡ₚ edges /\
  (forall k g, (k, g) ∈ group_edges key edges ->
               g <> [] /\ g = List.filter (same_key key k) edges) /\
  (forall e, e ∈ edges ->
             exists g, (key e, g) ∈ group_edges key edges /\ e ∈ g).
Proof.
  split; [|split; [|split]].
  - apply (group_edges_fold key edges []), NoDup_nil_2.
  - unfold group_edges.
    enough (H : forall groups,
               concat (dict_values (fold_left (group_edge key) edges groups))
               ≡ₚ concat (dict_values groups) ++ edges).
    { by rewrite H. }
    induction edges as [|e es IH]; intros groups; cbn [fold_left].
    + by rewrite app_nil_r.
    + rewrite IH, concat_values_group. by rewrite <- Permutation_middle.
  - intros k g [-> Hne]%group_edges_spec. done.
  - apply group_edges_cover.
Qed.
End PartitionFacts.

Section KeyFacts.
Import Py Infa InfaKeys.

Lemma rsplit_dot_None s : has_dot s = false -> rsplit_dot s = None.
Proof.
  induction s as [|c s IH]; cbn [has_dot rsplit_dot]; [done|].
  intros [Hc Hs]%orb_false_elim. by rewrite (IH Hs), Hc.
Qed.

Lemma rsplit_dot_join a b :
  has_dot b = false -> rsplit_dot (a +:+ "." +:+ b) = Some (a, b).
Proof.
  intros Hb. induction a as [|c a IH].
  - change ("" +:+ "." +:+ b) with (String "."%char b).
    cbn [rsplit_dot]. by rewrite (rsplit_dot_None b Hb).
  - change (String c a +:+ "." +:+ b) with (String c (a +:+ "." +:+ b)).
    cbn [rsplit_dot]. by rewrite IH.
Qed.

Lemma target_parts_key e :
  has_dot (target_column e) = false ->
  target_parts (target_key e) = (target_dataset e, target_column e).
Proof.
  intros H. unfold target_parts, target_key. by rewrite rsplit_dot_join.
Qed.
End KeyFacts.

Section ShapeFacts.
Import Py Infa InfaKeys InfaScenarios.
Variable make_schema_field_urn : string -> string -> string.
Variable make_dataset_urn : string -> string -> string -> string.
Variable cfg : EmitterConfig.

Local Abbreviation dataset_urn := (_build_dataset_urn make_dataset_urn cfg).
Local Abbreviation next_urns :=
  (next_field_urns make_schema_field_urn make_dataset_urn cfg).
Local Abbreviation urns_of :=
  (upstream_urns make_schema_field_urn make_dataset_urn cfg).
Local Abbreviation job_group :=
  (job_io_group make_schema_field_urn make_dataset_urn cfg).
Local Abbreviation col_group :=
  (column_lineage make_schema_field_urn make_dataset_urn cfg).
Local Abbreviation target_field_urn d c :=
  (make_schema_field_urn (dataset_urn d false) c).

Lemma next_urns_nodup acc e : NoDup acc -> NoDup (next_urns acc e).
Proof.
  intros Hnd. unfold next_field_urns, collect_upstream.
  destruct (String.eqb (source_column e) "*"); [done|].
  destruct (str_in _ acc) eqn:Hin; cbn [snd]; [done|].
  apply NoDup_app. split; [done|]. split; [|apply NoDup_singleton].
  intros x Hx ->%list_elem_of_singleton.
  apply str_in_true in Hx. congruence.
Qed.

Lemma urns_of_nodup g : NoDup (urns_of g).
Proof.
  unfold upstream_urns.
  enough (H : forall acc, NoDup acc -> NoDup (fold_left next_urns g acc)).
  { apply H, NoDup_nil_2. }
  induction g as [|e g IH]; intros acc Hacc; cbn [fold_left]; [done|].
  by apply IH, next_urns_nodup.
Qed.

(** What one group adds to the outputs and to the fine-grained lineage. *)
Lemma job_group_out i o f k g :
  exists i' extra,
    job_group (i, o, f) (k, g)
    = (i', {[dataset_urn (fst (target_parts k)) false]} ∪ o, f ++ extra) /\
    (forall fgl, fgl ∈ extra ->
       upstreams fgl = urns_of g /\ upstreams fgl <> [] /\
       downstreams fgl
       = [target_field_urn (fst (target_parts k)) (snd (target_parts k))]).
Proof.
  unfold job_io_group, target_parts.
  rewrite (collect_fold make_schema_field_urn make_dataset_urn cfg).
  destruct (rsplit_dot k) as [[a b]|]; cbn [fst snd];
    (destruct (fold_left next_urns g []) as [|u us] eqn:Hu;
     [ eexists _, []; rewrite app_nil_r; split; [reflexivity|];
       by intros ? ?%elem_of_nil
     | eexists _, [_]; split; [reflexivity|];
       intros fgl ->%list_elem_of_singleton; cbn;
       unfold upstream_urns; by rewrite Hu ]).
Qed.

Lemma job_out_fold groups : forall i o f,
  exists i' o' extra,
    fold_left job_group groups (i, o, f) = (i', o', f ++ extra) /\
    (forall u, u ∈ o' <->
               u ∈ o \/ exists k g, (k, g) ∈ groups /\
                                    u = dataset_urn (fst (target_parts k)) false) /\
    (forall fgl, fgl ∈ extra ->
       exists k g, (k, g) ∈ groups /\
         upstreams fgl = urns_of g /\ upstreams fgl <> [] /\
         downstreams fgl
         = [target_field_urn (fst (target_parts k)) (snd (target_parts k))]).
Proof.
  induction groups as [|[k g] groups IH]; intros i o f; cbn [fold_left].
  - exists i, o, []. rewrite app_nil_r. split; [done|]. split.
    + intros u. split; [by left|]. intros [?|(? & ? & ?%elem_of_nil & _)]; done.
    + by intros ? ?%elem_of_nil.
  - destruct (job_group_out i o f k g) as (i1 & extra1 & -> & Hextra1).
    destruct (IH i1 ({[dataset_urn (fst (target_parts k)) false]} ∪ o)
                 (f ++ extra1)) as (i' & o' & extra & -> & Ho & Hf).
    exists i', o', (extra1 ++ extra). rewrite app_assoc.
    split; [done|]. split.
    + intros u. rewrite Ho, elem_of_union, elem_of_singleton. split.
      * intros [[->|?]|(k' & g' & ? & ?)]; [right|by left|right].
        -- exists k, g. split; [left|done].
        -- exists k', g'. split; [by right|done].
      * intros [?|(k' & g' & [[= -> ->]|?]%elem_of_cons & ?)].
        -- left. by right.
        -- left. by left.
        -- right. by exists k', g'.
    + intros fgl [H|H]%elem_of_app.
      * exists k, g. split; [left|by apply Hextra1].
      * destruct (Hf fgl H) as (k' & g' & ? & ?).
        exists k', g'. split; [by right|done].
Qed.

(** X8: when no target column holds a dot, [_build_job_io] reads the
    dataset and the column back from each key [dataset.column] as they
    were put in, even if the dataset name itself holds dots: the output
    datasets are exactly the target datasets of the edges, and every
    fine-grained lineage has a single downstream, the target field of
    one of the edges. *)
Theorem job_outputs_are_targets (edges : list ColumnLineageEdge)
    (inputs outputs : gset string) (fgls : list FineGrainedLineage) :
  (forall e, e ∈ edges -> has_dot (target_column e) = false) ->
  _build_job_io make_schema_field_urn make_dataset_urn cfg edges
  = (inputs, outputs, fgls) ->
  (forall u, u ∈ outputs <->
             exists e, e ∈ edges /\ u = dataset_urn (target_dataset e) false) /\
  (forall fgl, fgl ∈ fgls ->
     exists e, e ∈ edges /\
       downstreams fgl
       = [target_field_urn (target_dataset e) (target_column e)]).
Proof.
  intros Hdot. unfold _build_job_io.
  destruct (job_out_fold (group_edges target_key edges) ∅ ∅ [])
    as (i' & o' & extra & -> & Ho & Hf).
  cbn [app]. intros [= <- <- <-].
  assert (Hkey : forall k g, (k, g) ∈ group_edges target_key edges ->
            exists e, e ∈ edges /\
                      target_parts k = (target_dataset e, target_column e)).
  { intros k g Hg.
    pose proof (proj1 (group_edges_spec target_key edges k g) Hg) as [_ Hne].
    destruct g as [|e l]; [done|].
    destruct (group_edges_member target_key edges k (e :: l) e Hg) as [He Hk];
      [left|].
    exists e. split; [done|]. rewrite <- Hk. by apply target_parts_key, Hdot. }
  split.
  - intros u. rewrite Ho. split.
    + intros [?%elem_of_empty|(k & g & Hg & ->)]; [done|].
      destruct (Hkey k g Hg) as (e & He & ->). by exists e.
    + intros (e & He & ->). right.
      destruct (group_edges_cover target_key edges e He) as (g & Hg & _).
      exists (target_key e), g. split; [done|].
      by rewrite target_parts_key by by apply Hdot.
  - intros fgl Hfgl. destruct (Hf fgl Hfgl) as (k & g & Hg & _ & _ & Hd).
    destruct (Hkey k g Hg) as (e & He & Hp). exists e. split; [done|].
    by rewrite Hd, Hp.
Qed.

Lemma col_group_out target_urn ds f k g :
  exists ds' extra,
    col_group target_urn (ds, f) (k, g) = (ds', f ++ extra) /\
    (forall fgl, fgl ∈ extra ->
       upstreams fgl = urns_of g /\ upstreams fgl <> [] /\
       downstreams fgl = [make_schema_field_urn target_urn k]).
Proof.
  unfold column_lineage.
  rewrite (collect_fold make_schema_field_urn make_dataset_urn cfg).
  destruct (fold_left next_urns g []) as [|u us] eqn:Hu.
  - eexists _, []. rewrite app_nil_r. split; [reflexivity|].
    by intros ? ?%elem_of_nil.
  - eexists _, [_]. split; [reflexivity|].
    intros fgl ->%list_elem_of_singleton. cbn.
    unfold upstream_urns. by rewrite Hu.
Qed.

Lemma col_out_fold target_urn groups : forall ds f,
  exists ds' extra,
    fold_left (col_group target_urn) groups (ds, f) = (ds', f ++ extra) /\
    (forall fgl, fgl ∈ extra ->
       exists k g, (k, g) ∈ groups /\
         upstreams fgl = urns_of g /\ upstreams fgl <> [] /\
         downstreams fgl = [make_schema_field_urn target_urn k]).
Proof.
  induction groups as [|[k g] groups IH]; intros ds f; cbn [fold_left].
  - exists ds, []. rewrite app_nil_r. split; [done|]. by intros ? ?%elem_of_nil.
  - destruct (col_group_out target_urn ds f k g) as (ds1 & extra1 & -> & H1).
    destruct (IH ds1 (f ++ extra1)) as (ds' & extra & -> & H2).
    exists ds', (extra1 ++ extra). rewrite app_assoc. split; [done|].
    intros fgl [H|H]%elem_of_app.
    + exists k, g. split; [left|by apply H1].
    + destruct (H2 fgl H) as (k' & g' & ? & ?).
      exists k', g'. split; [by right|done].
Qed.

(** X9: every fine-grained lineage that [_build_job_io] or
    [emit_dataset_lineage] builds has at least one upstream field, no
    upstream field twice, and exactly one downstream field; in
    [emit_dataset_lineage] the downstream is the target field of an edge
    of the dataset of the aspect, whatever characters the names hold. *)
Theorem fine_grained_lineage_shape (edges : list ColumnLineageEdge) :
  (forall inputs outputs fgls fgl,
      _build_job_io make_schema_field_urn make_dataset_urn cfg edges
      = (inputs, outputs, fgls) ->
      fgl ∈ fgls ->
      upstreams fgl <> [] /\ NoDup (upstreams fgl) /\
      length (downstreams fgl) = 1) /\
  (forall a fgl,
      a ∈ emit_dataset_lineage make_schema_field_urn make_dataset_urn cfg edges ->
      fgl ∈ snd a ->
      upstreams fgl <> [] /\ NoDup (upstreams fgl) /\
      exists e, e ∈ edges /\
        fst (fst a) = dataset_urn (target_dataset e) false /\
        downstreams fgl
        = [target_field_urn (target_dataset e) (target_column e)]).
Proof.
  split.
  - intros inputs outputs fgls fgl. unfold _build_job_io.
    destruct (job_out_fold (group_edges target_key edges) ∅ ∅ [])
      as (i' & o' & extra & -> & _ & Hf).
    cbn [app]. intros [= <- <- <-] Hfgl.
    destruct (Hf fgl Hfgl) as (k & g & _ & Hu & Hne & Hd).
    split; [done|]. split; [|by rewrite Hd].
    rewrite Hu. apply urns_of_nodup.
  - intros [[u ds] fs] fgl Ha Hfgl. cbn [fst snd] in *.
    apply (aspect_spec make_schema_field_urn make_dataset_urn cfg) in Ha
      as (d & es & Hg & Hfold & Hu & _).
    cbn [fst snd] in Hfold, Hu.
    destruct (col_out_fold (dataset_urn d false)
                (group_edges target_column es) ∅ [])
      as (ds' & extra & Hrun & Hf).
    rewrite Hrun in Hfold. cbn [app] in Hfold.
    injection Hfold as <- <-.
    destruct (Hf fgl Hfgl) as (c & g & Hc & Hups & Hne & Hd).
    split; [done|]. split; [rewrite Hups; apply urns_of_nodup|].
    pose proof (proj1 (group_edges_spec target_column es c g) Hc) as [_ Hgne].
    destruct g as [|e l]; [done|].
    destruct (group_edges_member target_column es c (e :: l) e Hc) as [He Hk];
      [left|].
    destruct (group_edges_member target_dataset edges d es e Hg He) as [He' Hd'].
    exists e. split; [done|]. rewrite Hd', Hk, Hu. done.
Qed.
End ShapeFacts.

Section ShapeWitness.
Import Py Infa InfaKeys InfaScenarios.

Lemma job_outputs_are_targets_witness :
  urn_dataset "oracle" "TGT" "PROD"
  ∈ snd (fst (_build_job_io urn_field urn_dataset plain_config mixed_edges)).
Proof.
  set (R := _build_job_io urn_field urn_dataset plain_config mixed_edges).
  assert (E : R = (fst (fst R), snd (fst R), snd R)).
  { by destruct R as [[? ?] ?]. }
  assert (Hdot : forall e, e ∈ mixed_edges -> has_dot (target_column e) = false).
  { intros e He. unfold mixed_edges in He.
    repeat (apply elem_of_cons in He as [->|He]; [reflexivity|]).
    by apply elem_of_nil in He. }
  destruct (job_outputs_are_targets urn_field urn_dataset plain_config
              mixed_edges _ _ _ Hdot E) as [H _].
  apply H. eexists. split; [left|reflexivity].
Defined.
End ShapeWitness.

(** ** From a mapping to its lineage edges *)

Section BuilderFacts.
Import Py Infa InfaScenarios InfaKeys InfaSearch InfaBuilder.
Variable parse_one : string -> option Parsed.
Variable folder : FolderInfo.
Variable mapping : MappingInfo.

Local Abbreviation graph := (_build_instance_graph mapping).
Local Abbreviation F := (enough_fuel mapping).

Lemma find_source_enough_fuel instance_name field_name :
  exists r, forall k,
    _find_source_for_instance (F + k) folder mapping instance_name field_name
    = Some r.
Proof.
  unfold _find_source_for_instance, enough_fuel.
  set (n := length (connectors mapping)).
  destruct (find_source_loop_terminates folder mapping
              (instance_name, field_name)
              (2 + S n * S n) [(instance_name, field_name)] ∅) as [r Hr].
  - intros p ->%list_elem_of_singleton. left.
  - cbn [length].
    assert (size (keys_of (search_pairs mapping (instance_name, field_name)) ∖ ∅)
            <= S n).
    { etrans;
        [apply (subseteq_size _
                  (keys_of (search_pairs mapping (instance_name, field_name))));
         set_solver|].
      unfold keys_of. etrans; [apply size_list_to_set_le|].
      unfold search_pairs. cbn [map length]. rewrite !length_map. done. }
    fold n. nia.
  - exists r. intros k. by apply find_source_loop_mono.
Qed.

Lemma met_pairs_closed start ti tf p :
  p ∈ graph_get graph ti tf -> p ∈ met_pairs mapping start.
Proof.
  rewrite graph_get_build. intros Hp. right.
  apply list_elem_of_In, in_map_iff in Hp as (c & <- & Hc).
  apply filter_In in Hc as [Hc _].
  apply list_elem_of_In, in_map, Hc.
Qed.

Lemma trace_enough_depth ti tf :
  exists r, forall limit,
    enough_depth mapping <= limit ->
    _trace_field_lineage limit folder mapping ti tf graph ∅ 0%Z = Some r.
Proof.
  unfold enough_depth. set (n := length (connectors mapping)).
  set (P := met_pairs mapping (ti, tf)).
  assert (HlenP : length P <= S n).
  { unfold P, met_pairs. cbn [length]. by rewrite length_map. }
  destruct (trace_terminates folder mapping graph P
              (fun ti' tf' p => met_pairs_closed (ti, tf) ti' tf' p)
              (2 + n) ti tf ∅ 0%Z)
    as (st & v' & Hrun & _).
  { left. }
  { assert (size (keys_of P ∖ ∅) <= length P); [|lia].
    etrans; [apply (subseteq_size _ (keys_of P)); set_solver|].
    unfold keys_of. etrans; [apply size_list_to_set_le|]. by rewrite length_map. }
  exists (st, v'). intros limit Hle.
  eapply trace_fuel_mono; [|exact Hrun]. exact Hle.
Qed.

Lemma standard_edges_enough_fuel target_def target_col step inputs :
  exists es, forall k,
    standard_edges (F + k) folder mapping target_def target_col step inputs
    = Some es.
Proof.
  induction inputs as [|[fi ff] inputs [es IH]]; cbn [standard_edges].
  - by exists [].
  - destruct (find_source_enough_fuel fi ff) as [[[ds c]|] Hr].
    + eexists. intros k. by rewrite Hr, IH.
    + eexists. intros k. by rewrite Hr, IH.
Qed.

Lemma step_edges_enough_fuel target_def target_table target_col step :
  exists es, forall k,
    step_edges parse_one (F + k) folder mapping target_def target_table
      target_col step = Some es.
Proof.
  unfold step_edges.
  destruct (dict_get (instance_name step) (instances mapping)) as [i|];
    [|by eexists].
  destruct (sql_override i _); [by eexists|].
  destruct (transformation_type i);
    try apply standard_edges_enough_fuel; try (by eexists).
  destruct (dict_get _ (sources folder)); by eexists.
Qed.

Lemma chain_edges_enough_fuel target_def target_table target_col chain :
  exists es, forall k,
    chain_edges parse_one (F + k) folder mapping target_def target_table
      target_col chain = Some es.
Proof.
  induction chain as [|step chain [es IH]]; cbn [chain_edges].
  - by exists [].
  - destruct (step_edges_enough_fuel target_def target_table target_col step)
      as [es1 H1].
    exists (es1 ++ es). intros k. by rewrite H1, IH.
Qed.

Lemma split_dot_join a b :
  has_dot a = false -> split_dot (a +:+ "." +:+ b) = Some (a, b).
Proof.
  induction a as [|c a IH]; [done|].
  change (String c a +:+ "." +:+ b) with (String c (a +:+ "." +:+ b)).
  cbn [has_dot split_dot]. intros [-> Ha]%orb_false_elim. by rewrite (IH Ha).
Qed.

Lemma split_dot_is_Some a b : is_Some (split_dot (a +:+ "." +:+ b)).
Proof.
  induction a as [|c a [[x y] IH]]; [by eexists|].
  change (String c a +:+ "." +:+ b) with (String c (a +:+ "." +:+ b)).
  cbn [split_dot]. destruct (Ascii.eqb c "."); [by eexists|].
  rewrite IH. by eexists.
Qed.

Lemma dict_keys_set_cases {V} k (v : V) d x :
  x ∈ dict_keys (dict_set k v d) -> x = k \/ x ∈ dict_keys d.
Proof.
  unfold dict_keys. induction d as [|[k' v'] d IH]; cbn [dict_set map fst].
  - intros ->%list_elem_of_singleton. by left.
  - destruct (String.eqb_spec k k') as [->|]; cbn [map fst].
    + intros [->|?]%elem_of_cons; [by left|right; by right].
    + intros [->|H]%elem_of_cons; [right; left|].
      destruct (IH H); [by left|right; by right].
Qed.

(** The keys of the chains: what the two loops of [build_mapping_lineage]
    keep true. *)
Lemma fields_loop_keys limit inst target_def names : forall chains chains',
  inst ∈ target_instances mapping ->
  dict_get (transformation_name inst) (targets folder) = Some target_def ->
  (forall x, x ∈ names -> x ∈ dict_keys (td_fields target_def)) ->
  (forall key, key ∈ dict_keys chains -> chain_key folder mapping key) ->
  fields_loop limit folder mapping graph inst (transformation_name inst)
    names chains = Returns chains' ->
  forall key, key ∈ dict_keys chains' -> chain_key folder mapping key.
Proof.
  induction names as [|fn names IH]; intros chains chains' Hinst Hdef Hnames Hkeys;
    cbn [fields_loop].
  - by intros [= <-].
  - destruct (_trace_field_lineage _ _ _ _ _ _ _ _) as [[chain v]|]; [|done].
    apply IH; try done.
    + intros x Hx. apply Hnames. by right.
    + destruct chain as [|s chain]; [done|].
      intros key [->|H]%dict_keys_set_cases; [|by apply Hkeys].
      exists inst, target_def, fn. split; [done|]. split; [done|].
      split; [apply Hnames; left|done].
Qed.

Lemma targets_loop_keys limit insts : forall chains chains',
  (forall inst, inst ∈ insts -> inst ∈ target_instances mapping) ->
  (forall key, key ∈ dict_keys chains -> chain_key folder mapping key) ->
  targets_loop limit folder mapping graph insts chains = Returns chains' ->
  forall key, key ∈ dict_keys chains' -> chain_key folder mapping key.
Proof.
  induction insts as [|inst insts IH]; intros chains chains' Hinsts Hkeys;
    cbn [targets_loop].
  - by intros [= <-].
  - assert (Hrest : forall i, i ∈ insts -> i ∈ target_instances mapping).
    { intros i Hi. apply Hinsts. by right. }
    destruct (dict_get _ (targets folder)) as [td|] eqn:Htd; [|by apply IH].
    destruct (fields_loop _ _ _ _ _ _ _ _) as [chains1| |] eqn:Hf; [|done|done].
    apply IH; [done|].
    eapply fields_loop_keys; [| |by intros x Hx; exact Hx| |exact Hf]; try done.
    apply Hinsts. left.
Qed.

Lemma build_mapping_lineage_keys limit chains :
  build_mapping_lineage limit folder mapping = Returns chains ->
  forall key, key ∈ dict_keys chains -> chain_key folder mapping key.
Proof.
  unfold build_mapping_lineage. apply targets_loop_keys; [done|].
  by intros key ?%elem_of_nil.
Qed.

Lemma fields_loop_enough_depth inst tn names : forall chains,
  exists chains', forall limit,
    enough_depth mapping <= limit ->
    fields_loop limit folder mapping graph inst tn names chains
    = Returns chains'.
Proof.
  induction names as [|fn names IH]; intros chains; cbn [fields_loop].
  - by eexists.
  - destruct (trace_enough_depth (in_name inst) fn) as [[chain v] Hr].
    destruct (IH (match chain with
                  | [] => chains
                  | _ => dict_set (tn +:+ "." +:+ fn) chain chains
                  end)) as [chains' H'].
    exists chains'. intros limit Hle. by rewrite Hr, H'.
Qed.

Lemma targets_loop_enough_depth insts : forall chains,
  exists chains', forall limit,
    enough_depth mapping <= limit ->
    targets_loop limit folder mapping graph insts chains = Returns chains'.
Proof.
  induction insts as [|inst insts IH]; intros chains; cbn [targets_loop].
  - by eexists.
  - destruct (dict_get _ (targets folder)) as [td|]; [|apply IH].
    destruct (fields_loop_enough_depth inst (transformation_name inst)
                (dict_keys (td_fields td)) chains) as [chains1 H1].
    destruct (IH chains1) as [chains' H'].
    exists chains'. intros limit Hle. by rewrite H1, H'.
Qed.

(** A lower limit changes nothing but the exception: the loops return
    what they return under any higher limit, or raise [RecursionError]. *)
Lemma fields_loop_limit limit limit' inst tn names : forall chains chains',
  limit <= limit' ->
  fields_loop limit' folder mapping graph inst tn names chains
  = Returns chains' ->
  fields_loop limit folder mapping graph inst tn names chains = Returns chains'
  \/ fields_loop limit folder mapping graph inst tn names chains
     = Raises "RecursionError".
Proof.
  intros chains chains' Hle. revert chains.
  induction names as [|fn names IH]; intros chains; cbn [fields_loop].
  - by left.
  - destruct (_trace_field_lineage limit folder mapping (in_name inst) fn graph
                ∅ 0%Z) as [[chain v]|] eqn:E; [|by right].
    rewrite (trace_fuel_mono folder mapping graph _ _ _ _ _ _ _ Hle E).
    apply IH.
Qed.

Lemma targets_loop_limit limit limit' insts : forall chains chains',
  limit <= limit' ->
  targets_loop limit' folder mapping graph insts chains = Returns chains' ->
  targets_loop limit folder mapping graph insts chains = Returns chains'
  \/ targets_loop limit folder mapping graph insts chains
     = Raises "RecursionError".
Proof.
  intros chains chains' Hle. revert chains.
  induction insts as [|inst insts IH]; intros chains; cbn [targets_loop].
  - by left.
  - destruct (dict_get _ (targets folder)) as [td|]; [|apply IH].
    destruct (fields_loop limit' folder mapping graph inst
                (transformation_name inst) (dict_keys (td_fields td)) chains)
      as [chains1| |] eqn:E; [|done|done].
    destruct (fields_loop_limit limit limit' _ _ _ _ _ Hle E) as [->| ->];
      [apply IH|by right].
Qed.

Lemma chains_loop_enough_fuel items : forall edges,
  (forall key, key ∈ dict_keys items -> chain_key folder mapping key) ->
  exists edges', forall k,
    chains_loop parse_one (F + k) folder mapping items edges = Returns edges'.
Proof.
  induction items as [|[key chain] items IH]; intros edges Hkeys;
    cbn [chains_loop].
  - by eexists.
  - assert (Hrest : forall x, x ∈ dict_keys items -> chain_key folder mapping x).
    { intros x Hx. apply Hkeys. by right. }
    destruct (Hkeys key) as (inst & td & fn & _ & _ & _ & ->); [left|].
    destruct (split_dot_is_Some (transformation_name inst) fn) as [[tt tc] ->].
    destruct (dict_get tt (targets folder)) as [td'|]; [|by apply IH].
    destruct (chain_edges_enough_fuel td' tt tc chain) as [es Hes].
    destruct (IH (edges ++ es) Hrest) as [edges' H'].
    exists edges'. intros k. by rewrite Hes, H'.
Qed.

(** X10: [build_column_lineage_edges] returns a list of edges whenever
    the interpreter lets the tracer nest [n + 2] calls deep, for [n]
    connectors, whatever the parser says of the SQL and on cyclic
    connector graphs too: the traces and the searches end, and the split
    of a chain key never fails, since every key was built as
    [target.field].  Under a lower limit it returns the same edges or
    raises [RecursionError], and nothing else; on the orders mapping of
    Scenario 1, whose traces nest two calls deep, it does raise under a
    limit of one and returns its edge under a limit of two.  (The fuel of the searches' loops belongs to
    the model: [2 + (n + 1) * (n + 1)] is enough.) *)
Theorem column_lineage_edges_returns :
  (exists edges,
     (forall limit fuel,
        enough_depth mapping <= limit -> enough_fuel mapping <= fuel ->
        build_column_lineage_edges parse_one limit fuel folder mapping
        = Returns edges)
     /\ (forall limit fuel,
           enough_fuel mapping <= fuel ->
           build_column_lineage_edges parse_one limit fuel folder mapping
           = Returns edges
           \/ build_column_lineage_edges parse_one limit fuel folder mapping
              = Raises "RecursionError"))
  /\ build_column_lineage_edges parse_orders 1 (enough_fuel orders_mapping)
       orders_folder orders_mapping = Raises "RecursionError"
  /\ (exists e,
        build_column_lineage_edges parse_orders 2 (enough_fuel orders_mapping)
          orders_folder orders_mapping = Returns [e]).
Proof.
  split; [|split; [by vm_compute|eexists; by vm_compute]].
  destruct (targets_loop_enough_depth (target_instances mapping) [])
    as [chains Hchains].
  destruct (chains_loop_enough_fuel chains []) as [edges Hedges].
  { apply (build_mapping_lineage_keys (enough_depth mapping)).
    unfold build_mapping_lineage. by apply Hchains. }
  assert (Hfuel : forall fuel, enough_fuel mapping <= fuel ->
            chains_loop parse_one fuel folder mapping chains [] = Returns edges).
  { intros fuel Hle.
    replace fuel with (F + (fuel - F)) by lia. apply Hedges. }
  exists edges. split.
  - intros limit fuel Hl Hf.
    unfold build_column_lineage_edges, build_mapping_lineage.
    rewrite Hchains by done. by apply Hfuel.
  - intros limit fuel Hf.
    unfold build_column_lineage_edges, build_mapping_lineage.
    destruct (targets_loop_limit limit (limit + enough_depth mapping)
                (target_instances mapping) [] chains) as [-> | ->];
      [lia|apply Hchains; lia| |by right].
    left. by apply Hfuel.
Qed.

Lemma standard_edges_target fuel target_def target_col step inputs :
  forall es e,
    standard_edges fuel folder mapping target_def target_col step inputs
    = Some es ->
    e ∈ es ->
    target_column e = target_col /\
    target_dataset e = _build_target_dataset_name target_def /\
    cle_step_order e = step_order step.
Proof.
  induction inputs as [|[fi ff] inputs IH]; intros es e; cbn [standard_edges].
  - intros [= <-] He. by apply elem_of_nil in He.
  - destruct (_find_source_for_instance fuel folder mapping fi ff) as [[[ds c]|]|];
      destruct (standard_edges fuel folder mapping target_def target_col step inputs)
        as [es'|]; try done.
    + intros [= <-] [->|He]%elem_of_cons; [done|]. by apply (IH es').
    + intros [= <-] He. by apply (IH es').
Qed.

Lemma step_edges_target fuel target_def target_table target_col step es e :
  step_edges parse_one fuel folder mapping target_def target_table target_col
    step = Some es ->
  e ∈ es ->
  target_column e = target_col /\
  (target_dataset e = target_table \/
   target_dataset e = _build_target_dataset_name target_def) /\
  cle_step_order e = step_order step.
Proof.
  unfold step_edges.
  destruct (dict_get (instance_name step) (instances mapping)) as [i|].
  2:{ intros [= <-] He. by apply elem_of_nil in He. }
  destruct (sql_override i _) as [sql|].
  { intros [= <-]. unfold _parse_sql_lineage.
    destruct (detect_stored_procedure_call sql) as [[schema proc]|].
    - intros ->%list_elem_of_singleton. cbn. auto.
    - intros He.
      apply list_elem_of_In, in_flat_map in He as ([[ups out] expr] & _ & He).
      unfold result_edges in He.
      destruct (String.eqb _ _); [|done].
      apply in_flat_map in He as (p & _ & He).
      destruct (dict_get _ _); [|done]. destruct He as [<-|[]]. cbn. auto. }
  assert (Hstd : standard_edges fuel folder mapping target_def target_col step
                   (input_fields step) = Some es ->
                 e ∈ es ->
                 target_column e = target_col /\
                 (target_dataset e = target_table \/
                  target_dataset e = _build_target_dataset_name target_def) /\
                 cle_step_order e = step_order step).
  { intros H He.
    destruct (standard_edges_target _ _ _ _ _ _ _ H He) as (? & ? & ?). auto. }
  destruct (transformation_type i); try exact Hstd.
  - destruct (dict_get _ (sources folder)) as [sd|]; intros [= <-] He.
    + apply list_elem_of_In, in_map_iff in He as (p & <- & _). cbn. auto.
    + by apply elem_of_nil in He.
  - intros [= <-]. unfold _build_stored_proc_lineage.
    destruct (_get_transformation folder mapping i) as [t|];
      [|by intros ?%elem_of_nil].
    destruct (stored_proc_name t) as [p|]; [|by intros ?%elem_of_nil].
    destruct (truthy p); [|by intros ?%elem_of_nil].
    intros ->%list_elem_of_singleton. cbn. auto.
Qed.

Lemma chain_edges_target fuel target_def target_table target_col chain :
  forall es e,
    chain_edges parse_one fuel folder mapping target_def target_table
      target_col chain = Some es ->
    e ∈ es ->
    target_column e = target_col /\
    (target_dataset e = target_table \/
     target_dataset e = _build_target_dataset_name target_def) /\
    exists step, step ∈ chain /\ cle_step_order e = step_order step.
Proof.
  induction chain as [|step chain IH]; intros es e; cbn [chain_edges].
  - intros [= <-] He. by apply elem_of_nil in He.
  - destruct (step_edges _ _ _ _ _ _ _ _) as [es1|] eqn:H1; [|done].
    destruct (chain_edges _ _ _ _ _ _ _ _) as [es2|]; [|done].
    intros [= <-] [He|He]%elem_of_app.
    + destruct (step_edges_target _ _ _ _ _ _ _ H1 He) as (? & ? & ?).
      split; [done|]. split; [done|]. exists step. split; [left|done].
    + destruct (IH es2 e eq_refl He) as (? & ? & s & ? & ?).
      split; [done|]. split; [done|]. exists s. split; [by right|done].
Qed.

Lemma chains_loop_target fuel items : forall edges edges',
  (forall inst, inst ∈ target_instances mapping ->
                has_dot (transformation_name inst) = false) ->
  (forall key, key ∈ dict_keys items -> chain_key folder mapping key) ->
  chains_loop parse_one fuel folder mapping items edges = Returns edges' ->
  forall e, e ∈ edges' ->
    e ∈ edges \/
    exists inst target_def,
      inst ∈ target_instances mapping /\
      dict_get (transformation_name inst) (targets folder) = Some target_def /\
      target_column e ∈ dict_keys (td_fields target_def) /\
      (target_dataset e = transformation_name inst \/
       target_dataset e = _build_target_dataset_name target_def).
Proof.
  induction items as [|[key chain] items IH]; intros edges edges' Hdot Hkeys;
    cbn [chains_loop].
  - intros [= <-] e He. by left.
  - assert (Hrest : forall x, x ∈ dict_keys items -> chain_key folder mapping x).
    { intros x Hx. apply Hkeys. by right. }
    destruct (Hkeys key) as (inst & td & fn & Hinst & Htd & Hfn & ->); [left|].
    rewrite split_dot_join by by apply Hdot. rewrite Htd.
    destruct (chain_edges _ _ _ _ _ _ _ _) as [es|] eqn:Hes; [|done].
    intros Hrun e He.
    destruct (IH _ _ Hdot Hrest Hrun e He) as [[H|H]%elem_of_app|H];
      [by left| |by right].
    right. destruct (chain_edges_target _ _ _ _ _ _ _ Hes H) as (Hc & Hd & _).
    exists inst, td. rewrite Hc. done.
Qed.

(** X11: when the names of the Target Definition instances' definitions
    hold no dot, every edge that [build_column_lineage_edges] returns is
    addressed to a field of the definition of a Target Definition instance
    of the mapping, held by the folder; its target dataset is the name
    of that definition as the instance gives it (the edges from SQL and
    from stored procedures) or the owner-qualified name of the definition
    (the edges from connectors). *)
Theorem edges_address_target_fields (limit fuel : nat)
    (edges : list ColumnLineageEdge) (e : ColumnLineageEdge) :
  (forall inst, inst ∈ target_instances mapping ->
                has_dot (transformation_name inst) = false) ->
  build_column_lineage_edges parse_one limit fuel folder mapping
  = Returns edges ->
  e ∈ edges ->
  exists inst target_def,
    inst ∈ dict_values (instances mapping) /\
    transformation_type inst = TARGET_DEFINITION /\
    dict_get (transformation_name inst) (targets folder) = Some target_def /\
    target_column e ∈ dict_keys (td_fields target_def) /\
    (target_dataset e = transformation_name inst \/
     target_dataset e = _build_target_dataset_name target_def).
Proof.
  intros Hdot. unfold build_column_lineage_edges.
  destruct (build_mapping_lineage limit folder mapping) as [chains| |] eqn:Hc;
    [|done|done].
  intros Hrun He.
  destruct (chains_loop_target fuel chains [] edges Hdot
              (build_mapping_lineage_keys limit chains Hc) Hrun e He)
    as [?%elem_of_nil|(inst & td & Hinst & ? & ? & ?)]; [done|].
  exists inst, td.
  unfold target_instances in Hinst.
  apply list_elem_of_In, filter_In in Hinst as [Hin Ht].
  split; [by apply list_elem_of_In|]. split; [|done].
  by apply type_eqb_eq.
Qed.
End BuilderFacts.

Section BuilderWitness.
Import Py Infa InfaKeys InfaScenarios InfaBuilder.

Lemma edges_address_target_fields_witness :
  exists inst target_def,
    inst ∈ dict_values (instances orders_mapping) /\
    transformation_type inst = TARGET_DEFINITION /\
    dict_get (transformation_name inst) (targets orders_folder)
    = Some target_def /\
    "ORDER_COUNT" ∈ dict_keys (td_fields target_def) /\
    ("TGT" = transformation_name inst \/
     "TGT" = _build_target_dataset_name target_def).
Proof.
  refine (edges_address_target_fields parse_orders orders_folder orders_mapping
            4 4 [_] {| Infa.source_dataset := "ORDERS";
                     source_column := "ORDER_ID";
                     Infa.target_dataset := "TGT";
                     target_column := "ORDER_COUNT";
                     cle_transformation_type := SOURCE_QUALIFIER;
                     Infa.transformation_expression :=
                       Some "COUNT(o.ORDER_ID) AS ORDER_COUNT";
                     confidence_score := sql_confidence;
                     cle_step_order := 1 |} _ _ _).
  - intros inst Hinst. cbn in Hinst.
    repeat (apply elem_of_cons in Hinst as [->|Hinst]; [reflexivity|]).
    by apply elem_of_nil in Hinst.
  - vm_compute. reflexivity.
  - left.
Defined.
End BuilderWitness.

(** ** Member references of calculation scripts *)

Section ReferenceFacts.
Import Py Regex Essbase EssbaseReferences.

Lemma append_nonempty a b : b <> "" -> a +:+ b <> "".
Proof. destruct a; [done|]. intros _. cbn. discriminate. Qed.

Lemma formula_members_fold {A} (name : A -> string) (keep : string -> bool) ms :
  forall members,
    NoDup members ->
    (forall x, x ∈ members -> x <> "") ->
    (forall m, m ∈ ms -> keep (name m) = true -> name m <> "") ->
    let members' :=
      fold_left (fun members m =>
                   if (keep (name m) && negb (str_in (name m) members))%bool
                   then members ++ [name m] else members) ms members in
    NoDup members' /\ (forall x, x ∈ members' -> x <> "").
Proof.
  induction ms as [|m ms IH]; intros members Hnd Hne Hname; cbn [fold_left].
  - done.
  - assert (Hrest : forall m', m' ∈ ms -> keep (name m') = true -> name m' <> "").
    { intros m' Hm'. apply Hname. by right. }
    destruct (keep (name m)) eqn:Hk; cbn [andb]; [|by apply IH].
    destruct (str_in (name m) members) eqn:Hin; cbn [negb]; [by apply IH|].
    apply IH; [| |done].
    + apply NoDup_app. split; [done|]. split; [|apply NoDup_singleton].
      intros x Hx ->%list_elem_of_singleton. apply str_in_true in Hx. congruence.
    + intros x [?| ->%list_elem_of_singleton]%elem_of_app; [by apply Hne|].
      apply Hname; [left|done].
Qed.

Lemma truthy_nonempty s : truthy s = true -> s <> "".
Proof. by destruct s. Qed.

(** X12: the members that [_extract_members_from_formula] draws from a
    formula are pairwise distinct and none is the empty string, whatever
    the formula. *)
Theorem formula_members_distinct (formula : string) :
  NoDup (_extract_members_from_formula formula) /\
  forall member, member ∈ _extract_members_from_formula formula -> member <> "".
Proof.
  unfold _extract_members_from_formula.
  destruct (formula_members_fold (fun m => quoted_member (snd m)) truthy
              (finditer member_ref formula) []) as [H1 H2].
  { apply NoDup_nil_2. }
  { by intros x ?%elem_of_nil. }
  { intros m _. apply truthy_nonempty. }
  cbv zeta in H1, H2.
  apply (formula_members_fold
           (fun m : string * captures =>
              group_text 1 (snd m) +:+ "->" +:+ group_text 3 (snd m))
           (fun _ => true) (finditer dim_member formula)); [exact H1|exact H2|].
  intros m _ _. apply append_nonempty. discriminate.
Qed.

Lemma members_at_add dim member refs d :
  members_at (add_reference dim member refs) d
  = if String.eqb d dim
    then (if str_in member (members_at refs dim) then members_at refs dim
          else members_at refs dim ++ [member])
    else members_at refs d.
Proof.
  unfold add_reference.
  set (refs1 := if dict_mem dim refs then refs else dict_set dim [] refs).
  assert (Hpre : forall d', members_at refs1 d' = members_at refs d').
  { intros d'. unfold refs1, members_at, dict_mem.
    destruct (dict_get dim refs) as [l|] eqn:Hg; [done|].
    rewrite dict_get_set. destruct (String.eqb_spec d' dim) as [->|]; [|done].
    by rewrite Hg. }
  assert (Hmem : is_Some (dict_get dim refs1)).
  { unfold refs1, dict_mem. destruct (dict_get dim refs) eqn:E; [by eexists|].
    rewrite dict_get_set, String.eqb_refl. by eexists. }
  rewrite (Hpre dim).
  destruct (str_in member (members_at refs dim)) eqn:Hin.
  - rewrite Hpre. destruct (String.eqb_spec d dim) as [->|]; done.
  - unfold members_at at 1. rewrite dict_get_update.
    destruct (String.eqb_spec d dim) as [->|]; [|apply Hpre].
    specialize (Hpre dim). unfold members_at in Hpre.
    destruct Hmem as [l Hl]. rewrite Hl in Hpre |- *. cbn in Hpre |- *.
    by rewrite Hpre.
Qed.

Lemma add_reference_present dim member refs :
  member ∈ members_at refs dim -> add_reference dim member refs = refs.
Proof.
  intros Hin. unfold add_reference.
  assert (Hmem : dict_mem dim refs = true).
  { unfold dict_mem, members_at in *.
    destruct (dict_get dim refs); [done|]. by apply elem_of_nil in Hin. }
  rewrite Hmem. apply str_in_true in Hin. by rewrite Hin.
Qed.

Local Abbreviation add_all :=
  (fold_left (fun refs (p : string * string) => add_reference (fst p) (snd p) refs)).

Lemma extract_as_fold line refs :
  _extract_member_references line refs = add_all (line_references line) refs.
Proof.
  unfold _extract_member_references, line_references.
  rewrite fold_left_app.
  assert (H1 : forall (l : list (string * captures)) r,
             add_all (map (fun m => (group_text 1 (snd m), group_text 3 (snd m))) l) r
             = fold_left
                 (fun refs m =>
                    add_reference (group_text 1 (snd m)) (group_text 3 (snd m)) refs)
                 l r).
  { induction l as [|m l IH]; intros r; cbn [fold_left map fst snd]; [done|].
    apply IH. }
  rewrite H1.
  generalize (fold_left
                (fun refs m =>
                   add_reference (group_text 1 (snd m)) (group_text 3 (snd m)) refs)
                (finditer dim_member line) refs).
  induction (finditer member_ref line) as [|m ms IH]; intros r;
    cbn [fold_left flat_map]; [done|].
  rewrite fold_left_app. rewrite IH.
  by destruct (truthy (quoted_member (snd m))).
Qed.

Lemma add_all_spec pairs : forall refs,
  (forall d, exists tail,
      members_at (add_all pairs refs) d = members_at refs d ++ tail) /\
  ((forall d, NoDup (members_at refs d)) ->
   forall d, NoDup (members_at (add_all pairs refs) d)) /\
  (forall d m, (d, m) ∈ pairs -> m ∈ members_at (add_all pairs refs) d) /\
  (forall d m, m ∈ members_at (add_all pairs refs) d ->
               m ∈ members_at refs d \/ (d, m) ∈ pairs).
Proof.
  induction pairs as [|[dim member] pairs IH]; intros refs; cbn [fold_left fst snd].
  - split; [intros d; exists []; by rewrite app_nil_r|]. split; [done|].
    split; [by intros d m ?%elem_of_nil|]. intros d m ?. by left.
  - destruct (IH (add_reference dim member refs)) as (H1 & H2 & H3 & H4).
    assert (Hstep : forall d, exists tail,
              members_at (add_reference dim member refs) d
              = members_at refs d ++ tail).
    { intros d. rewrite members_at_add.
      destruct (String.eqb_spec d dim) as [->|]; [|exists []; by rewrite app_nil_r].
      destruct (str_in _ _); [exists []; by rewrite app_nil_r|by eexists]. }
    split; [|split; [|split]].
    + intros d. destruct (H1 d) as [t1 ->]. destruct (Hstep d) as [t2 ->].
      exists (t2 ++ t1). by rewrite app_assoc.
    + intros Hnd. apply H2. intros d. rewrite members_at_add.
      destruct (String.eqb_spec d dim) as [->|]; [|done].
      destruct (str_in _ _) eqn:Hin; [done|].
      apply NoDup_app. split; [done|]. split; [|apply NoDup_singleton].
      intros x Hx ->%list_elem_of_singleton. apply str_in_true in Hx. congruence.
    + intros d m [[= -> ->]|Hin]%elem_of_cons; [|by apply H3].
      destruct (H1 dim) as [t ->]. apply elem_of_app. left.
      rewrite members_at_add, String.eqb_refl.
      destruct (str_in member _) eqn:Hin; [by apply str_in_true|].
      apply elem_of_app. right. left.
    + intros d m [Hm|Hm]%H4; [|right; by right].
      rewrite members_at_add in Hm.
      destruct (String.eqb_spec d dim) as [->|]; [|by left].
      destruct (str_in member _); [by left|].
      apply elem_of_app in Hm as [?| ->%list_elem_of_singleton]; [by left|].
      right. left.
Qed.

Lemma add_all_present pairs : forall refs,
  (forall d m, (d, m) ∈ pairs -> m ∈ members_at refs d) ->
  add_all pairs refs = refs.
Proof.
  induction pairs as [|[dim member] pairs IH]; intros refs Hin;
    cbn [fold_left fst snd]; [done|].
  rewrite add_reference_present by (apply Hin; left).
  apply IH. intros d m H. apply Hin. by right.
Qed.

Lemma parse_lines_references {T : Type}
    (operation : string -> nat -> option FixContext -> option T) lines :
  forall st : BodyState T FixContext,
    (forall d, NoDup (members_at (referenced_members st) d)) ->
    forall d,
      NoDup (members_at
               (referenced_members
                  (parse_lines T FixContext operation _extract_member_references
                     st lines)) d).
Proof.
  unfold parse_lines.
  induction lines as [|line lines IH]; intros st Hnd; cbn [fold_left]; [done|].
  apply IH. unfold parse_line.
  destruct (_ || _ || _)%bool; [done|].
  destruct (search fix_start _) as [[[? ?] ?]|]; [done|].
  destruct (match_at fix_end _); [done|].
  cbn [referenced_members]. rewrite extract_as_fold.
  by apply add_all_spec.
Qed.

(** X13: [_extract_member_references] only ever appends to the lists of
    [refs]: what was recorded stays, in place; the members it adds are
    the ones the line refers to, each under its dimension; lists without
    duplicates stay so; and a second pass over the same line changes
    nothing.  Hence the references that [_parse_script_body] collects
    list no member twice under a dimension, whatever the script and the
    recogniser of operations. *)
Theorem member_references_accumulate (line : string) (refs : FixContext) :
  let refs' := _extract_member_references line refs in
  (forall dim, exists tail,
      members_at refs' dim = members_at refs dim ++ tail) /\
  (forall dim member,
      member ∈ members_at refs' dim <->
      member ∈ members_at refs dim \/ (dim, member) ∈ line_references line) /\
  ((forall dim, NoDup (members_at refs dim)) ->
   forall dim, NoDup (members_at refs' dim)) /\
  _extract_member_references line refs' = refs' /\
  (forall (T : Type) (operation : string -> nat -> option FixContext -> option T)
          (content dim : string),
      NoDup (members_at
               (snd (_parse_script_body T FixContext operation
                       _extract_member_references content [])) dim)).
Proof.
  cbv zeta. rewrite !extract_as_fold.
  destruct (add_all_spec (line_references line) refs) as (H1 & H2 & H3 & H4).
  split; [done|]. split; [|split; [done|split]].
  - intros dim member. split; [apply H4|].
    intros [Hm|Hm]; [|by apply H3].
    destruct (H1 dim) as [t ->]. apply elem_of_app. by left.
  - by apply add_all_present.
  - intros T operation content dim. unfold _parse_script_body. cbn [snd].
    apply parse_lines_references. intros d. cbn. apply NoDup_nil_2.
Qed.
End ReferenceFacts.

(** ** Lineage of member formulas *)

Section FormulaFacts.
Import Py Regex Essbase EssbaseScenarios EssbaseFormulas EssbaseFormulaScenarios.

Lemma append_cancel (prefix a b : string) :
  prefix +:+ a = prefix +:+ b -> a = b.
Proof.
  induction prefix as [|c prefix IH]; cbn; [done|].
  intros [= H]. by apply IH.
Qed.

Lemma cache_key_inj cube a b : cache_key cube a = cache_key cube b -> a = b.
Proof.
  unfold cache_key. intros H.
  apply append_cancel in H. apply (append_cancel ".") in H.
  apply append_cancel in H. by apply (append_cancel ".") in H.
Qed.

Lemma find_by_name (dims : list EssbaseDimension) d :
  NoDup (map dim_name dims) -> d ∈ dims ->
  List.find (fun d' => String.eqb (dim_name d') (dim_name d)) dims = Some d.
Proof.
  induction dims as [|x dims IH]; cbn [map List.find].
  - by intros _ ?%elem_of_nil.
  - intros [Hx Hnd]%NoDup_cons [->|Hd]%elem_of_cons.
    + by rewrite String.eqb_refl.
    + destruct (String.eqb_spec (dim_name x) (dim_name d)) as [E|_]; [|by apply IH].
      exfalso. apply Hx. rewrite E.
      by apply list_elem_of_In, in_map, list_elem_of_In.
Qed.

(** X14: when the dimensions of the cube have distinct names and every
    entry of the cache for the cube names the dimension that the search
    would find (as in the empty cache), the cache does not change the
    answer of [_resolve_member_dimension]: it is the first dimension that
    has a member of that name, or [None] when there is none; and the
    cache that the call leaves is again of that kind. *)
Theorem member_dimension_cache_is_transparent (member_name : string)
    (cube : EssbaseCube) (cache : Cache) :
  NoDup (map dim_name (dimensions cube)) ->
  cache_sound cube cache ->
  fst (_resolve_member_dimension member_name cube cache)
  = first_dimension_of member_name cube /\
  cache_sound cube (snd (_resolve_member_dimension member_name cube cache)) /\
  (forall d, first_dimension_of member_name cube = Some d ->
             d ∈ dimensions cube /\
             exists m, m ∈ members d /\ name m = member_name).
Proof.
  intros Hnd Hsound. unfold _resolve_member_dimension.
  split; [|split].
  - destruct (cache !! cache_key cube member_name) as [cached|] eqn:Hc.
    + cbn [fst]. destruct (Hsound _ _ Hc) as (d & Hd & <-). rewrite Hd.
      apply find_by_name; [done|].
      unfold first_dimension_of in Hd. apply find_some in Hd as [Hd _].
      by apply list_elem_of_In.
    + unfold first_dimension_of.
      by destruct (List.find (has_member member_name) (dimensions cube)).
  - destruct (cache !! cache_key cube member_name) as [cached|] eqn:Hc; [done|].
    destruct (List.find (has_member member_name) (dimensions cube))
      as [d|] eqn:Hd; [|done].
    cbn [snd]. intros m cn.
    destruct (decide (m = member_name)) as [->|Hne].
    + rewrite lookup_insert_eq. intros [= <-]. by exists d.
    + rewrite lookup_insert_ne; [apply Hsound|].
      intros E. by apply cache_key_inj in E.
  - intros d Hd. unfold first_dimension_of in Hd.
    apply find_some in Hd as [Hin Hm]. split; [by apply list_elem_of_In|].
    unfold has_member in Hm. apply existsb_exists in Hm as (m & Hm & E).
    exists m. split; [by apply list_elem_of_In|by apply String.eqb_eq].
Qed.

Lemma member_dimension_cache_is_transparent_witness :
  fst (_resolve_member_dimension "COGS" sample ∅)
  = first_dimension_of "COGS" sample /\
  cache_sound sample (snd (_resolve_member_dimension "COGS" sample ∅)) /\
  (forall d, first_dimension_of "COGS" sample = Some d ->
             d ∈ dimensions sample /\
             exists m, m ∈ members d /\ name m = "COGS").
Proof.
  apply (member_dimension_cache_is_transparent "COGS" sample ∅).
  - cbn. apply NoDup_singleton.
  - intros m cn H. by rewrite lookup_empty in H.
Defined.

Lemma fold_left_inv {A S : Type} (f : S -> A -> S) (I : S -> Prop) (l : list A) :
  (forall s x, x ∈ l -> I s -> I (f s x)) ->
  forall s, I s -> I (fold_left f l s).
Proof.
  induction l as [|x l IH]; intros Hstep s Hs; cbn [fold_left]; [done|].
  apply IH.
  - intros s' x' Hx'. apply Hstep. by right.
  - apply Hstep; [left|done].
Qed.

Local Abbreviation fresh :=
  (Forall (fun r => well_formed r /\ aggregation r = None)).

Lemma quoted_references_fold ctx cube ms : forall st,
  fresh (fst st) ->
  fresh (fst (fold_left (quoted_reference ctx cube) ms st)) /\
  length (fst (fold_left (quoted_reference ctx cube) ms st))
  = length (fst st) + length ms.
Proof.
  induction ms as [|m ms IH]; intros st Hst; cbn [fold_left length].
  - split; [done|lia].
  - destruct (IH (quoted_reference ctx cube st m)) as [H1 H2].
    + unfold quoted_reference.
      destruct (_resolve_member_dimension _ cube (snd st)) as [dim cache].
      cbn [fst]. apply Forall_app. split; [done|]. by apply Forall_singleton.
    + split; [done|]. rewrite H2. unfold quoted_reference.
      destruct (_resolve_member_dimension _ cube (snd st)) as [dim cache].
      cbn [fst]. rewrite length_app. cbn [length]. lia.
Qed.

Lemma dim_member_references_fold ms : forall refs,
  fresh refs ->
  fresh (fold_left dim_member_reference ms refs) /\
  length (fold_left dim_member_reference ms refs) = length refs + length ms.
Proof.
  induction ms as [|m ms IH]; intros refs Hrefs; cbn [fold_left length].
  - split; [done|lia].
  - destruct (IH (dim_member_reference refs m)) as [H1 H2].
    + unfold dim_member_reference.
      apply Forall_app. split; [done|]. by apply Forall_singleton.
    + split; [done|]. rewrite H2. unfold dim_member_reference.
      rewrite length_app. cbn [length]. lia.
Qed.

Lemma apply_aggregations_spec formula patterns : forall refs start,
  Forall (fun r => well_formed r /\ aggregation r = start) refs ->
  Forall (fun r => well_formed r /\
                   aggregation r = last_aggregation patterns formula start)
         (apply_aggregations patterns formula refs) /\
  length (apply_aggregations patterns formula refs) = length refs.
Proof.
  unfold apply_aggregations, last_aggregation.
  induction patterns as [|p patterns IH]; intros refs start Hrefs;
    cbn [fold_left]; [done|].
  destruct (search (fst p) formula).
  - destruct (IH (map (set_aggregation (snd p)) refs) (Some (snd p))) as [H1 H2].
    + apply Forall_forall. intros r Hr.
      apply list_elem_of_In, in_map_iff in Hr as (r0 & <- & Hr0).
      apply list_elem_of_In in Hr0.
      rewrite Forall_forall in Hrefs. destruct (Hrefs r0 Hr0) as [Hw _].
      split; [exact Hw|done].
    + split; [done|]. by rewrite H2, length_map.
  - by apply IH.
Qed.

Lemma last_aggregation_none formula patterns :
  (forall p, p ∈ patterns -> search (fst p) formula = None) ->
  forall start, last_aggregation patterns formula start = start.
Proof.
  unfold last_aggregation.
  induction patterns as [|p patterns IH]; intros Hnone start; cbn [fold_left];
    [done|].
  rewrite (Hnone p) by left. apply IH. intros q Hq. apply Hnone. by right.
Qed.

Lemma parse_formula_references_spec formula ctx cube cache :
  let refs := fst (_parse_formula_references formula ctx cube cache) in
  Forall (fun r => well_formed r /\
                   aggregation r = last_aggregation agg_patterns formula None)
         refs /\
  length refs
  = length (finditer double_quoted formula)
    + length (finditer single_quoted formula)
    + length (finditer bracketed formula)
    + length (finditer formula_dim_member formula).
Proof.
  cbv zeta. unfold _parse_formula_references. cbn [fst].
  destruct (quoted_references_fold ctx cube (finditer double_quoted formula)
              ([], cache)) as [A1 A2]; [by apply Forall_nil|].
  destruct (quoted_references_fold ctx cube (finditer single_quoted formula)
              _ A1) as [B1 B2].
  destruct (quoted_references_fold ctx cube (finditer bracketed formula)
              _ B1) as [C1 C2].
  destruct (dim_member_references_fold (finditer formula_dim_member formula)
              _ C1) as [D1 D2].
  destruct (apply_aggregations_spec formula agg_patterns _ None D1) as [E1 E2].
  split; [exact E1|]. rewrite E2, D2, C2, B2, A2. cbn [fst length]. lia.
Qed.

(** X15: every reference that [_parse_formula_references] returns has
    the path [dimension.member], and all of them carry the same
    aggregation: the function of the last of the patterns [@SUM],
    [@AVG], [@COUNT], [@MAX], [@MIN], [@PRIOR], [@PARENTVAL] that occurs
    in the formula, and none when none occurs; so a formula with
    [@PARENTVAL(] marks all its references [PARENT_VALUE].  There is one
    reference for every match of each of the four patterns: a name that
    is matched twice is listed twice. *)
Theorem formula_references_share_aggregation (formula : string)
    (context_dimension : EssbaseDimension) (cube : EssbaseCube)
    (cache : Cache) :
  let refs :=
    fst (_parse_formula_references formula context_dimension cube cache) in
  (forall r, r ∈ refs ->
     field_path r = dimension r +:+ "." +:+ member r /\
     aggregation r = last_aggregation agg_patterns formula None) /\
  ((forall p, p ∈ agg_patterns -> search (fst p) formula = None) ->
   forall r, r ∈ refs -> aggregation r = None) /\
  (search (at_function "@PARENTVAL") formula <> None ->
   forall r, r ∈ refs -> aggregation r = Some "PARENT_VALUE") /\
  length refs
  = length (finditer double_quoted formula)
    + length (finditer single_quoted formula)
    + length (finditer bracketed formula)
    + length (finditer formula_dim_member formula).
Proof.
  destruct (parse_formula_references_spec formula context_dimension cube cache)
    as [H1 H2].
  cbv zeta in *. rewrite Forall_forall in H1.
  split; [exact H1|]. split; [|split; [|exact H2]].
  - intros Hnone r Hr. destruct (H1 r Hr) as [_ ->].
    by apply last_aggregation_none.
  - intros Hpv r Hr. destruct (H1 r Hr) as [_ ->].
    unfold last_aggregation, agg_patterns. cbn [fold_left fst snd].
    by destruct (search (at_function "@PARENTVAL") formula).
Qed.

(** What [extract_member_formula_lineage] keeps true of its mappings. *)
Local Abbreviation formula_mapping cube :=
  (fun m : ColumnLineageMapping =>
     source_dataset m = application cube +:+ "." +:+ cube_name cube /\
     target_dataset m = source_dataset m /\
     transformation_type m = Some "member_formula" /\
     confidence m = 1%Q /\
     filter_expression m = None /\
     exists dimension member f,
       dimension ∈ dimensions cube /\
       member ∈ members dimension /\
       has_formula member = true /\
       formula member = Some f /\
       target_field m = dim_name dimension +:+ "." +:+ name member /\
       transformation_expression m = Some f /\
       aggregation_function m = last_aggregation agg_patterns f None).

Lemma member_formula_lineage_spec cube dimension member st :
  dimension ∈ dimensions cube ->
  member ∈ members dimension ->
  Forall (formula_mapping cube) (fst st) ->
  Forall (formula_mapping cube)
         (fst (member_formula_lineage
                 (application cube +:+ "." +:+ cube_name cube) cube dimension
                 st member)).
Proof.
  intros Hd Hm Hst. unfold member_formula_lineage.
  destruct (has_formula member) eqn:Hf; [|done].
  destruct (formula member) as [f|] eqn:Hfm; [|done].
  destruct (parse_formula_references_spec f dimension cube (snd st)) as [H1 _].
  cbv zeta in H1.
  destruct (_parse_formula_references f dimension cube (snd st)) as [refs cache].
  cbn [fst] in *. apply Forall_app. split; [done|].
  apply Forall_forall. intros m Hin.
  apply list_elem_of_In, in_map_iff in Hin as (r & <- & Hr).
  apply list_elem_of_In in Hr. rewrite Forall_forall in H1.
  destruct (H1 r Hr) as [_ Hagg]. cbn.
  do 5 (split; [done|]). exists dimension, member, f. done.
Qed.

(** X16: every mapping that [extract_member_formula_lineage] returns
    stays inside the dataset [application.cube], has the transformation
    type [member_formula], confidence 1.0 and no filter, and is addressed
    to [dimension.member] for a member of a dimension of the cube that
    has a formula, which it carries as its expression, with the
    aggregation of that formula: a member without a formula is the target
    of no mapping. *)
Theorem formula_lineage_targets (cube : EssbaseCube) (namespace : string)
    (cache : Cache) (m : ColumnLineageMapping) :
  m ∈ fst (extract_member_formula_lineage cube namespace cache) ->
  source_dataset m = application cube +:+ "." +:+ cube_name cube /\
  target_dataset m = source_dataset m /\
  transformation_type m = Some "member_formula" /\
  confidence m = 1%Q /\
  filter_expression m = None /\
  exists dimension member f,
    dimension ∈ dimensions cube /\
    member ∈ members dimension /\
    has_formula member = true /\
    formula member = Some f /\
    target_field m = dim_name dimension +:+ "." +:+ name member /\
    transformation_expression m = Some f /\
    aggregation_function m = last_aggregation agg_patterns f None.
Proof.
  intros Hm.
  enough (H : Forall (formula_mapping cube)
                (fst (extract_member_formula_lineage cube namespace cache))).
  { rewrite Forall_forall in H. by apply H. }
  unfold extract_member_formula_lineage.
  apply (fold_left_inv _ (fun st => Forall (formula_mapping cube) (fst st)));
    [|by apply Forall_nil].
  intros st dimension Hd Hst.
  apply (fold_left_inv _ (fun st => Forall (formula_mapping cube) (fst st)));
    [|done].
  intros st' member Hmem Hst'. by apply member_formula_lineage_spec.
Qed.

Lemma formula_lineage_targets_witness :
  source_dataset margin_from_cogs
  = application sample +:+ "." +:+ cube_name sample /\
  target_dataset margin_from_cogs = source_dataset margin_from_cogs /\
  transformation_type margin_from_cogs = Some "member_formula" /\
  confidence margin_from_cogs = 1%Q /\
  filter_expression margin_from_cogs = None /\
  exists dimension member f,
    dimension ∈ dimensions sample /\
    member ∈ members dimension /\
    has_formula member = true /\
    formula member = Some f /\
    target_field margin_from_cogs
    = dim_name dimension +:+ "." +:+ name member /\
    transformation_expression margin_from_cogs = Some f /\
    aggregation_function margin_from_cogs
    = last_aggregation agg_patterns f None.
Proof.
  apply (formula_lineage_targets sample "ns" ∅ margin_from_cogs).
  vm_compute. right. left.
Defined.
End FormulaFacts.

(** ** Lineage of calculation scripts *)

Section ScriptFacts.
Import Py Regex Essbase EssbaseScripts.

Lemma filter_parts_nil (ctx : FixContext) :
  flat_map
    (fun entry : string * list string =>
       if String.eqb (fst entry) "_unresolved_" then []
       else [fst entry +:+ " IN ("
             +:+ join ", " (map in_quotes (snd entry)) +:+ ")"])
    ctx = [] <->
  List.filter (fun dim => negb (String.eqb dim "_unresolved_")) (dict_keys ctx)
  = [].
Proof.
  induction ctx as [|[dim ms] ctx IH]; [done|].
  cbn [flat_map dict_keys map fst snd List.filter].
  fold (dict_keys ctx).
  destruct (String.eqb dim "_unresolved_"); cbn [negb app]; [exact IH|].
  split; intros H; discriminate H.
Qed.

Lemma filter_is_None context :
  _fix_context_to_filter context = None <-> resolved_dimensions context = [].
Proof.
  unfold _fix_context_to_filter, resolved_dimensions.
  destruct context as [ctx|]; [|done].
  change (default [] (Some ctx)) with ctx.
  destruct ctx as [|e ctx]; [done|].
  rewrite <- filter_parts_nil.
  destruct (flat_map _ (e :: ctx)); [done|].
  split; intros H; discriminate H.
Qed.

Lemma length_flat_map_const {A B : Type} (f : A -> list B) (n : nat) l :
  (forall x, length (f x) = n) -> length (flat_map f l) = length l * n.
Proof.
  intros Hf. induction l as [|x l IH]; [done|].
  cbn [flat_map length]. rewrite length_app, Hf, IH. lia.
Qed.

Lemma transform_lineage_length dataset_name transform :
  length (transform_lineage dataset_name transform) = mapping_count transform.
Proof.
  unfold transform_lineage, mapping_count.
  destruct (operation_type transform); try done.
  - by rewrite length_map.
  - apply length_flat_map_const. intros x. by rewrite length_map.
  - by rewrite length_map.
Qed.

Lemma calc_script_lineage_flat transforms dataset_name :
  calc_script_lineage transforms dataset_name
  = flat_map (transform_lineage dataset_name) transforms.
Proof.
  unfold calc_script_lineage.
  enough (H : forall acc,
             fold_left
               (fun lineage_mappings transform =>
                  lineage_mappings ++ transform_lineage dataset_name transform)
               transforms acc
             = acc ++ flat_map (transform_lineage dataset_name) transforms).
  { by rewrite H. }
  induction transforms as [|t ts IH]; intros acc; cbn [fold_left flat_map].
  - by rewrite app_nil_r.
  - by rewrite IH, app_assoc.
Qed.

(** X17: the lineage that [_calc_script_to_job] builds from the transforms
    of a script never leaves the dataset: source and target dataset of
    every mapping are the dataset of the script.  Each mapping carries
    the filter of the FIX context of its transform, which is absent
    exactly when that context names no resolved dimension.  A formula
    gives one mapping per pair of a source and a target member, a
    DATACOPY one mapping, an aggregation or CALC DIM one per target
    member, and every other operation (such as CLEARDATA) none, so the
    number of mappings is the sum of these counts. *)
Theorem calc_script_lineage_stays_in_cube (transforms : list CalcTransform)
    (dataset_name : string) :
  (forall m, m ∈ calc_script_lineage transforms dataset_name ->
     source_dataset m = dataset_name /\ target_dataset m = dataset_name /\
     confidence m = 1%Q /\
     exists transform,
       transform ∈ transforms /\
       filter_expression m = _fix_context_to_filter (fix_context transform) /\
       (filter_expression m = None <->
        resolved_dimensions (fix_context transform) = [])) /\
  length (calc_script_lineage transforms dataset_name)
  = list_sum (map mapping_count transforms) /\
  (forall transform,
      transform ∈ transforms ->
      operation_type transform = CLEAR \/ operation_type transform = FIX \/
      operation_type transform = COPY \/ operation_type transform = ALLOCATION \/
      operation_type transform = MEMBER_FORMULA \/
      operation_type transform = CUSTOM ->
      transform_lineage dataset_name transform = []).
Proof.
  rewrite calc_script_lineage_flat. split; [|split].
  - intros m Hm. apply list_elem_of_In, in_flat_map in Hm as (t & Ht & Hm).
    apply list_elem_of_In in Ht.
    assert (H : source_dataset m = dataset_name /\
                target_dataset m = dataset_name /\ confidence m = 1%Q /\
                filter_expression m = _fix_context_to_filter (fix_context t)).
    { unfold transform_lineage in Hm.
      destruct (operation_type t); try done.
      - apply in_map_iff in Hm as (d & <- & _). done.
      - apply in_flat_map in Hm as (s & _ & Hm).
        apply in_map_iff in Hm as (x & <- & _). done.
      - destruct Hm as [<-|[]]. done.
      - apply in_map_iff in Hm as (d & <- & _). done. }
    destruct H as (? & ? & ? & Hf).
    do 3 (split; [done|]). exists t. split; [done|]. split; [done|].
    rewrite Hf. apply filter_is_None.
  - induction transforms as [|t ts IH]; [done|].
    cbn [flat_map map list_sum]. rewrite length_app, IH.
    by rewrite transform_lineage_length.
  - intros t _ Hop. unfold transform_lineage.
    destruct Hop as [-> | [-> | [-> | [-> | [-> | ->]]]]]; done.
Qed.
End ScriptFacts.
